(** * rvspecfit: the spectral interpolators and the CCF preprocessing helpers

    A shallow embedding of [py/rvspecfit/spec_inter.py] (the triangulation
    and regular-grid interpolators, the outside-grid predicate, the
    interpolator object and its cache), of the array helpers of
    [py/rvspecfit/make_ccf.py] ([CCFConfig], [fit_resid], [apodize], [pad],
    [preprocess_model_list], [interp_masker]), of [freezeDict] of [utils.py]
    and of [domany] of [desi/desi_fit.py], with the properties the
    specification states about them and further properties of the code.

    Numbers.  numpy's float64 values are idealised as exact rationals ([Q]):
    rounding, [inf] and [nan] are not modelled, and equality of computed
    values is [Qeq].  Where numpy divides by zero it yields [inf]/[nan] with
    a warning whereas [Qdiv] yields [0]; no statement below relies on such a
    quotient.  The transcendental functions ([np.exp], [np.log], [np.cos],
    [np.pi], the float power) are left abstract in the class [np.Ufuncs].
    Two computations are embedded in binary64, on Rocq's primitive floats,
    because rounding decides what they give: the length that [pad] computes
    from a quotient of two logarithms, and the corner weights of the
    regular-grid interpolator, which the idealised weights only approximate.

    Python exceptions are values of [exn]; a function that may raise returns a
    [result]. *)

From Stdlib Require Import ZArith QArith Qabs Qpower Qround Lia Lqa Sorted Ascii.
From Stdlib Require Import PrimFloat SpecFloat FloatOps.
From stdpp Require Import base option list strings gmap.

Set Default Proof Using "Type".

(** ** Exceptions *)

Inductive exn : Set :=
| IndexError
| ValueError
| TypeError
| ZeroDivisionError
| OverflowError
| Exception'.

Inductive result (A : Type) : Type :=
| Ok (a : A)
| Raise (e : exn).
Arguments Ok {A} a.
Arguments Raise {A} e.

#[global] Instance result_ret : MRet result := fun A a => Ok a.
#[global] Instance result_bind : MBind result :=
  fun A B f m => match m with Ok a => f a | Raise e => Raise e end.

Definition raises {A} (m : result A) : Prop := exists e, m = Raise e.

(** [for x in l: f x], collecting the results; the first exception stops it. *)
Fixpoint traverse {A B} (f : A -> result B) (l : list A) : result (list B) :=
  match l with
  | [] => Ok []
  | a :: l' => b ← f a; bs ← traverse f l'; Ok (b :: bs)
  end.

(** *** Exceptions of the code around the interpolators

    The loaders and drivers raise exceptions that carry a key, a message or a
    variable name. *)

Inductive error : Type :=
| builtin (e : exn)
| KeyError (key : string)
| RuntimeError (msg : string)
| UnboundLocalError (name : string).

Inductive outcome (A : Type) : Type :=
| Return (a : A)
| Throw (e : error).
Arguments Return {A} a.
Arguments Throw {A} e.

#[global] Instance outcome_ret : MRet outcome := fun A a => Return a.
#[global] Instance outcome_bind : MBind outcome :=
  fun A B f m => match m with Return a => f a | Throw e => Throw e end.

Definition of_result {A} (r : result A) : outcome A :=
  match r with
  | Ok a => Return a
  | Raise e => Throw (builtin e)
  end.

(** [d[key]] for a dictionary entry that may be absent. *)
Definition item {A} (key : string) (entry : option A) : outcome A :=
  match entry with
  | Some v => Return v
  | None => Throw (KeyError key)
  end.

(** ** Python sequences *)

(** [l[i]] for a Python list or a one-dimensional array: a negative index
    counts from the end, anything out of range raises [IndexError]. *)
Definition py_index {A} (l : list A) (i : Z) : result A :=
  let n := Z.of_nat (length l) in
  let j := if (i <? 0)%Z then (i + n)%Z else i in
  if (j <? 0)%Z then Raise IndexError
  else match l !! Z.to_nat j with
       | Some a => Ok a
       | None => Raise IndexError
       end.

(** ** binary64 *)

Module binary64.

(** The rational number that a finite double stands for. *)
Definition value (f : float) : Q :=
  match Prim2SF f with
  | S754_finite s m e =>
      let v := (inject_Z (Z.pos m) * 2 ^ e)%Q in
      if s then (- v)%Q else v
  | _ => 0%Q
  end.

(** The double nearest to an integer, ties to even: a Python integer
    converted to float64. *)
Definition of_Z (z : Z) : float := SF2Prim (binary_normalize prec emax z 0 false).

(** The doubles nearest to [ln 2] and to [ln(2**29)]: what the binary64
    correctly rounded binary64 logarithm returns at [2] and at [2**29]. *)
Definition ln2 : float := 0x1.62e42fefa39efp-1.
Definition ln2_29 : float := 0x1.419ecb712c481p+4.

(** The double nearest to [ln(2**10)]. *)
Definition ln2_10 : float := 0x1.bb9d3beb8c86bp+2.

End binary64.

(** ** numpy *)

Module np.

(** The elementary functions of numpy on floats.  [log64] is [np.log] on a
    binary64 scalar, for the one result that rounding decides: the length
    that [pad] computes. *)
Class Ufuncs : Type := {
  exp : Q -> Q;
  log : Q -> Q;
  cos : Q -> Q;
  pi : Q;
  power : Q -> Q -> Q;
  log64 : float -> float
}.

Definition zeros (n : nat) : list Q := replicate n 0%Q.
Definition ones (n : nat) : list Q := replicate n 1%Q.

(** [np.arange(a, b)] on integers. *)
Definition arange (a b : Z) : list Z :=
  map (fun k => (a + Z.of_nat k)%Z) (seq 0 (Z.to_nat (b - a))).

Definition sum (l : list Q) : Q := foldr Qplus 0%Q l.
Definition prod (l : list Q) : Q := foldr Qmult 1%Q l.

(** [np.diff]: consecutive differences. *)
Fixpoint diff (l : list Q) : list Q :=
  match l with
  | a :: (b :: _) as t => (b - a)%Q :: diff t
  | _ => []
  end.

(** [np.allclose(a, b)] for an array [a] and a scalar [b], with the default
    tolerances: [|a - b| <= atol + rtol * |b|] at every element. *)
Definition rtol : Q := 1 # 100000.
Definition atol : Q := 1 # 100000000.
Definition isclose (a b : Q) : bool :=
  Qle_bool (Qabs (a - b)) (atol + rtol * Qabs b).
Definition allclose (a : list Q) (b : Q) : bool := forallb (fun x => isclose x b) a.

(** [np.nonzero(m)[0]] for a boolean vector: the positions that hold
    [True], in increasing order. *)
Fixpoint nonzero_from (i : nat) (m : list bool) : list nat :=
  match m with
  | [] => []
  | b :: m' => if b then i :: nonzero_from (S i) m' else nonzero_from (S i) m'
  end.
Definition nonzero (m : list bool) : list nat := nonzero_from 0 m.

(** [a[m]] for a boolean mask [m]. *)
Fixpoint compress {A} (m : list bool) (a : list A) : list A :=
  match m, a with
  | b :: m', x :: a' => if b then x :: compress m' a' else compress m' a'
  | _, _ => []
  end.

Fixpoint count {A} (f : A -> bool) (l : list A) : nat :=
  match l with
  | [] => 0
  | a :: l' => if f a then S (count f l') else count f l'
  end.

(** [np.searchsorted(a, v, side)] on a sorted [a]: the insertion point found
    by the bisection is the number of elements [<= v] ([side='right']) or
    [< v] ([side='left']). *)
Definition searchsorted_right (a : list Q) (v : Q) : nat :=
  count (fun e => Qle_bool e v) a.
Definition searchsorted_left (a : list nat) (v : nat) : nat :=
  count (fun e => e <? v) a.

Fixpoint nondecreasing (l : list Q) : bool :=
  match l with
  | a :: (b :: _) as t => Qle_bool a b && nondecreasing t
  | _ => true
  end.
Fixpoint nonincreasing (l : list Q) : bool :=
  match l with
  | a :: (b :: _) as t => Qle_bool b a && nonincreasing t
  | _ => true
  end.

(** numpy's [_monotonicity]: [1] for non-decreasing bins (constant and
    empty ones included), [-1] for non-increasing ones, [0] otherwise. *)
Definition monotonicity (bins : list Q) : Z :=
  if nondecreasing bins then 1
  else if nonincreasing bins then (-1)
  else 0.

(** [np.digitize(x, bins)] with [right=False]. *)
Definition digitize (x : Q) (bins : list Q) : result Z :=
  match monotonicity bins with
  | 0%Z => Raise ValueError
  | Zneg _ =>
      Ok (Z.of_nat (length bins) - Z.of_nat (searchsorted_right (rev bins) x))%Z
  | Zpos _ => Ok (Z.of_nat (searchsorted_right bins x))
  end.

(** An N-dimensional integer array in C order. *)
Record ndarray : Type := { shape : list nat; data : list Z }.

Definition norm_index (n : nat) (i : Z) : result nat :=
  let j := if (i <? 0)%Z then (i + Z.of_nat n)%Z else i in
  if ((0 <=? j) && (j <? Z.of_nat n))%Z then Ok (Z.to_nat j) else Raise IndexError.

(** Row-major offset of an index tuple.  More indices than dimensions is an
    [IndexError]; fewer select a sub-array, which the callers below cannot
    use where they need a scalar ([ValueError]). *)
Fixpoint ravel (acc : nat) (shp : list nat) (idx : list Z) : result nat :=
  match shp, idx with
  | [], [] => Ok acc
  | n :: shp', i :: idx' => j ← norm_index n i; ravel (acc * n + j) shp' idx'
  | [], _ :: _ => Raise IndexError
  | _ :: _, [] => Raise ValueError
  end.

(** [a[tuple(idx)]]. *)
Definition getitem (a : ndarray) (idx : list Z) : result Z :=
  k ← ravel 0 (shape a) idx;
  match data a !! k with
  | Some v => Ok v
  | None => Raise IndexError
  end.

(** [np.linspace(start, stop, num)] with the end point included: a negative
    [num] is a [ValueError]; the samples are [arange(0, num) * step + start],
    the last one being set to [stop]. *)
Definition linspace (start stop : Q) (num : Z) : result (list Q) :=
  if (num <? 0)%Z then Raise ValueError
  else
    let div := (num - 1)%Z in
    let y := map inject_Z (arange 0 num) in
    let delta := (stop - start)%Q in
    let y :=
      if (0 <? div)%Z then
        let step := (delta / inject_Z div)%Q in
        if Qeq_bool step 0
        then map (fun v => (v / inject_Z div * delta)%Q) y
        else map (fun v => (v * step)%Q) y
      else map (fun v => (v * delta)%Q) y in
    let y := map (fun v => (v + start)%Q) y in
    Ok (if (1 <? num)%Z then <[Z.to_nat (num - 1) := stop]> y else y).

End np.

(** [itertools.product] of [n] copies of [[0, 1]], in its lexicographic
    order: the corners of the unit hypercube. *)
Fixpoint product01 (n : nat) : list (list Z) :=
  match n with
  | O => [[]]
  | S n' => map (cons 0%Z) (product01 n') ++ map (cons 1%Z) (product01 n')
  end.


(** ** spec_inter.py *)

Module spec_inter.

(** What an interpolator hands back: the scalar [np.nan], or a spectrum. *)
Inductive value : Type :=
| nan
| array (spec : list Q).

(** [np.dot(w, rows)] for a weight vector and a matrix with [ncols]
    columns: the weighted sum of the rows. *)
Definition dot (w : list Q) (rows : list (list Q)) (ncols : nat) : list Q :=
  foldr (fun cr acc => zip_with Qplus (map (Qmult cr.1) cr.2) acc)
        (np.zeros ncols) (zip w rows).

(** The number of columns of a two-dimensional array given by its rows. *)
Definition ncols (m : list (list Q)) : nat :=
  match m with
  | [] => 0
  | r :: _ => length r
  end.

(** [[np.digitize(p[i], uvecs[i]) - 1 for i in range(ndim)]], with
    [ndim = len(uvecs)]: [p] and [uvecs] are walked in step, and a [p] that
    is too short raises [IndexError]. *)
Fixpoint gridlocs (uvecs : list (list Q)) (p : list Q) : result (list Z) :=
  match uvecs with
  | [] => Ok []
  | u :: us =>
      match p with
      | [] => Raise IndexError
      | x :: xs =>
          d ← np.digitize x u;
          r ← gridlocs us xs;
          Ok ((d - 1)%Z :: r)
      end
  end.

(** [(pos[i] < 0) or (pos[i] >= lens[i] - 1)] for some [i]. *)
Definition off_grid (pos : list Z) (lens : list nat) : bool :=
  existsb (fun kn => (kn.1 <? 0)%Z || (kn.1 >=? Z.of_nat kn.2 - 1)%Z) (zip pos lens).

Module TriInterp.

(** The part of [scipy.spatial.Delaunay] the interpolator reads.  The
    point location [find_simplex] is scipy's; it answers [-1] outside the
    convex hull. *)
Record Delaunay : Type := {
  ndim : nat;
  find_simplex : list Q -> Z;
  transform : list (list (list Q));
  simplices : list (list Z)
}.

Record t : Type := { triang : Delaunay; dats : list (list Q); exp : bool }.

Definition __init__ (triang : Delaunay) (dats : list (list Q)) (exp : bool) : t :=
  {| triang := triang; dats := dats; exp := exp |}.

Definition __call__ `{np.Ufuncs} (self : t) (p : list Q) : result value :=
  let ndim := ndim (triang self) in
  let xid := find_simplex (triang self) p in
  if (xid =? -1)%Z then Ok nan
  else
    T ← py_index (transform (triang self)) xid;
    r ← py_index T (Z.of_nat ndim);
    let d := zip_with Qminus p r in
    let b := map (fun row => np.sum (zip_with Qmult row d)) (take ndim T) in
    let b1 := b ++ [(1 - np.sum b)%Q] in
    verts ← py_index (simplices (triang self)) xid;
    rows ← traverse (py_index (dats self)) verts;
    let spec := dot b1 rows (ncols (dats self)) in
    Ok (array (if exp self then map np.exp spec else spec)).

End TriInterp.

Module GridOutsideCheck.

Record t : Type := {
  uvecs : list (list Q);
  idgrid : np.ndarray;
  ndim : nat;
  edges : list (list Z);
  lens : list nat
}.

Definition __init__ (uvecs : list (list Q)) (idgrid : np.ndarray) : t :=
  {| uvecs := uvecs;
     idgrid := idgrid;
     ndim := length uvecs;
     edges := product01 (length uvecs);
     lens := map length uvecs |}.

(** The loop [for curp in self.edges], which looks up
    [self.idgrid[tuple(curp)]]. *)
Fixpoint any_missing (idgrid : np.ndarray) (edges : list (list Z)) : result bool :=
  match edges with
  | [] => Ok false
  | curp :: rest =>
      v ← np.getitem idgrid curp;
      if (v =? -1)%Z then Ok true else any_missing idgrid rest
  end.

Definition __call__ (self : t) (p : list Q) : result bool :=
  pos ← gridlocs (uvecs self) p;
  if off_grid pos (lens self) then Ok true
  else any_missing (idgrid self) (edges self).

End GridOutsideCheck.

Module GridInterp.

Record t : Type := {
  uvecs : list (list Q);
  dats : list (list Q);
  exp : bool;
  idgrid : np.ndarray;
  ndim : nat;
  lens : list nat;
  edges : list (list Z)
}.

Definition __init__ (uvecs : list (list Q)) (idgrid : np.ndarray)
    (dats : list (list Q)) (exp : bool) : t :=
  {| uvecs := uvecs;
     dats := dats;
     exp := exp;
     idgrid := idgrid;
     ndim := length uvecs;
     lens := map length uvecs;
     edges := product01 (length uvecs) |}.

(** [np.ones(len(self.dats[0]))] *)
Definition flat (self : t) : result value :=
  r ← py_index (dats self) 0;
  Ok (array (np.ones (length r))).

(** [(p[i] - uvecs[i][pos[i]]) / (uvecs[i][pos[i] + 1] - uvecs[i][pos[i]])]
    for [i] in [range(ndim)]. *)
Fixpoint fractions (uvecs : list (list Q)) (p : list Q) (pos : list Z)
    : result (list Q) :=
  match uvecs, p, pos with
  | [], _, _ => Ok []
  | u :: us, x :: xs, k :: ks =>
      lo ← py_index u k;
      hi ← py_index u (k + 1);
      cs ← fractions us xs ks;
      Ok (((x - lo) / (hi - lo))%Q :: cs)
  | _, _, _ => Raise IndexError
  end.

(** [np.prod(coeffs**curp * (1 - coeffs)**(1 - curp))] *)
Definition weight (coeffs : list Q) (curp : list Z) : Q :=
  np.prod (zip_with (fun c e => (c ^ e * (1 - c) ^ (1 - e))%Q) coeffs curp).

(** [self.idgrid[tuple(curp + pos)]] *)
Definition corner (idgrid : np.ndarray) (pos curp : list Z) : result Z :=
  np.getitem idgrid (zip_with Z.add curp pos).

(** The vector [coeffs2], one weight per corner. *)
Definition weights (coeffs : list Q) (edges : list (list Z)) : list Q :=
  map (weight coeffs) edges.

(** The same coefficients and weights as the code computes them, in
    binary64: every difference, quotient and product is rounded to the
    nearest double.  A corner holds the exponents [0] and [1] only, at which
    the power is exact ([x**0] is [1.0] and [x**1] is [x]); [nan] stands for
    the power at any other exponent, which is never taken.  [np.prod]
    multiplies from the first element on. *)
Fixpoint fractions64 (uvecs : list (list float)) (p : list float) (pos : list Z)
    : result (list float) :=
  match uvecs, p, pos with
  | [], _, _ => Ok []
  | u :: us, x :: xs, k :: ks =>
      lo ← py_index u k;
      hi ← py_index u (k + 1);
      cs ← fractions64 us xs ks;
      Ok (((x - lo) / (hi - lo))%float :: cs)
  | _, _, _ => Raise IndexError
  end.

Definition power64 (x : float) (e : Z) : float :=
  match e with
  | 0%Z => 1%float
  | 1%Z => x
  | _ => PrimFloat.nan
  end.

Definition weight64 (coeffs : list float) (curp : list Z) : float :=
  fold_left PrimFloat.mul
    (zip_with (fun c e => (power64 c e * power64 (1 - c) (1 - e))%float) coeffs curp)
    1%float.

Definition weights64 (coeffs : list float) (edges : list (list Z)) : list float :=
  map (weight64 coeffs) edges.

Definition __call__ `{np.Ufuncs} (self : t) (p : list Q) : result value :=
  pos ← gridlocs (uvecs self) p;
  if off_grid pos (lens self) then flat self
  else
    coeffs ← fractions (uvecs self) p pos;
    let coeffs2 := weights coeffs (edges self) in
    pos2 ← traverse (corner (idgrid self) pos) (edges self);
    if existsb (fun k => (k <? 0)%Z) pos2 then flat self
    else
      rows ← traverse (py_index (dats self)) pos2;
      let spec := dot coeffs2 rows (ncols (dats self)) in
      Ok (array (if exp self then map np.exp spec else spec)).

End GridInterp.

(** The mapper of [make_nd]: only its [forward] method is called here. *)
Record Mapper : Type := { forward : list Q -> list Q }.

(** [scipy.interpolate.LinearNDInterpolator(triang, extraflags)], called at
    a point: scipy's code, left abstract. *)
Class Scipy : Type := {
  LinearNDInterpolator : TriInterp.Delaunay -> list Q -> list Q -> value
}.

(** The two kinds of interpolating function and of outside function that
    [getInterpolator] builds. *)
Inductive interper_t : Type :=
| interper_tri (f : TriInterp.t)
| interper_grid (f : GridInterp.t).

Inductive extraper_t : Type :=
| extraper_linear (triang : TriInterp.Delaunay) (extraflags : list Q)
| extraper_grid (f : GridOutsideCheck.t).

(** What [outsideFlag] hands back: the boolean of the grid check, or the
    interpolated membership flag of the triangulation. *)
Inductive flag : Type :=
| truth (b : bool)
| level (v : value).

(** A parameter vector, or a dictionary of named parameters. *)
Inductive param_t : Type :=
| by_position (l : list Q)
| by_name (d : gmap string Q).

Module SpecInterpolator.

Record t : Type := {
  name : string;
  lam : list Q;
  interper : interper_t;
  extraper : extraper_t;
  mapper : Mapper;
  parnames : list string;
  revision : string;
  filename : string;
  creation_soft_version : string
}.

Definition __init__ (name : string) (interper : interper_t) (extraper : extraper_t)
    (lam : list Q) (mapper : Mapper) (parnames : list string)
    (revision filename creation_soft_version : string) : t :=
  {| name := name;
     lam := lam;
     interper := interper;
     extraper := extraper;
     mapper := mapper;
     parnames := parnames;
     revision := revision;
     filename := filename;
     creation_soft_version := creation_soft_version |}.

Definition outsideFlag `{Scipy} (self : t) (param0 : list Q) : outcome flag :=
  let param := forward (mapper self) param0 in
  match extraper self with
  | extraper_linear triang extraflags =>
      Return (level (LinearNDInterpolator triang extraflags param))
  | extraper_grid f => of_result (b ← GridOutsideCheck.__call__ f param; Ok (truth b))
  end.

(** [[param0[_] for _ in self.parnames]] *)
Fixpoint ordered (d : gmap string Q) (names : list string) : outcome (list Q) :=
  match names with
  | [] => Return []
  | n :: names' => v ← item n (d !! n); vs ← ordered d names'; Return (v :: vs)
  end.

Definition eval `{np.Ufuncs} (self : t) (param0 : param_t) : outcome value :=
  param0 ← match param0 with
           | by_name d => ordered d (parnames self)
           | by_position l => Return l
           end;
  let param := forward (mapper self) param0 in
  match interper self with
  | interper_tri f => of_result (TriInterp.__call__ f param)
  | interper_grid f => of_result (GridInterp.__call__ f param)
  end.

End SpecInterpolator.

(** *** The cache and the files

    [interp_cache.interps] is a dictionary shared by the whole process; the
    files are read, never written.  The state that [getInterpolator] threads
    is the cache together with the list of the files read so far. *)

(** The dictionary that [pickle.load] returns, key by key. *)
Record fd_t : Type := {
  fd_lam : option (list Q);
  fd_vec : option (list (list Q));
  fd_mapper : option Mapper;
  fd_parnames : option (list string);
  fd_triang : option TriInterp.Delaunay;
  fd_extraflags : option (list Q);
  fd_regular : option bool;
  fd_uvecs : option (list (list Q));
  fd_idgrid : option np.ndarray;
  fd_revision : option string;
  fd_git_rev : option string
}.

(** The files: [np.load] and [pickle.load] of a path, and the two name
    patterns of [make_nd] applied to the setup name. *)
Class Files : Type := {
  INTERPOL_DAT_NAME : string -> string;
  INTERPOL_PKL_NAME : string -> string;
  np_load : string -> outcome (list (list Q));
  pickle_load : string -> outcome fd_t
}.

Record world : Type := {
  interps : gmap string SpecInterpolator.t;
  reads : list string
}.

Definition W (A : Type) : Type := world -> outcome A * world.

#[global] Instance W_ret : MRet W := fun A a w => (Return a, w).
#[global] Instance W_bind : MBind W :=
  fun A B f m w =>
    match m w with
    | (Return a, w') => f a w'
    | (Throw e, w') => (Throw e, w')
    end.

Definition pure {A} (r : outcome A) : W A := fun w => (r, w).

(** Reading the file at [path] with [load]. *)
Definition read {A} (load : string -> outcome A) (path : string) : W A :=
  fun w => (load path, {| interps := interps w; reads := reads w ++ [path] |}).

(** [interp_cache.interps[HR] = interpObj] *)
Definition remember (HR : string) (obj : SpecInterpolator.t) : W unit :=
  fun w => (Return tt, {| interps := <[HR := obj]> (interps w); reads := reads w |}).

(** [warmup_cache] only decides whether [dats.sum()] touches the pages of the
    memory-mapped file; nothing the program can observe depends on it. *)
Definition getInterpolator `{Files} (HR : string) (config : gmap string string)
    (warmup_cache : bool) : W SpecInterpolator.t :=
  fun w =>
    match interps w !! HR with
    | None =>
        (let expFlag := true in
         lib ← pure (item "template_lib" (config !! "template_lib"));
         dats ← read np_load (String.append lib (INTERPOL_DAT_NAME HR));
         lib ← pure (item "template_lib" (config !! "template_lib"));
         let savefile := String.append lib (INTERPOL_PKL_NAME HR) in
         fd ← read pickle_load savefile;
         templ_lam ← pure (item "lam" (fd_lam fd));
         vecs ← pure (item "vec" (fd_vec fd));
         mapper ← pure (item "mapper" (fd_mapper fd));
         parnames ← pure (item "parnames" (fd_parnames fd));
         ie ← match fd_triang fd with
              | Some triang =>
                  extraflags ← pure (item "extraflags" (fd_extraflags fd));
                  mret (interper_tri (TriInterp.__init__ triang dats expFlag),
                        extraper_linear triang extraflags)
              | None =>
                  match fd_regular fd with
                  | Some _ =>
                      uvecs ← pure (item "uvecs" (fd_uvecs fd));
                      idgrid ← pure (item "idgrid" (fd_idgrid fd));
                      mret (interper_grid (GridInterp.__init__ uvecs idgrid dats expFlag),
                            extraper_grid (GridOutsideCheck.__init__ uvecs idgrid))
                  | None => pure (Throw (RuntimeError "Unrecognized interpolation file"))
                  end
              end;
         let revision := default "" (fd_revision fd) in
         let creation_soft_version := default "" (fd_git_rev fd) in
         let interpObj :=
           SpecInterpolator.__init__ HR ie.1 ie.2 templ_lam mapper parnames
             revision savefile creation_soft_version in
         _ ← remember HR interpObj;
         mret interpObj) w
    | Some interpObj => (Return interpObj, w)
    end.

Definition getSpecParams `{Files} (setup : string) (config : gmap string string)
    : W (list string) :=
  obj ← getInterpolator setup config true;
  mret (SpecInterpolator.parnames obj).

End spec_inter.

(** ** make_ccf.py *)

(** Python's [max(a, b)]: the second argument only when it is greater. *)
Definition py_max (a b : Q) : Q := if Qle_bool b a then a else b.

Definition Qlt_bool (a b : Q) : bool := negb (Qle_bool b a).

Module make_ccf.

Module CCFConfig.

Record t : Type := {
  logl0 : Q;
  logl1 : Q;
  npoints : Z;
  maxcontpts : Z;
  splinestep : Q
}.

(** [(logl1 - logl0) / self.maxcontpts] divides a float by an integer.  With
    Python floats a zero [maxcontpts] raises [ZeroDivisionError]; with numpy
    scalars it gives [inf], which has no rational counterpart: in both cases
    no configuration with a rational [splinestep] comes out. *)
Definition __init__ `{np.Ufuncs} (logl0 logl1 : Q) (npoints : Z)
    (splinestep : Q) (maxcontpts : Z) : result t :=
  if (maxcontpts =? 0)%Z then Raise ZeroDivisionError
  else
    Ok {| logl0 := logl0;
          logl1 := logl1;
          npoints := npoints;
          maxcontpts := maxcontpts;
          splinestep :=
            py_max splinestep
              (300000 * (np.exp ((logl1 - logl0) / inject_Z maxcontpts) - 1))%Q |}.

End CCFConfig.

(** [mask[ind] = new[ind]] for a boolean vector [ind]. *)
Fixpoint assign_where (ind : list bool) (new old : list Q) : list Q :=
  match ind, new, old with
  | b :: ind', n :: new', o :: old' =>
      (if b then n else o) :: assign_where ind' new' old'
  | _, _, _ => old
  end.

Definition apodize `{np.Ufuncs} (spec : list Q) : list Q :=
  let frac : Q := 15 # 100 in
  let lspec : Q := inject_Z (Z.of_nat (length spec)) in
  let x := map (fun k => (inject_Z k * 1)%Q) (np.arange 0 (Z.of_nat (length spec))) in
  let mask := map (fun xi => (1 + 0 * xi)%Q) x in
  let ind := map (fun xi => Qlt_bool xi (frac * lspec)) x in
  let mask :=
    assign_where ind
      (map (fun xi => ((1 - np.cos (xi / frac / lspec * np.pi)) * (5 # 10))%Q) x)
      mask in
  let ind := map (fun xi => Qlt_bool (- frac * lspec) (xi - lspec + 1)) x in
  let mask :=
    assign_where ind
      (map (fun xi => ((1 - np.cos ((lspec - xi - 1) / frac / lspec * np.pi)) * (5 # 10))%Q) x)
      mask in
  zip_with Qmult mask spec.

(** [int(2**np.ceil(np.log(lspec) / np.log(2)))], computed in binary64
    as the code does: the two logarithms are doubles, their quotient is
    rounded to the nearest double, and the ceiling of a finite double and the
    power of two are exact.  [int] raises [ValueError] on [nan] and
    [OverflowError] on [inf], which is also what [2**e] is from [e = 1024]
    on; a negative exponent gives a power below one, which [int] truncates to
    [0], and [2**(-inf)] is [0.0]. *)
Definition pow2_length `{np.Ufuncs} (lspec : nat) : result Z :=
  let q := (np.log64 (binary64.of_Z (Z.of_nat lspec)) / np.log64 2)%float in
  match Prim2SF q with
  | S754_nan => Raise ValueError
  | S754_infinity false => Raise OverflowError
  | S754_infinity true => Ok 0%Z
  | S754_zero _ | S754_finite _ _ _ =>
      let e := Qceiling (binary64.value q) in
      if (1023 <? e)%Z then Raise OverflowError
      else if (e <? 0)%Z then Ok 0%Z
      else Ok (2 ^ e)%Z
  end.

(** [np.zeros(n)] for a Python integer: a negative dimension is a
    [ValueError]. *)
Definition zeros (n : Z) : result (list Q) :=
  if (n <? 0)%Z then Raise ValueError else Ok (np.zeros (Z.to_nat n)).

(** [np.asarray] of a tuple of one-dimensional arrays, which is what the
    power operator makes of a tuple operand: a two-dimensional array when
    they have one length, [ValueError] (inhomogeneous shape, numpy 1.24 and
    later) otherwise. *)
Definition asarray2d (parts : list (list Q)) : result (list (list Q)) :=
  match parts with
  | [] => Ok []
  | r :: rest =>
      if forallb (fun r' => length r' =? length r) rest then Ok parts
      else Raise ValueError
  end.

(** [int((l1 - lspec) / 2)] truncates the quotient towards zero; the
    quotient is exact for the lengths of arrays, which are far below
    [2**53]. *)
Definition pad `{np.Ufuncs} (x y : list Q) : result (list Q * list Q) :=
  let lspec := Z.of_nat (length y) in
  l1 ← pow2_length (length y);
  let delta1 := ((l1 - lspec) ÷ 2)%Z in
  let delta2 := ((l1 - lspec) - delta1)%Z in
  z1 ← zeros delta1;
  z2 ← zeros delta2;
  let y2 := z1 ++ y ++ z2 in
  x1 ← py_index x 1;
  x0 ← py_index x 0;
  let deltax := (x1 - x0)%Q in
  if np.allclose (np.diff x) deltax then
    xlast ← py_index x (-1);
    let x2 :=
      map (fun k => (inject_Z k * deltax + x0)%Q) (np.arange (- delta1) 0)
      ++ x
      ++ map (fun k => (xlast + deltax * inject_Z (1 + k))%Q) (np.arange 0 delta2) in
    Ok (x2, y2)
  else if np.allclose (np.diff (map np.log x)) (np.log (x1 / x0)) then
    (* the exponent handed to [deltax**] is the whole tuple of three arrays *)
    xlast ← py_index x (-1);
    let exponent :=
      [ map (fun k => (inject_Z k * x0)%Q) (np.arange (- delta1) 0);
        x;
        map (fun k => (xlast * np.power deltax (inject_Z (1 + k)))%Q)
            (np.arange 0 delta2) ] in
    m ← asarray2d exponent;
    Ok (concat (map (map (np.power deltax)) m), y2)
  else Raise Exception'.

(** *** The store of arrays

    [interp_masker] is handed references to arrays that its caller keeps
    using: arrays live in a store, and the function threads the store. *)

Inductive ndarray : Type :=
| floats (v : list Q)
| bools (v : list bool).

Definition M (A : Type) : Type := gmap nat ndarray -> result A * gmap nat ndarray.

#[global] Instance M_ret : MRet M := fun A a h => (Ok a, h).
#[global] Instance M_bind : MBind M :=
  fun A B f m h =>
    match m h with
    | (Ok a, h') => f a h'
    | (Raise e, h') => (Raise e, h')
    end.

Definition lift {A} (r : result A) : M A := fun h => (r, h).

Definition load_floats (l : nat) : M (list Q) :=
  fun h => match h !! l with
           | Some (floats v) => (Ok v, h)
           | _ => (Raise TypeError, h)
           end.

Definition load_bools (l : nat) : M (list bool) :=
  fun h => match h !! l with
           | Some (bools v) => (Ok v, h)
           | _ => (Raise TypeError, h)
           end.

(** A new array, at an address the store does not use. *)
Definition new (a : ndarray) : M nat :=
  fun h => let l := fresh (dom h) in (Ok l, <[l := a]> h).

(** [a[idx] = vals] in place, for an integer index array: the indices are
    checked, then written in order. *)
Definition setitems (l : nat) (idx : list nat) (vals : list Q) : M unit :=
  fun h => match h !! l with
           | Some (floats v) =>
               if forallb (fun i => i <? length v) idx
               then (Ok tt, <[l := floats (foldl (fun acc iv => <[iv.1 := iv.2]> acc) v (zip idx vals))]> h)
               else (Raise IndexError, h)
           | _ => (Raise TypeError, h)
           end.

(** [a[m] = c] in place, for a boolean mask [m] and a scalar [c]. *)
Definition setmask (l : nat) (m : Q -> bool) (c : Q) : M unit :=
  fun h => match h !! l with
           | Some (floats v) =>
               (Ok tt, <[l := floats (map (fun e => if m e then c else e) v)]> h)
           | _ => (Raise TypeError, h)
           end.

(** [a[idx]] for an integer index array. *)
Definition take_at {A} (a : list A) (idx : list Z) : result (list A) :=
  traverse (py_index a) idx.

(** [(-(l1 - l0) * s2 + (l2 - l0) * s1) / (l2 - l1)], element by element. *)
Fixpoint bridge (l0 l1 l2 s1 s2 : list Q) : list Q :=
  match l0, l1, l2, s1, s2 with
  | a0 :: l0', a1 :: l1', a2 :: l2', b1 :: s1', b2 :: s2' =>
      ((- (a1 - a0) * b2 + (a2 - a0) * b1) / (a2 - a1))%Q
      :: bridge l0' l1' l2' s1' s2'
  | _, _, _, _, _ => []
  end.

(** Every rational is a finite number. *)
Definition isfinite (q : Q) : bool := true.

(** The body of [interp_masker] below the line [spec1 = spec * 1]: all its
    assignments go to [spec1]. *)
Definition fill_gaps (lam spec badmask spec1 : nat) : M nat :=
  bm ← load_bools badmask;
  let xbad := np.nonzero bm in
  let xgood := np.nonzero (map negb bm) in
  if length xgood =? 0 then
    let ret := spec1 in
    _ ← setmask ret (fun e => negb (isfinite e)) 1%Q;
    mret ret
  else
    let xpos := map (np.searchsorted_left xgood) xbad in
    let leftedge := map (fun k => k =? 0) xpos in
    let rightedge := map (fun k => k =? length xgood) xpos in
    let mid := zip_with (fun a b => negb a && negb b) leftedge rightedge in
    let below := map (fun k => (Z.of_nat k - 1)%Z) (np.compress mid xpos) in
    let above := map Z.of_nat (np.compress mid xpos) in
    lamv ← load_floats lam;
    ilo ← lift (take_at xgood below);
    l1 ← lift (take_at lamv (map Z.of_nat ilo));
    ihi ← lift (take_at xgood above);
    l2 ← lift (take_at lamv (map Z.of_nat ihi));
    specv ← load_floats spec;
    s1 ← lift (take_at specv (map Z.of_nat ilo));
    s2 ← lift (take_at specv (map Z.of_nat ihi));
    l0 ← lift (take_at lamv (map Z.of_nat (np.compress mid xbad)));
    g0 ← lift (py_index xgood 0);
    sfirst ← lift (py_index specv (Z.of_nat g0));
    _ ← setitems spec1 (np.compress leftedge xbad)
          (replicate (length (np.compress leftedge xbad)) sfirst);
    glast ← lift (py_index xgood (-1));
    slast ← lift (py_index specv (Z.of_nat glast));
    _ ← setitems spec1 (np.compress rightedge xbad)
          (replicate (length (np.compress rightedge xbad)) slast);
    let fill := bridge l0 l1 l2 s1 s2 in
    _ ← setitems spec1 (np.compress mid xbad) fill;
    mret spec1.

Definition interp_masker (lam spec badmask : nat) : M nat :=
  specv ← load_floats spec;
  spec1 ← new (floats (map (fun v => (v * 1)%Q) specv));
  fill_gaps lam spec badmask spec1.

(** *** The residuals of the continuum fit

    The spline of scipy is a parameter: the values at [lam] of the quadratic
    spline through the nodes, or an exception. *)

(** [np.clip(a, lo, hi)]: [minimum(maximum(a, lo), hi)] at every element. *)
Definition clip (a : list Q) (lo hi : Q) : list Q :=
  map (fun v => let m := if Qle_bool lo v then v else lo in
                if Qle_bool m hi then m else hi) a.

(** An arithmetic operation on two one-dimensional arrays: element by
    element for equal lengths, an array of one element is stretched, any
    other pair of lengths is a [ValueError]. *)
Definition broadcast (f : Q -> Q -> Q) (a b : list Q) : result (list Q) :=
  if length a =? length b then Ok (zip_with f a b)
  else match a, b with
       | [x], _ => Ok (map (f x) b)
       | _, [y] => Ok (map (fun x => f x y) a)
       | _, _ => Raise ValueError
       end.

Section continuum.

Context `{np.Ufuncs}.
Variable UnivariateSpline : list Q -> list Q -> list Q -> result (list Q).

Definition fit_resid (p : list Q) (args : list Q * list Q * list Q * list Q)
    (getModel : bool) : result (list Q) :=
  let '(nodes, lam, spec, espec) := args in
  s ← UnivariateSpline nodes p lam;
  let mod' := map np.exp (clip s (-100) 100) in
  if getModel then Ok mod'
  else d ← broadcast Qminus mod' spec; broadcast Qdiv d espec.

End continuum.

(** *** The list of models

    [preprocess_model] convolves, fits a spline continuum and interpolates
    with scipy: it is a parameter here, a function that returns a vector or
    raises.  A task handed to the pool holds what the function gives on its
    arguments, and [get] returns or raises it.  The progress lines that are
    printed are left out. *)

Section model_list.

Variable preprocess_model :
  list Q -> list Q -> list Q -> option Q -> CCFConfig.t -> list Q -> result (list Q).

(** [for a in l: s = body(s, a)] *)
Fixpoint for_each {A S} (l : list A) (body : S -> A -> result S) (s : S) : result S :=
  match l with
  | [] => Ok s
  | a :: l' => s' ← body s a; for_each l' body s'
  end.

Definition enumerate {A} (l : list A) : list (nat * A) := zip (seq 0 (length l)) l.

Definition preprocess_model_list (lammodels : list Q) (models params : list (list Q))
    (ccfconf : CCFConfig.t) (vsinis : option (list (option Q)))
    : result (list (list Q) * list (list Q) * list (option Q)) :=
  logl ← np.linspace (CCFConfig.logl0 ccfconf) (CCFConfig.logl1 ccfconf)
           (CCFConfig.npoints ccfconf);
  let vsinis := match vsinis with None => [None] | Some l => l end in
  st ← for_each (enumerate models)
         (fun st im =>
            for_each vsinis
              (fun st vsini =>
                 let '(retparams, q, vsinisList) := st in
                 p ← py_index params (Z.of_nat im.1);
                 Ok (retparams ++ [p],
                     q ++ [preprocess_model logl lammodels im.2 vsini ccfconf p],
                     vsinisList ++ [vsini]))
              st)
         ([], [], []);
  let '(retparams, q, vsinisList) := st in
  res ← for_each q (fun res curx => c_model ← curx; Ok (res ++ [c_model])) [];
  res ← asarray2d res;
  Ok (res, retparams, vsinisList).

End model_list.

End make_ccf.

(** ** desi_fit.py *)

(** [s.split(sep)] for a separator of one character. *)
Fixpoint split (sep : Ascii.ascii) (s : string) : list string :=
  match s with
  | EmptyString => [EmptyString]
  | String c s' =>
      if Ascii.eqb c sep then EmptyString :: split sep s'
      else match split sep s' with
           | h :: t => String c h :: t
           | [] => [String c EmptyString]
           end
  end.

Module desi_fit.

(** The arguments of one call of [procdesi]: the file, the name of the
    output table, the prefix of the figures. *)
Definition task : Type := string * string * string.

(** What [domany] does to its surroundings: the lines it prints, the tasks
    it hands to the pool, the calls of [procdesi] it makes itself, and
    whether the pool was closed and joined. *)
Record io : Type := {
  stdout : list string;
  submitted : list task;
  called : list task;
  joined : bool
}.

Definition IO (A : Type) : Type := io -> outcome A * io.

#[global] Instance IO_ret : MRet IO := fun A a w => (Return a, w).
#[global] Instance IO_bind : MBind IO :=
  fun A B f m w =>
    match m w with
    | (Return a, w') => f a w'
    | (Throw e, w') => (Throw e, w')
    end.

(** Reading a local variable that may not have been assigned. *)
Definition local {A} (name : string) (v : option A) : IO A :=
  fun w => (match v with Some a => Return a | None => Throw (UnboundLocalError name) end, w).

Definition print (line : string) : IO unit :=
  fun w => (Return tt, {| stdout := stdout w ++ [line]; submitted := submitted w;
                          called := called w; joined := joined w |}).

Section domany.

(** [glob.glob], [os.path.exists], and what a call of [procdesi] comes to
    (it returns nothing, or raises). *)
Variable glob : string -> list string.
Variable path_exists : string -> bool.
Variable procdesi : task -> outcome unit.

(** [pool.apply_async(procdesi, args)]: the handle of the task. *)
Definition apply_async (t : task) : IO task :=
  fun w => (Return t, {| stdout := stdout w; submitted := submitted w ++ [t];
                         called := called w; joined := joined w |}).

(** [r.get()] returns or raises what the task did. *)
Definition get (r : task) : IO unit := fun w => (procdesi r, w).

(** [procdesi(f, ofname, fig_prefix)] in this process. *)
Definition call (t : task) : IO unit :=
  fun w => (procdesi t, {| stdout := stdout w; submitted := submitted w;
                           called := called w ++ [t]; joined := joined w |}).

(** [pool.close(); pool.join()] *)
Definition close_join : IO unit :=
  fun w => (Return tt, {| stdout := stdout w; submitted := submitted w;
                          called := called w; joined := true |}).

(** [for a in l: res = body(res, a)] *)
Fixpoint for_each {A R} (l : list A) (body : R -> A -> IO R) (res : R) : IO R :=
  match l with
  | [] => mret res
  | a :: l' => res' ← body res a; for_each l' body res'
  end.

(** The body of the loop over the files. *)
Definition each_file (parallel : option bool) (oprefix fig_prefix : string)
    (overwrite : bool) (res : list task) (f : string) : IO (list task) :=
  fname ← (fun w => (of_result (py_index (split "/"%char f) (-1)), w));
  let ofname := String.append oprefix (String.append "outtab_" fname) in
  _ ← (if negb overwrite && path_exists ofname
       then print (String.append "skipping, products already exist " f)
       else mret tt);
  par ← local "parallel" parallel;
  if par : bool then
    r ← apply_async (f, ofname, fig_prefix); mret (res ++ [r])
  else
    _ ← call (f, ofname, fig_prefix); mret res.

Definition domany (mask oprefix fig_prefix : string) (nthreads : Z) (overwrite : bool)
    : IO unit :=
  let parallel := if (1 <? nthreads)%Z then Some true else None in
  let fs := glob mask in
  par ← local "parallel" parallel;
  (* [pool = mp.Pool(nthreads)] when [par] holds *)
  res ← for_each fs (each_file parallel oprefix fig_prefix overwrite) [];
  par ← local "parallel" parallel;
  if par : bool then
    _ ← for_each res (fun _ r => get r) tt;
    close_join
  else mret tt.

End domany.

End desi_fit.

(** ** utils.py *)

Module utils.

Unset Elimination Schemes.

(** What [yaml.safe_load] returns: a dictionary (its items in insertion
    order), a list, or any other object. *)
Inductive yaml : Type :=
| scalar (s : string)
| sequence (l : list yaml)
| mapping (items : list (string * yaml)).

(** What [freezeDict] returns: the object it was given, or a [frozendict]. *)
Inductive frozen : Type :=
| same (y : yaml)
| frozendict (items : list (string * frozen)).

Set Elimination Schemes.

(** [d1[k] = v] on the items of a dictionary. *)
Fixpoint setitem {V} (d1 : list (string * V)) (k : string) (v : V) : list (string * V) :=
  match d1 with
  | [] => [(k, v)]
  | (k', v') :: rest =>
      if String.eqb k' k then (k', v) :: rest else (k', v') :: setitem rest k v
  end.

Fixpoint freezeDict (d : yaml) : frozen :=
  match d with
  | mapping items =>
      frozendict (foldl (fun d1 kv => setitem d1 kv.1 (freezeDict kv.2)) [] items)
  | _ => same d
  end.

(** [d[k]] on the items of a dictionary. *)
Fixpoint getitem {V} (items : list (string * V)) (k : string) : option V :=
  match items with
  | [] => None
  | (k', v) :: rest => if String.eqb k' k then Some v else getitem rest k
  end.

End utils.

(** ** Sample data

    A concrete instance of the elementary functions (low-order rational
    approximations) and the two-dimensional grid [[1,2,3] x [10,20,30]] of
    the specification's scenario, on which the statements below are
    exercised. *)

Definition approx : np.Ufuncs :=
  {| np.exp := fun x => (1 + x + x * x * (1 # 2))%Q;
     np.log := fun x => (x - 1)%Q;
     np.cos := fun x => (1 - x * x * (1 # 2))%Q;
     np.pi := 355 # 113;
     np.power := fun a b => (1 + (a - 1) * b)%Q;
     np.log64 := fun x => (x - 1)%float |}.

(** The same functions with a binary64 logarithm that takes, at [2] and at
    [2**29], the values of the correctly rounded logarithm.  These are the
    two logarithms that [pad] computes for a spectrum of [2**29] samples. *)
Definition ieee : np.Ufuncs :=
  {| np.exp := fun x => (1 + x + x * x * (1 # 2))%Q;
     np.log := fun x => (x - 1)%Q;
     np.cos := fun x => (1 - x * x * (1 # 2))%Q;
     np.pi := 355 # 113;
     np.power := fun a b => (1 + (a - 1) * b)%Q;
     np.log64 := fun x =>
       if (x =? 2)%float then binary64.ln2
       else if (x =? 536870912)%float then binary64.ln2_29
       else (x - 1)%float |}.

Module sample.

Definition uvecs : list (list Q) := [[1; 2; 3]; [10; 20; 30]]%Q.

(** The same axes in binary64, and the doubles nearest to [1.01] and to
    [11.3]. *)
Definition uvecs64 : list (list float) := [[1; 2; 3]; [10; 20; 30]]%float.
Definition p64 : list float := [0x1.028f5c28f5c29p+0; 0x1.699999999999ap+3]%float.

(** Row [3 * i + j] of [dats] belongs to the vertex [(i, j)]. *)
Definition idgrid : np.ndarray :=
  {| np.shape := [3; 3]; np.data := [0; 1; 2; 3; 4; 5; 6; 7; 8]%Z |}.

(** The same grid with the template of the vertex [(3, 30)] missing. *)
Definition idgrid_hole : np.ndarray :=
  {| np.shape := [3; 3]; np.data := [0; 1; 2; 3; 4; 5; 6; 7; -1]%Z |}.

Definition dats : list (list Q) :=
  map (fun k => [inject_Z k + 2; 2 * inject_Z k + 3]%Q) [0; 1; 2; 3; 4; 5; 6; 7; 8]%Z.

Definition hull_free : spec_inter.TriInterp.Delaunay :=
  {| spec_inter.TriInterp.ndim := 2;
     spec_inter.TriInterp.find_simplex := fun _ => (-1)%Z;
     spec_inter.TriInterp.transform := [];
     spec_inter.TriInterp.simplices := [] |}.

(** A store with a wavelength array at [0], a spectrum at [1] and two
    masks: a clean one at [2], one with bad pixels at [3]. *)
Definition store : gmap nat make_ccf.ndarray :=
  <[0 := make_ccf.floats [1; 2; 3; 4; 5]%Q]>
    (<[1 := make_ccf.floats [9; 7; 100; 3; 8]%Q]>
       (<[2 := make_ccf.bools [false; false; false; false; false]]>
          (<[3 := make_ccf.bools [false; true; true; false; true]]> ∅))).

End sample.

(** ** Vocabulary of the statements *)

Section vocabulary.

Local Open Scope Q_scope.

(** The coordinate vectors of a regular grid are the sorted unique values
    of each parameter. *)
Definition sorted_axes (uvecs : list (list Q)) : Prop :=
  Forall (StronglySorted Qlt) uvecs.

(** The index grid has one axis per coordinate vector, of the same length. *)
Definition shaped (idgrid : np.ndarray) (uvecs : list (list Q)) : Prop :=
  np.shape idgrid = map length uvecs /\
  length (np.data idgrid) = foldr Nat.mul 1%nat (np.shape idgrid).

(** The bin index that [gridlocs] computes along one sorted axis. *)
Definition bin (u : list Q) (x : Q) : Z :=
  (Z.of_nat (np.searchsorted_right u x) - 1)%Z.

(** On the grid, every entry of [pos] is a bin index that has a right
    neighbour. *)
Definition inner (pos : list Z) (lens : list nat) : Prop :=
  Forall2 (fun k n => (0 <= k < Z.of_nat n - 1)%Z) pos lens.

(** [p] lies outside [[first, last)] along some axis. *)
Definition out_of_bounds (uvecs : list (list Q)) (p : list Q) : Prop :=
  Exists (fun ux => exists a b, head ux.1 = Some a /\ last ux.1 = Some b /\
                                (ux.2 < a \/ b <= ux.2))
         (zip uvecs p).

(** [p] is the grid vertex with the indices [idx]. *)
Definition at_vertex (uvecs : list (list Q)) (idx : list nat) (p : list Q) : Prop :=
  Forall3 (fun u k x => exists v, u !! k = Some v /\ x == v) uvecs idx p.

(** No index of the vertex [idx] is the last one of its axis. *)
Definition below_top (uvecs : list (list Q)) (idx : list nat) : Prop :=
  Forall2 (fun u k => (S k < length u)%nat) uvecs idx.

(** Every corner of the bin [pos] has a template: the index grid holds a
    row number of [dats] there. *)
Definition bin_complete (idgrid : np.ndarray) (dats : list (list Q))
    (pos : list Z) : Prop :=
  exists pos2,
    traverse (spec_inter.GridInterp.corner idgrid pos) (product01 (length pos))
    = Ok pos2 /\
    Forall (fun j => (0 <= j < Z.of_nat (length dats))%Z) pos2.

(** The statement of the specification about vertices, for one
    interpolator and one point: whenever [p] is a vertex whose template is
    present, the interpolator returns that template. *)
Definition returns_template `{np.Ufuncs} (self : spec_inter.GridInterp.t)
    (p : list Q) : Prop :=
  forall idx k row,
    at_vertex (spec_inter.GridInterp.uvecs self) idx p ->
    np.getitem (spec_inter.GridInterp.idgrid self) (map Z.of_nat idx) = Ok k ->
    (0 <= k)%Z ->
    py_index (spec_inter.GridInterp.dats self) k = Ok row ->
    exists spec,
      spec_inter.GridInterp.__call__ self p = Ok (spec_inter.array spec) /\
      Forall2 Qeq spec row.

(** The statement of the specification about the corner weights, for one
    artifact and one point given in binary64: whenever the point is on the
    grid and every corner of its bin has a template, the weights computed for
    it add up to exactly one.  The point is located by its exact value, as
    comparisons do not round. *)
Definition unit_weights64 (uvecs : list (list float)) (idgrid : np.ndarray)
    (dats : list (list Q)) (p : list float) : Prop :=
  forall pos coeffs,
    spec_inter.gridlocs (map (map binary64.value) uvecs) (map binary64.value p) = Ok pos ->
    spec_inter.off_grid pos (map length uvecs) = false ->
    bin_complete idgrid dats pos ->
    spec_inter.GridInterp.fractions64 uvecs p pos = Ok coeffs ->
    np.sum (map binary64.value
              (spec_inter.GridInterp.weights64 coeffs (product01 (length uvecs)))) == 1.

(** The positions [np.arange(lspec) * 1.]. *)
Definition positions (n : nat) : list Q :=
  map (fun k => inject_Z k * 1) (np.arange 0 (Z.of_nat n)).

(** The taper that [apodize] applies to the sample at position [xi] of a
    spectrum of [lspec] samples. *)
Definition taper `{np.Ufuncs} (lspec xi : Q) : Q :=
  let m0 := 1 + 0 * xi in
  let m1 :=
    if Qlt_bool xi ((15 # 100) * lspec)
    then (1 - np.cos (xi / (15 # 100) / lspec * np.pi)) * (5 # 10)
    else m0 in
  if Qlt_bool (- (15 # 100) * lspec) (xi - lspec + 1)
  then (1 - np.cos ((lspec - xi - 1) / (15 # 100) / lspec * np.pi)) * (5 # 10)
  else m1.

(** [m] is the least power of two that is at least [n]. *)
Definition next_pow2 (m n : nat) : Prop :=
  (exists k, m = 2 ^ k)%nat /\ (n <= m)%nat /\
  forall k, (n <= 2 ^ k)%nat -> (m <= 2 ^ k)%nat.

(** All consecutive differences of [l] equal [d]. *)
Definition spaced (d : Q) (l : list Q) : Prop := Forall (Qeq d) (np.diff l).

(** All consecutive ratios of [l] equal [r]. *)
Fixpoint ratios (l : list Q) : list Q :=
  match l with
  | a :: (b :: _) as t => b / a :: ratios t
  | _ => []
  end.
Definition log_spaced (r : Q) (l : list Q) : Prop := Forall (Qeq r) (ratios l).

(** Two stores agree on every address the first one uses. *)
Definition preserved (h h' : gmap nat make_ccf.ndarray) : Prop :=
  forall l a, h !! l = Some a -> h' !! l = Some a.

(** A computation that writes to the store at most at the address [l0]. *)
Definition only_writes {A} (l0 : nat) (m : make_ccf.M A) : Prop :=
  forall h l, l <> l0 -> (m h).2 !! l = h !! l.

End vocabulary.

(** ** Further sample data *)

Module fixtures.

(** A one-dimensional triangulation with the single simplex [[0, 1]], and
    two equal templates. *)
Definition segment : spec_inter.TriInterp.Delaunay :=
  {| spec_inter.TriInterp.ndim := 1;
     spec_inter.TriInterp.find_simplex := fun _ => 0%Z;
     spec_inter.TriInterp.transform := [[[1 # 2]; [1]]]%Q;
     spec_inter.TriInterp.simplices := [[0; 1]]%Z |}.

Definition twins : list (list Q) := [[5; 7]; [5; 7]]%Q.

(** Files of one setup, ["sdss"], under the library ["lib/"]: the templates
    of the sample grid and a regular-grid dictionary; every other path fails
    to load. *)
Definition identity : spec_inter.Mapper := {| spec_inter.forward := fun p => p |}.

Definition regular_fd : spec_inter.fd_t :=
  {| spec_inter.fd_lam := Some [4000; 5000]%Q;
     spec_inter.fd_vec := Some [];
     spec_inter.fd_mapper := Some identity;
     spec_inter.fd_parnames := Some ["teff"; "logg"];
     spec_inter.fd_triang := None;
     spec_inter.fd_extraflags := None;
     spec_inter.fd_regular := Some true;
     spec_inter.fd_uvecs := Some sample.uvecs;
     spec_inter.fd_idgrid := Some sample.idgrid;
     spec_inter.fd_revision := None;
     spec_inter.fd_git_rev := Some "v0" |}.

Definition disk : spec_inter.Files :=
  {| spec_inter.INTERPOL_DAT_NAME := fun HR => String.append "interpdat_" HR;
     spec_inter.INTERPOL_PKL_NAME := fun HR => String.append "interp_" HR;
     spec_inter.np_load := fun path =>
       if String.eqb path "lib/interpdat_sdss" then Return sample.dats
       else Throw (builtin Exception');
     spec_inter.pickle_load := fun path =>
       if String.eqb path "lib/interp_sdss" then Return regular_fd
       else Throw (builtin Exception') |}.

Definition config : gmap string string := {["template_lib" := "lib/"]}.

Definition empty_world : spec_inter.world :=
  {| spec_inter.interps := ∅; spec_inter.reads := [] |}.

Definition no_scipy : spec_inter.Scipy :=
  {| spec_inter.LinearNDInterpolator := fun _ _ _ => spec_inter.nan |}.

(** The interpolator of the setup ["sdss"], and the state after it was
    loaded into an empty cache. *)
Definition sdss : spec_inter.SpecInterpolator.t :=
  spec_inter.SpecInterpolator.__init__ "sdss"
    (spec_inter.interper_grid
       (spec_inter.GridInterp.__init__ sample.uvecs sample.idgrid sample.dats true))
    (spec_inter.extraper_grid
       (spec_inter.GridOutsideCheck.__init__ sample.uvecs sample.idgrid))
    [4000; 5000]%Q identity ["teff"; "logg"] "" "lib/interp_sdss" "v0".

Definition loaded_world : spec_inter.world :=
  {| spec_inter.interps := {["sdss" := sdss]};
     spec_inter.reads := ["lib/interpdat_sdss"; "lib/interp_sdss"] |}.

(** A store with a wavelength array at [0], a spectrum at [1] and a mask at
    [2] that flags the first and the last pixel. *)
Definition edge_store : gmap nat make_ccf.ndarray :=
  <[0 := make_ccf.floats [1; 2; 3; 4]%Q]>
    (<[1 := make_ccf.floats [5; 6; 7; 8]%Q]>
       (<[2 := make_ccf.bools [true; false; false; true]]> ∅)).

(** Elementary functions with a cosine that stays between [-1] and [1] and
    an exponential that grows with its argument. *)
Definition bounded : np.Ufuncs :=
  {| np.exp := fun x => (1 + x)%Q;
     np.log := fun x => (x - 1)%Q;
     np.cos := fun x => ((1 - x * x) / (1 + x * x))%Q;
     np.pi := 355 # 113;
     np.power := fun a b => (1 + (a - 1) * b)%Q;
     np.log64 := fun x => (x - 1)%float |}.

(** A stand-in for [preprocess_model]: the model resampled on the grid is
    the grid itself, scaled by the rotation value. *)
Definition scaled (logl lam m : list Q) (v : option Q) (c : make_ccf.CCFConfig.t)
    (p : list Q) : result (list Q) :=
  Ok (map (fun x => x * default 1 v)%Q logl).

Definition two_points : make_ccf.CCFConfig.t :=
  {| make_ccf.CCFConfig.logl0 := 8; make_ccf.CCFConfig.logl1 := 9;
     make_ccf.CCFConfig.npoints := 2; make_ccf.CCFConfig.maxcontpts := 20;
     make_ccf.CCFConfig.splinestep := 1000 |}.

(** Files of the setup ["hull"]: a dictionary that holds the triangulation
    [segment] and a regular grid as well. *)
Definition both_fd : spec_inter.fd_t :=
  {| spec_inter.fd_lam := Some [4000; 5000]%Q;
     spec_inter.fd_vec := Some [];
     spec_inter.fd_mapper := Some identity;
     spec_inter.fd_parnames := Some ["teff"];
     spec_inter.fd_triang := Some segment;
     spec_inter.fd_extraflags := Some [0; 1]%Q;
     spec_inter.fd_regular := Some true;
     spec_inter.fd_uvecs := Some sample.uvecs;
     spec_inter.fd_idgrid := Some sample.idgrid;
     spec_inter.fd_revision := Some "r1";
     spec_inter.fd_git_rev := None |}.

Definition hull_disk : spec_inter.Files :=
  {| spec_inter.INTERPOL_DAT_NAME := fun HR => String.append "interpdat_" HR;
     spec_inter.INTERPOL_PKL_NAME := fun HR => String.append "interp_" HR;
     spec_inter.np_load := fun path =>
       if String.eqb path "lib/interpdat_hull" then Return twins
       else Throw (builtin Exception');
     spec_inter.pickle_load := fun path =>
       if String.eqb path "lib/interp_hull" then Return both_fd
       else Throw (builtin Exception') |}.

(** Two spectra files, outputs that exist already, and fits that succeed. *)
Definition two_files (mask : string) : list string := ["d/a.fits"; "b.fits"].
Definition all_exist (path : string) : bool := true.
Definition fits_fine (t : desi_fit.task) : outcome unit := Return tt.
Definition quiet : desi_fit.io :=
  {| desi_fit.stdout := []; desi_fit.submitted := []; desi_fit.called := [];
     desi_fit.joined := false |}.

(** A stand-in for the spline: the line through the first two values of [p]
    seen as values at [0] and [1]. *)
Definition line (nodes p lam : list Q) : result (list Q) :=
  match p with
  | a :: b :: _ => Ok (map (fun x => a + (b - a) * x)%Q lam)
  | _ => Raise ValueError
  end.

End fixtures.

(** ** Vocabulary of the further properties *)

Section vocabulary_artifact.

Local Open Scope Q_scope.

(** A well-formed regular-grid artifact: sorted axes, an index grid shaped
    like the axes whose entries are [-1] or row numbers of [dats], and a
    rectangular, non-empty [dats]. *)
Definition well_formed (uvecs : list (list Q)) (idgrid : np.ndarray)
    (dats : list (list Q)) : Prop :=
  sorted_axes uvecs /\
  shaped idgrid uvecs /\
  Forall (fun k => (k < Z.of_nat (length dats))%Z) (np.data idgrid) /\
  dats <> [] /\
  Forall (fun r => length r = spec_inter.ncols dats) dats.


(** The interpolating and the outside function that [getInterpolator]
    builds from the dictionary [fd] and the templates [dats]. *)
Definition built_from (fd : spec_inter.fd_t) (dats : list (list Q))
    (ie : spec_inter.interper_t * spec_inter.extraper_t) : Prop :=
  (exists triang extraflags,
      spec_inter.fd_triang fd = Some triang /\
      spec_inter.fd_extraflags fd = Some extraflags /\
      ie = (spec_inter.interper_tri (spec_inter.TriInterp.__init__ triang dats true),
            spec_inter.extraper_linear triang extraflags))
  \/ (exists r uvecs idgrid,
         spec_inter.fd_triang fd = None /\
         spec_inter.fd_regular fd = Some r /\
         spec_inter.fd_uvecs fd = Some uvecs /\
         spec_inter.fd_idgrid fd = Some idgrid /\
         ie = (spec_inter.interper_grid
                 (spec_inter.GridInterp.__init__ uvecs idgrid dats true),
               spec_inter.extraper_grid
                 (spec_inter.GridOutsideCheck.__init__ uvecs idgrid))).

(** The files of the setup [HR] hold a regular-grid artifact: the template
    array [dats] and a dictionary with the four common keys, no
    triangulation, and the grid [uvecs], [idgrid]. *)
Definition regular_setup `{spec_inter.Files} (HR : string)
    (config : gmap string string) (dats : list (list Q)) (lam : list Q)
    (mapper : spec_inter.Mapper) (parnames : list string)
    (uvecs : list (list Q)) (idgrid : np.ndarray) : Prop :=
  exists lib fd vecs r,
    config !! "template_lib" = Some lib /\
    spec_inter.np_load (String.append lib (spec_inter.INTERPOL_DAT_NAME HR))
    = Return dats /\
    spec_inter.pickle_load (String.append lib (spec_inter.INTERPOL_PKL_NAME HR))
    = Return fd /\
    spec_inter.fd_lam fd = Some lam /\
    spec_inter.fd_vec fd = Some vecs /\
    spec_inter.fd_mapper fd = Some mapper /\
    spec_inter.fd_parnames fd = Some parnames /\
    spec_inter.fd_triang fd = None /\
    spec_inter.fd_regular fd = Some r /\
    spec_inter.fd_uvecs fd = Some uvecs /\
    spec_inter.fd_idgrid fd = Some idgrid.

(** The files of the setup [HR] hold a triangulation artifact: the template
    array [dats] and a dictionary with the four common keys, the
    triangulation and the flags of its vertices; it may hold a regular grid
    as well. *)
Definition triang_setup `{spec_inter.Files} (HR : string)
    (config : gmap string string) (dats : list (list Q)) (lam : list Q)
    (mapper : spec_inter.Mapper) (parnames : list string)
    (triang : spec_inter.TriInterp.Delaunay) (extraflags : list Q) : Prop :=
  exists lib fd vecs,
    config !! "template_lib" = Some lib /\
    spec_inter.np_load (String.append lib (spec_inter.INTERPOL_DAT_NAME HR))
    = Return dats /\
    spec_inter.pickle_load (String.append lib (spec_inter.INTERPOL_PKL_NAME HR))
    = Return fd /\
    spec_inter.fd_lam fd = Some lam /\
    spec_inter.fd_vec fd = Some vecs /\
    spec_inter.fd_mapper fd = Some mapper /\
    spec_inter.fd_parnames fd = Some parnames /\
    spec_inter.fd_triang fd = Some triang /\
    spec_inter.fd_extraflags fd = Some extraflags.

End vocabulary_artifact.

Section vocabulary_masker.

Local Open Scope Q_scope.

(** [a[idx] = vals] on the values of an array: the writes, in order. *)
Definition scatter (v : list Q) (idx : list nat) (vals : list Q) : list Q :=
  foldl (fun acc iv => <[iv.1 := iv.2]> acc) v (zip idx vals).

(** [a] is the closest good pixel to the left of [i]. *)
Definition nearest_below (bm : list bool) (i a : nat) : Prop :=
  (a < i)%nat /\ bm !! a = Some false /\
  forall j, (a < j < i)%nat -> bm !! j = Some true.

(** [b] is the closest good pixel to the right of [i]. *)
Definition nearest_above (bm : list bool) (i b : nat) : Prop :=
  (i < b)%nat /\ bm !! b = Some false /\
  forall j, (i < j < b)%nat -> bm !! j = Some true.

(** The positions of the good neighbours that [interp_masker] looks up for
    the bad pixel [b], among the good pixels [G]. *)
Definition lower (G : list nat) (b : nat) : nat :=
  nth (np.searchsorted_left G b - 1) G 0%nat.
Definition upper (G : list nat) (b : nat) : nat :=
  nth (np.searchsorted_left G b) G 0%nat.

(** The straight line through the two good neighbours, at the pixel [b]. *)
Definition on_line (lv sv : list Q) (G : list nat) (b : nat) : Q :=
  (- (nth (lower G b) lv 0 - nth b lv 0) * nth (upper G b) sv 0
   + (nth (upper G b) lv 0 - nth b lv 0) * nth (lower G b) sv 0)
  / (nth (upper G b) lv 0 - nth (lower G b) lv 0).

Definition is_left (G : list nat) (b : nat) : bool := np.searchsorted_left G b =? 0.
Definition is_right (G : list nat) (b : nat) : bool :=
  np.searchsorted_left G b =? length G.
Definition is_mid (G : list nat) (b : nat) : bool :=
  negb (is_left G b) && negb (is_right G b).

(** The values of the copy after the three assignments of [interp_masker]. *)
Definition filled (lv sv : list Q) (bm : list bool) (v1 : list Q) : list Q :=
  let B := np.nonzero bm in
  let G := np.nonzero (map negb bm) in
  let Lf := np.compress (map (is_left G) B) B in
  let Rt := np.compress (map (is_right G) B) B in
  let Md := np.compress (map (is_mid G) B) B in
  scatter
    (scatter
       (scatter v1 Lf (map (fun _ => nth (nth 0%nat G 0%nat) sv 0) Lf))
       Rt (map (fun _ => nth (nth (length G - 1) G 0%nat) sv 0) Rt))
    Md (map (on_line lv sv G) Md).

End vocabulary_masker.

Section vocabulary_desi.

(** The last component of a path. *)
Definition basename (f : string) : string := default EmptyString (last (split "/"%char f)).

(** The task that [domany] makes of the file [f]. *)
Definition task_of (oprefix fig_prefix f : string) : desi_fit.task :=
  (f, String.append oprefix (String.append "outtab_" (basename f)), fig_prefix).

End vocabulary_desi.

Section vocabulary_config.

Import utils.

(** A dictionary has each key once, and so have the dictionaries that are
    its values. *)
Fixpoint well_keyed (y : yaml) : Prop :=
  match y with
  | mapping items =>
      NoDup (map fst items) /\ foldr (fun kv rest => well_keyed kv.2 /\ rest) True items
  | _ => True
  end.

(** [y[k1][k2]...] through nested dictionaries. *)
Fixpoint at_path (ks : list string) (y : yaml) : option yaml :=
  match ks with
  | [] => Some y
  | k :: ks' =>
      match y with
      | mapping items => y' ← getitem items k; at_path ks' y'
      | _ => None
      end
  end.

(** The same through nested frozen dictionaries. *)
Fixpoint frozen_at_path (ks : list string) (f : frozen) : option frozen :=
  match ks with
  | [] => Some f
  | k :: ks' =>
      match f with
      | frozendict items => f' ← getitem items k; frozen_at_path ks' f'
      | same _ => None
      end
  end.

End vocabulary_config.

Section vocabulary_bounds.

Local Open Scope Q_scope.

(** [p] lies in [[first, last)] along every axis. *)
Definition in_bounds (uvecs : list (list Q)) (p : list Q) : Prop :=
  Forall (fun ux => exists a b, head ux.1 = Some a /\ last ux.1 = Some b /\
                                a <= ux.2 /\ ux.2 < b)
         (zip uvecs p).

End vocabulary_bounds.

(** * Properties *)

(** ** The error monad *)

Lemma traverse_Forall2 {A B} (f : A -> result B) (P : A -> B -> Prop) l :
  Forall (fun a => exists b, f a = Ok b /\ P a b) l ->
  exists bs, traverse f l = Ok bs /\ Forall2 P l bs.
Proof.
  induction 1 as [|a l (b & Hb & HP) _ (bs & Hbs & IH)]; simpl.
  - exists []; split; [reflexivity | constructor].
  - exists (b :: bs). rewrite Hb; simpl. rewrite Hbs; simpl.
    split; [reflexivity | constructor; assumption].
Qed.

Lemma py_index_nat {A} (l : list A) (k : nat) a :
  l !! k = Some a -> py_index l (Z.of_nat k) = Ok a.
Proof.
  intros Hk. unfold py_index.
  destruct (Z.ltb_spec (Z.of_nat k) 0); [lia|].
  destruct (Z.ltb_spec (Z.of_nat k) 0); [lia|].
  rewrite Nat2Z.id, Hk. reflexivity.
Qed.

(** ** Bin location *)

Section digitize.

Local Open Scope Q_scope.
Implicit Types (u : list Q) (x : Q).

Lemma sorted_nondecreasing u : StronglySorted Qlt u -> np.nondecreasing u = true.
Proof.
  induction 1 as [|a l Hl IH Ha]; [reflexivity|].
  destruct l as [|b l]; [reflexivity|].
  change (Qle_bool a b && np.nondecreasing (b :: l) = true).
  rewrite IH, andb_true_r. apply Qle_bool_iff, Qlt_le_weak.
  inversion Ha; assumption.
Qed.

Lemma digitize_sorted x u :
  StronglySorted Qlt u ->
  np.digitize x u = Ok (Z.of_nat (np.searchsorted_right u x)).
Proof.
  intros Hu. unfold np.digitize, np.monotonicity.
  rewrite (sorted_nondecreasing u Hu). reflexivity.
Qed.

Lemma count_le_none x u :
  Forall (Qlt x) u -> np.searchsorted_right u x = 0%nat.
Proof.
  unfold np.searchsorted_right.
  induction 1 as [|a l Ha _ IH]; [reflexivity|]. simpl.
  destruct (Qle_bool a x) eqn:E; [|exact IH].
  apply Qle_bool_iff in E. exfalso. apply (Qlt_irrefl x). eapply Qlt_le_trans; eauto.
Qed.

Lemma count_le_all x u :
  Forall (fun e => e <= x) u -> np.searchsorted_right u x = length u.
Proof.
  unfold np.searchsorted_right.
  induction 1 as [|a l Ha _ IH]; [reflexivity|]. simpl.
  apply Qle_bool_iff in Ha. rewrite Ha, IH. reflexivity.
Qed.

(** At the [k]-th grid value the insertion point is [k + 1]. *)
Lemma count_le_vertex u : forall k v x,
  StronglySorted Qlt u -> u !! k = Some v -> x == v ->
  np.searchsorted_right u x = S k.
Proof.
  unfold np.searchsorted_right.
  induction u as [|a l IH]; intros k v x Hu Hk Hx; [discriminate|].
  inversion Hu as [|? ? Hl Ha]; subst. simpl.
  destruct k as [|k]; simpl in Hk.
  - injection Hk as ->.
    assert (Qle_bool v x = true) as -> by (apply Qle_bool_iff; rewrite Hx; apply Qle_refl).
    f_equal. apply count_le_none.
    eapply Forall_impl; [exact Ha|]. intros e He. simpl in He. rewrite Hx. exact He.
  - assert (a < v) as Hav.
    { rewrite Forall_forall in Ha. apply Ha. eapply list_elem_of_lookup_2; eauto. }
    assert (Qle_bool a x = true) as ->.
    { apply Qle_bool_iff. rewrite Hx. apply Qlt_le_weak; assumption. }
    f_equal. eapply IH; eauto.
Qed.

Lemma sorted_le_last u b :
  StronglySorted Qlt u -> last u = Some b -> Forall (fun e => e <= b) u.
Proof.
  induction 1 as [|a l Hl IH Ha]; intros Hb; [constructor|].
  destruct l as [|c l].
  - injection Hb as ->. repeat constructor. apply Qle_refl.
  - change (last (c :: l) = Some b) in Hb.
    constructor; [|apply IH; assumption].
    apply Qlt_le_weak. rewrite Forall_forall in Ha. apply Ha.
    apply list_elem_of_lookup. exists (length l).
    rewrite <- Hb, last_lookup. reflexivity.
Qed.

End digitize.

Section gridlocs.

Local Open Scope Q_scope.
Import spec_inter.

Lemma gridlocs_sorted uvecs : forall p,
  sorted_axes uvecs -> (length uvecs <= length p)%nat ->
  gridlocs uvecs p = Ok (zip_with bin uvecs p).
Proof.
  induction uvecs as [|u us IH]; intros p Hs Hp; [reflexivity|].
  destruct p as [|x xs]; simpl in Hp; [lia|].
  inversion Hs as [|? ? Hu Hus]; subst. simpl.
  rewrite (digitize_sorted x u Hu). simpl.
  rewrite (IH xs Hus) by lia. reflexivity.
Qed.

Lemma gridlocs_length uvecs : forall p pos,
  gridlocs uvecs p = Ok pos -> length pos = length uvecs.
Proof.
  induction uvecs as [|u us IH]; intros p pos; simpl.
  - intros [= <-]. reflexivity.
  - destruct p as [|x xs]; [discriminate|].
    destruct (np.digitize x u); [|discriminate]. simpl.
    destruct (gridlocs us xs) as [r|] eqn:E; [|discriminate]. simpl.
    intros [= <-]. simpl. f_equal. eauto.
Qed.

Lemma bin_below u x a :
  StronglySorted Qlt u -> head u = Some a -> x < a -> bin u x = (-1)%Z.
Proof.
  intros Hu Ha Hx. unfold bin. rewrite count_le_none; [reflexivity|].
  destruct u as [|c l]; [constructor|]. injection Ha as ->.
  inversion Hu as [|? ? _ Hl]; subst. constructor; [assumption|].
  eapply Forall_impl; [exact Hl|]. intros e He. simpl in He. eapply Qlt_trans; eauto.
Qed.

Lemma bin_above u x b :
  StronglySorted Qlt u -> last u = Some b -> b <= x ->
  bin u x = (Z.of_nat (length u) - 1)%Z.
Proof.
  intros Hu Hb Hx. unfold bin. rewrite count_le_all; [reflexivity|].
  eapply Forall_impl; [exact (sorted_le_last u b Hu Hb)|].
  intros e He. simpl in He. eapply Qle_trans; eauto.
Qed.

Lemma bin_vertex u k v x :
  StronglySorted Qlt u -> u !! k = Some v -> x == v -> bin u x = Z.of_nat k.
Proof.
  intros Hu Hk Hx. unfold bin. rewrite (count_le_vertex u k v x Hu Hk Hx). lia.
Qed.

(** A point out of bounds along some axis fails the test of [__call__]. *)
Lemma off_grid_out_of_bounds uvecs : forall p,
  sorted_axes uvecs -> out_of_bounds uvecs p ->
  off_grid (zip_with bin uvecs p) (map length uvecs) = true.
Proof.
  unfold out_of_bounds, off_grid.
  induction uvecs as [|u us IH]; intros p Hs Hout; simpl in Hout.
  - inversion Hout.
  - destruct p as [|x xs]; [inversion Hout|].
    inversion Hs as [|? ? Hu Hus]; subst. simpl.
    apply Exists_cons in Hout as [(a & b & Ha & Hb & Hx)|Hout]; simpl in *.
    + destruct Hx as [Hx|Hx].
      * rewrite (bin_below u x a Hu Ha Hx). reflexivity.
      * rewrite (bin_above u x b Hu Hb Hx).
        destruct (Z.geb_spec (Z.of_nat (length u) - 1) (Z.of_nat (length u) - 1)); [|lia].
        rewrite orb_true_r. reflexivity.
    + rewrite (IH xs Hus Hout). apply orb_true_r.
Qed.

End gridlocs.

(** ** Indexing inside the grid *)

Section indexing.

Import spec_inter.

Lemma py_index_in_range {A} (l : list A) (k : Z) :
  (0 <= k < Z.of_nat (length l))%Z ->
  exists a, py_index l k = Ok a /\ l !! Z.to_nat k = Some a.
Proof.
  intros Hk. unfold py_index.
  destruct (Z.ltb_spec k 0); [lia|].
  destruct (Z.ltb_spec k 0); [lia|].
  destruct (l !! Z.to_nat k) as [a|] eqn:E; [eauto|].
  apply lookup_ge_None in E. lia.
Qed.

Lemma off_grid_false pos : forall lens,
  length pos = length lens -> off_grid pos lens = false -> inner pos lens.
Proof.
  unfold off_grid, inner.
  induction pos as [|k ks IH]; intros [|n ns] Hlen Hoff;
    try discriminate; [constructor|].
  simpl in Hoff. apply orb_false_elim in Hoff as [Hk Hks].
  apply orb_false_elim in Hk as [Hk1 Hk2].
  constructor; [|apply IH; [simpl in Hlen; lia | exact Hks]].
  apply Z.ltb_ge in Hk1. simpl in Hk2.
  destruct (Z.geb_spec k (Z.of_nat n - 1)); [discriminate | lia].
Qed.

Lemma fractions_total uvecs : forall p pos,
  (length uvecs <= length p)%nat -> inner pos (map length uvecs) ->
  exists cs, GridInterp.fractions uvecs p pos = Ok cs /\ length cs = length uvecs.
Proof.
  induction uvecs as [|u us IH]; intros p pos Hp Hin.
  - exists []. split; reflexivity.
  - destruct p as [|x xs]; simpl in Hp; [lia|].
    inversion Hin as [|k n ks ns Hk Hks]; subst.
    destruct (py_index_in_range u k) as (lo & Hlo & _); [lia|].
    destruct (py_index_in_range u (k + 1)) as (hi & Hhi & _); [lia|].
    destruct (IH xs ks) as (cs & Hcs & Hlen); [lia | assumption |].
    exists (((x - lo) / (hi - lo))%Q :: cs). simpl.
    rewrite Hlo; simpl. rewrite Hhi; simpl. rewrite Hcs; simpl.
    split; [reflexivity | f_equal; exact Hlen].
Qed.

Lemma fractions_length uvecs : forall p pos cs,
  GridInterp.fractions uvecs p pos = Ok cs -> length cs = length uvecs.
Proof.
  induction uvecs as [|u us IH]; intros p pos cs; simpl.
  - intros [= <-]. reflexivity.
  - destruct p as [|x xs]; [discriminate|]. destruct pos as [|k ks]; [discriminate|].
    destruct (py_index u k); [|discriminate]. simpl.
    destruct (py_index u (k + 1)); [|discriminate]. simpl.
    destruct (GridInterp.fractions us xs ks) as [r|] eqn:E; [|discriminate]. simpl.
    intros [= <-]. simpl. f_equal. eauto.
Qed.

(** The corners of the unit hypercube. *)
Lemma product01_spec n curp :
  curp ∈ product01 n ->
  length curp = n /\ Forall (fun e => e = 0%Z \/ e = 1%Z) curp.
Proof.
  revert curp. induction n as [|n IH]; intros curp; simpl.
  - intros ->%list_elem_of_singleton. split; [reflexivity | constructor].
  - intros [H|H]%elem_of_app; apply list_elem_of_fmap in H as (c & -> & Hc);
      destruct (IH c Hc) as [Hl Hf]; simpl; split; auto.
Qed.

Lemma ravel_in_range shp : forall idx acc,
  Forall2 (fun n i => (0 <= i < Z.of_nat n)%Z) shp idx ->
  exists k, np.ravel acc shp idx = Ok k /\
            (acc * foldr Nat.mul 1 shp <= k < (acc + 1) * foldr Nat.mul 1 shp)%nat.
Proof.
  induction shp as [|n shp IH]; intros idx acc Hin.
  - inversion Hin; subst. exists acc. simpl. split; [reflexivity | lia].
  - inversion Hin as [|? i ? idx' Hi Hrest]; subst. simpl.
    unfold np.norm_index.
    destruct (Z.ltb_spec i 0); [lia|].
    destruct (Z.leb_spec 0 i); [|lia].
    destruct (Z.ltb_spec i (Z.of_nat n)); [|lia]. simpl.
    destruct (IH idx' (acc * n + Z.to_nat i)%nat Hrest) as (k & Hk & Hb).
    exists k. split; [exact Hk|]. nia.
Qed.

Lemma getitem_in_range (a : np.ndarray) idx :
  length (np.data a) = foldr Nat.mul 1 (np.shape a) ->
  Forall2 (fun n i => (0 <= i < Z.of_nat n)%Z) (np.shape a) idx ->
  exists v, np.getitem a idx = Ok v /\ v ∈ np.data a.
Proof.
  intros Hsize Hin. unfold np.getitem.
  destruct (ravel_in_range (np.shape a) idx 0 Hin) as (k & -> & Hk). simpl.
  destruct (np.data a !! k) as [v|] eqn:E.
  - exists v. split; [reflexivity|]. eapply list_elem_of_lookup_2; eauto.
  - apply lookup_ge_None in E. lia.
Qed.

Lemma corner_in_range : forall pos lens curp,
  inner pos lens -> length curp = length pos ->
  Forall (fun e => e = 0%Z \/ e = 1%Z) curp ->
  Forall2 (fun n i => (0 <= i < Z.of_nat n)%Z) lens (zip_with Z.add curp pos).
Proof.
  intros pos lens curp Hin. revert curp.
  induction Hin as [|k m ks ms Hk _ IH]; intros [|e curp] Hlen Hc;
    try discriminate; [constructor|].
  inversion Hc as [|? ? He Hc']; subst. simpl.
  constructor; [destruct He; lia|]. apply IH; [simpl in Hlen; lia | assumption].
Qed.

Lemma corner_total uvecs idgrid pos curp :
  shaped idgrid uvecs -> inner pos (map length uvecs) ->
  curp ∈ product01 (length uvecs) ->
  exists v, GridInterp.corner idgrid pos curp = Ok v /\ v ∈ np.data idgrid.
Proof.
  intros [Hshape Hsize] Hin Hc.
  destruct (product01_spec _ _ Hc) as [Hlen H01].
  unfold GridInterp.corner. apply getitem_in_range; [exact Hsize|].
  rewrite Hshape. apply corner_in_range; [exact Hin | | exact H01].
  rewrite Hlen. apply Forall2_length in Hin. rewrite Hin, length_map. reflexivity.
Qed.

End indexing.

(** ** Points outside the interpolation domain *)

Section outside.

Context `{np.Ufuncs}.
Import spec_inter.

Lemma flat_ones uvecs idgrid dats exp :
  dats <> [] ->
  GridInterp.flat (GridInterp.__init__ uvecs idgrid dats exp)
  = Ok (array (np.ones (ncols dats))).
Proof. destruct dats as [|r rows]; [congruence | reflexivity]. Qed.

Lemma gridlocs_needs uvecs : forall p pos,
  gridlocs uvecs p = Ok pos -> (length uvecs <= length p)%nat.
Proof.
  induction uvecs as [|u us IH]; intros p pos; simpl; [lia|].
  destruct p as [|x xs]; [discriminate|].
  destruct (np.digitize x u); [|discriminate]. simpl.
  destruct (gridlocs us xs) as [r|] eqn:E; [|discriminate].
  intros _. apply IH in E. simpl. lia.
Qed.

(** On the grid, [__call__] reads all the corners of the bin. *)
Lemma corners_total uvecs idgrid pos :
  shaped idgrid uvecs -> inner pos (map length uvecs) ->
  exists pos2,
    traverse (GridInterp.corner idgrid pos) (product01 (length uvecs)) = Ok pos2 /\
    Forall2 (fun curp v => GridInterp.corner idgrid pos curp = Ok v /\ v ∈ np.data idgrid)
            (product01 (length uvecs)) pos2.
Proof.
  intros Hshape Hin. apply traverse_Forall2, Forall_forall. intros curp Hc.
  destruct (corner_total uvecs idgrid pos curp Hshape Hin Hc) as (v & Hv & Hd).
  eauto.
Qed.

Lemma call_out_of_bounds uvecs idgrid dats exp p :
  sorted_axes uvecs -> (length uvecs <= length p)%nat -> dats <> [] ->
  out_of_bounds uvecs p ->
  GridInterp.__call__ (GridInterp.__init__ uvecs idgrid dats exp) p
  = Ok (array (np.ones (ncols dats))).
Proof.
  intros Hs Hp Hd Hout. unfold GridInterp.__call__.
  cbn [GridInterp.uvecs GridInterp.lens GridInterp.__init__].
  rewrite (gridlocs_sorted uvecs p Hs Hp). cbn [mbind result_bind].
  rewrite (off_grid_out_of_bounds uvecs p Hs Hout).
  apply flat_ones, Hd.
Qed.

Lemma call_missing_corner uvecs idgrid dats exp p pos curp k :
  shaped idgrid uvecs -> dats <> [] ->
  gridlocs uvecs p = Ok pos ->
  curp ∈ product01 (length uvecs) ->
  GridInterp.corner idgrid pos curp = Ok k -> (k < 0)%Z ->
  GridInterp.__call__ (GridInterp.__init__ uvecs idgrid dats exp) p
  = Ok (array (np.ones (ncols dats))).
Proof.
  intros Hshape Hd Hpos Hc Hk Hneg. unfold GridInterp.__call__.
  cbn [GridInterp.uvecs GridInterp.lens GridInterp.edges GridInterp.idgrid
       GridInterp.__init__].
  rewrite Hpos. cbn [mbind result_bind].
  destruct (off_grid pos (map length uvecs)) eqn:Hoff; [apply flat_ones, Hd|].
  assert (inner pos (map length uvecs)) as Hin.
  { apply off_grid_false; [|exact Hoff].
    rewrite length_map. eapply gridlocs_length; eauto. }
  destruct (fractions_total uvecs p pos) as (cs & -> & _);
    [eapply gridlocs_needs; eauto | exact Hin |].
  cbn [mbind result_bind].
  destruct (corners_total uvecs idgrid pos Hshape Hin) as (pos2 & -> & Hall).
  cbn [mbind result_bind].
  assert (existsb (fun k => (k <? 0)%Z) pos2 = true) as ->; [|apply flat_ones, Hd].
  apply list_elem_of_lookup in Hc as (i & Hi).
  destruct (Forall2_lookup_l _ _ _ _ _ Hall Hi) as (v & Hv & Hcv & _).
  rewrite Hk in Hcv. injection Hcv as <-.
  apply existsb_exists. exists k. split.
  - apply list_elem_of_In. eapply list_elem_of_lookup_2; eauto.
  - apply Z.ltb_lt, Hneg.
Qed.

(** C4.  Outside the interpolation domain the evaluation does not fail: the
    triangulation variant answers [nan] when no simplex encloses the point,
    and the regular-grid variant answers a vector of ones of the spectrum
    length, both when the point is out of bounds along some axis and when
    a corner of its bin has no template. *)
Theorem outside_domain_fallback :
  (forall (tri : TriInterp.t) (p : list Q),
      TriInterp.find_simplex (TriInterp.triang tri) p = (-1)%Z ->
      TriInterp.__call__ tri p = Ok nan) /\
  (forall uvecs idgrid dats exp p,
      sorted_axes uvecs -> (length uvecs <= length p)%nat -> dats <> [] ->
      out_of_bounds uvecs p ->
      GridInterp.__call__ (GridInterp.__init__ uvecs idgrid dats exp) p
      = Ok (array (np.ones (ncols dats)))) /\
  (forall uvecs idgrid dats exp p pos curp k,
      shaped idgrid uvecs -> dats <> [] ->
      gridlocs uvecs p = Ok pos ->
      curp ∈ product01 (length uvecs) ->
      GridInterp.corner idgrid pos curp = Ok k -> (k < 0)%Z ->
      GridInterp.__call__ (GridInterp.__init__ uvecs idgrid dats exp) p
      = Ok (array (np.ones (ncols dats)))).
Proof.
  split; [|split].
  - intros tri p Hx. unfold TriInterp.__call__. rewrite Hx. reflexivity.
  - apply call_out_of_bounds.
  - apply call_missing_corner.
Qed.

(** The outside predicate answers [True] for a point that is out of bounds
    along some axis. *)
Lemma outside_out_of_bounds uvecs idgrid p :
  sorted_axes uvecs -> (length uvecs <= length p)%nat ->
  out_of_bounds uvecs p ->
  GridOutsideCheck.__call__ (GridOutsideCheck.__init__ uvecs idgrid) p = Ok true.
Proof.
  intros Hs Hp Hout. unfold GridOutsideCheck.__call__.
  cbn [GridOutsideCheck.uvecs GridOutsideCheck.lens GridOutsideCheck.__init__].
  rewrite (gridlocs_sorted uvecs p Hs Hp). cbn [mbind result_bind].
  rewrite (off_grid_out_of_bounds uvecs p Hs Hout). reflexivity.
Qed.

(** On the grid the outside predicate does not depend on the point: its
    loop reads the corners of the first bin whatever [pos] is. *)
Lemma outside_same_on_grid uvecs idgrid p q pos pos' :
  gridlocs uvecs p = Ok pos -> gridlocs uvecs q = Ok pos' ->
  off_grid pos (map length uvecs) = false ->
  off_grid pos' (map length uvecs) = false ->
  GridOutsideCheck.__call__ (GridOutsideCheck.__init__ uvecs idgrid) p
  = GridOutsideCheck.__call__ (GridOutsideCheck.__init__ uvecs idgrid) q.
Proof.
  intros Hp Hq Hoff Hoff'. unfold GridOutsideCheck.__call__.
  cbn [GridOutsideCheck.uvecs GridOutsideCheck.lens GridOutsideCheck.__init__].
  rewrite Hp, Hq. cbn [mbind result_bind]. rewrite Hoff, Hoff'. reflexivity.
Qed.

End outside.

(** C2.  On the grid of the scenario with the template of the vertex
    [(3, 30)] missing, the point [(2.5, 25)] lies in the bin [(1, 1)], whose
    corner [(2, 2)] is marked [-1]: the interpolator falls back to the flat
    spectrum there, yet the outside predicate answers [False]. *)
Theorem outside_misses_corner_of_bin :
  spec_inter.gridlocs sample.uvecs [5 # 2; 25]%Q = Ok [1; 1]%Z /\
  spec_inter.GridInterp.corner sample.idgrid_hole [1; 1]%Z [1; 1]%Z = Ok (-1)%Z /\
  spec_inter.GridOutsideCheck.__call__
    (spec_inter.GridOutsideCheck.__init__ sample.uvecs sample.idgrid_hole)
    [5 # 2; 25]%Q = Ok false /\
  @spec_inter.GridInterp.__call__ approx
    (spec_inter.GridInterp.__init__ sample.uvecs sample.idgrid_hole sample.dats true)
    [5 # 2; 25]%Q = Ok (spec_inter.array [1; 1]%Q).
Proof. vm_compute. auto. Qed.

(** ** The multilinear weights *)

Section weights.

Local Open Scope Q_scope.
Import spec_inter.

Lemma sum_app l1 l2 : np.sum (l1 ++ l2) == np.sum l1 + np.sum l2.
Proof.
  induction l1 as [|a l1 IH]; simpl; [ring|]. rewrite IH. ring.
Qed.

Lemma sum_map_scale {A} (c : Q) (f g : A -> Q) l :
  (forall a, g a == c * f a) ->
  np.sum (map g l) == c * np.sum (map f l).
Proof.
  intros Hg. induction l as [|a l IH]; simpl; [ring|]. rewrite IH, Hg. ring.
Qed.

Lemma weights_cons c cs n :
  GridInterp.weights (c :: cs) (product01 (S n))
  = map (fun e => c ^ 0 * (1 - c) ^ 1 * GridInterp.weight cs e) (product01 n)
    ++ map (fun e => c ^ 1 * (1 - c) ^ 0 * GridInterp.weight cs e) (product01 n).
Proof.
  unfold GridInterp.weights. simpl product01.
  rewrite map_app, !map_map. reflexivity.
Qed.

(** The weights of the corners of a hypercube add up to one, whatever the
    fractional coordinates are. *)
Lemma weights_sum coeffs :
  np.sum (GridInterp.weights coeffs (product01 (length coeffs))) == 1.
Proof.
  induction coeffs as [|c cs IH]; [reflexivity|].
  simpl length. rewrite weights_cons, sum_app.
  rewrite (sum_map_scale (1 - c) (GridInterp.weight cs)
             (fun e => c ^ 0 * (1 - c) ^ 1 * GridInterp.weight cs e)).
  2:{ intros e. change (c ^ 0) with 1. change ((1 - c) ^ 1) with (1 - c). ring. }
  rewrite (sum_map_scale c (GridInterp.weight cs)
             (fun e => c ^ 1 * (1 - c) ^ 0 * GridInterp.weight cs e)).
  2:{ intros e. change (c ^ 1) with c. change ((1 - c) ^ 0) with 1. ring. }
  unfold GridInterp.weights in IH. rewrite IH. ring.
Qed.

(** What [__call__] returns for a point on the grid whose bin has all its
    corners: the weighted sum of the corner templates. *)
Lemma call_on_grid `{np.Ufuncs} uvecs idgrid dats exp p pos coeffs pos2 rows :
  let self := GridInterp.__init__ uvecs idgrid dats exp in
  gridlocs uvecs p = Ok pos ->
  off_grid pos (map length uvecs) = false ->
  GridInterp.fractions uvecs p pos = Ok coeffs ->
  traverse (GridInterp.corner idgrid pos) (product01 (length uvecs)) = Ok pos2 ->
  existsb (fun k => (k <? 0)%Z) pos2 = false ->
  traverse (py_index dats) pos2 = Ok rows ->
  GridInterp.__call__ self p
  = Ok (array (let spec := dot (GridInterp.weights coeffs (product01 (length uvecs)))
                               rows (ncols dats) in
               if exp then map np.exp spec else spec)).
Proof.
  intros self Hpos Hoff Hc Hpos2 Hneg Hrows. unfold GridInterp.__call__.
  cbn [self GridInterp.uvecs GridInterp.lens GridInterp.edges GridInterp.idgrid
       GridInterp.dats GridInterp.exp GridInterp.__init__].
  rewrite Hpos. cbn [mbind result_bind]. rewrite Hoff, Hc. cbn [mbind result_bind].
  rewrite Hpos2. cbn [mbind result_bind]. rewrite Hneg, Hrows. reflexivity.
Qed.

End weights.

(** ** Evaluation at a grid vertex *)

Section vertex.

Local Open Scope Q_scope.
Import spec_inter.

Lemma vertex_bins uvecs idx p :
  sorted_axes uvecs -> at_vertex uvecs idx p ->
  zip_with bin uvecs p = map Z.of_nat idx.
Proof.
  intros Hs Hv. induction Hv as [|u k x us ks xs (v & Hk & Hx) _ IH]; [reflexivity|].
  inversion Hs as [|? ? Hu Hus]; subst. simpl.
  rewrite (bin_vertex u k v x Hu Hk Hx), (IH Hus). reflexivity.
Qed.

Lemma vertex_inner uvecs idx :
  below_top uvecs idx -> inner (map Z.of_nat idx) (map length uvecs).
Proof.
  induction 1 as [|u k us ks Hk _ IH]; [constructor|].
  simpl. constructor; [lia | exact IH].
Qed.

Lemma inner_on_grid pos lens : inner pos lens -> off_grid pos lens = false.
Proof.
  unfold off_grid. induction 1 as [|k n ks ns Hk _ IH]; [reflexivity|].
  simpl. rewrite IH, orb_false_r.
  destruct (Z.ltb_spec k 0); [lia|].
  destruct (Z.geb_spec k (Z.of_nat n - 1)); [lia | reflexivity].
Qed.

(** At a vertex every fractional coordinate is zero. *)
Lemma vertex_fractions uvecs idx p :
  at_vertex uvecs idx p -> below_top uvecs idx ->
  exists cs, GridInterp.fractions uvecs p (map Z.of_nat idx) = Ok cs /\
             Forall (Qeq 0) cs.
Proof.
  intros Hv. induction Hv as [|u k x us ks xs (v & Hk & Hx) _ IH]; intros Hb.
  - exists []. split; [reflexivity | constructor].
  - inversion Hb as [|? ? ? ? Hlt Hb']; subst.
    destruct (IH Hb') as (cs & Hcs & H0).
    destruct (py_index_in_range u (Z.of_nat k + 1)) as (hi & Hhi & _); [lia|].
    exists ((x - v) / (hi - v) :: cs). simpl.
    rewrite (py_index_nat u k v Hk); simpl. rewrite Hhi; simpl. rewrite Hcs; simpl.
    split; [reflexivity|]. constructor; [|exact H0].
    unfold Qdiv. rewrite Hx. ring.
Qed.

Lemma product01_length n : length (product01 n) = (2 ^ n)%nat.
Proof.
  induction n as [|n IH]; [reflexivity|].
  simpl product01. rewrite length_app, !length_map, IH. simpl. lia.
Qed.

Lemma product01_head n : exists rest, product01 n = replicate n 0%Z :: rest.
Proof.
  induction n as [|n (rest & IH)]; [exists []; reflexivity|].
  simpl product01. rewrite IH. simpl. eauto.
Qed.

Lemma Forall2_Qeq_trans (l1 l2 l3 : list Q) :
  Forall2 Qeq l1 l2 -> Forall2 Qeq l2 l3 -> Forall2 Qeq l1 l3.
Proof.
  intros H12. revert l3. induction H12 as [|a b l1 l2 Hab _ IH]; intros l3 H23.
  - inversion H23; constructor.
  - inversion H23 as [|? c ? l3' Hbc H23']; subst.
    constructor; [rewrite Hab; exact Hbc | apply IH; exact H23'].
Qed.

Lemma Forall2_Qeq_refl (l : list Q) : Forall2 Qeq l l.
Proof. induction l; constructor; [reflexivity | assumption]. Qed.

(** At a vertex all the weight goes to the first corner, the vertex itself. *)
Lemma vertex_weights cs :
  Forall (Qeq 0) cs ->
  Forall2 Qeq (GridInterp.weights cs (product01 (length cs)))
              (1 :: replicate (2 ^ length cs - 1) 0).
Proof.
  induction 1 as [|c cs Hc _ IH]; [repeat constructor|].
  simpl length. rewrite weights_cons.
  assert (2 ^ length cs <> 0)%nat as Hpos by (apply Nat.pow_nonzero; lia).
  replace (2 ^ S (length cs) - 1)%nat
    with ((2 ^ length cs - 1) + 2 ^ length cs)%nat by (simpl; lia).
  rewrite replicate_add.
  change (1 :: replicate (2 ^ length cs - 1) 0 ++ replicate (2 ^ length cs) 0)
    with ((1 :: replicate (2 ^ length cs - 1) 0) ++ replicate (2 ^ length cs) 0).
  apply Forall2_app.
  - eapply Forall2_Qeq_trans; [|exact IH]. unfold GridInterp.weights.
    apply Forall2_fmap, Forall_Forall2_diag, Forall_forall. intros e _.
    change (c ^ 0) with 1. change ((1 - c) ^ 1) with (1 - c).
    rewrite <- Hc. ring.
  - rewrite <- (product01_length (length cs)).
    generalize (product01 (length cs)). intros E.
    induction E as [|e E IHE]; [constructor|]. simpl. constructor; [|exact IHE].
    change (c ^ 1) with c. rewrite <- Hc. ring.
Qed.

End vertex.

Section vertex_value.

Local Open Scope Q_scope.
Import spec_inter.

Lemma dot_cons w ws r rs nc :
  dot (w :: ws) (r :: rs) nc = zip_with Qplus (map (Qmult w) r) (dot ws rs nc).
Proof. reflexivity. Qed.

Lemma zip_add_zeros w r : forall acc,
  Forall2 Qeq acc (np.zeros (length r)) ->
  Forall2 Qeq (zip_with Qplus (map (Qmult w) r) acc) (map (Qmult w) r).
Proof.
  induction r as [|a r IH]; intros acc Hacc; [constructor|].
  inversion Hacc as [|b ? acc' ? Hb Hacc']; subst. simpl.
  constructor; [rewrite Hb; ring | apply IH; exact Hacc'].
Qed.

Lemma scale_zero w r : 0 == w -> Forall2 Qeq (map (Qmult w) r) (np.zeros (length r)).
Proof.
  intros Hw. induction r as [|a r IH]; [constructor|]. simpl.
  constructor; [rewrite <- Hw; ring | exact IH].
Qed.

Lemma scale_one w r : w == 1 -> Forall2 Qeq (map (Qmult w) r) r.
Proof.
  intros Hw. induction r as [|a r IH]; [constructor|]. simpl.
  constructor; [rewrite Hw; ring | exact IH].
Qed.

(** Corners of weight zero contribute nothing to the weighted sum. *)
Lemma dot_zero nc ws : forall rows,
  Forall (Qeq 0) ws -> Forall (fun r => length r = nc) rows ->
  Forall2 Qeq (dot ws rows nc) (np.zeros nc).
Proof.
  induction ws as [|w ws IH]; intros rows Hws Hrows; [apply Forall2_Qeq_refl|].
  destruct rows as [|r rs]; [apply Forall2_Qeq_refl|].
  inversion Hws as [|? ? Hw Hws']; subst. inversion Hrows as [|? ? Hr Hrs]; subst.
  rewrite dot_cons.
  eapply Forall2_Qeq_trans; [apply zip_add_zeros, IH; assumption|].
  apply scale_zero, Hw.
Qed.

Lemma zeros_weights ws m :
  Forall2 Qeq ws (replicate m 0) -> Forall (Qeq 0) ws.
Proof.
  revert m. induction ws as [|w ws IH]; intros m Hm; [constructor|].
  destruct m as [|m]; inversion Hm; subst.
  constructor; [symmetry; assumption | eauto].
Qed.

Lemma no_negative (l : list Z) :
  Forall (fun j => (0 <= j)%Z) l -> existsb (fun j => (j <? 0)%Z) l = false.
Proof.
  induction 1 as [|j l Hj _ IH]; [reflexivity|]. simpl. rewrite IH, orb_false_r.
  apply Z.ltb_ge, Hj.
Qed.

Lemma py_index_elem {A} (l : list A) (i : Z) a : py_index l i = Ok a -> a ∈ l.
Proof.
  unfold py_index. destruct (_ <? 0)%Z; [discriminate|].
  destruct (l !! _) as [b|] eqn:E; [|discriminate].
  intros [= <-]. eapply list_elem_of_lookup_2; eauto.
Qed.

Lemma add_origin pos : forall n,
  (length pos <= n)%nat -> zip_with Z.add (replicate n 0%Z) pos = pos.
Proof.
  induction pos as [|k ks IH]; intros n Hn; [destruct n; reflexivity|].
  destruct n as [|n]; simpl in Hn; [lia|]. simpl. rewrite IH by lia. reflexivity.
Qed.

End vertex_value.

Section vertex_theorem.

Local Open Scope Q_scope.
Context `{np.Ufuncs}.
Import spec_inter.

(** C1 (amended).  On a grid with sorted axes, at a vertex that is not the
    last one along any axis and whose bin has all its [2^N] corner
    templates, the weight vector of [GridInterp.__call__] is one at the
    vertex and zero at the other corners, and the interpolated vector
    equals the row stored for the vertex; the call returns it as it is, or
    through [np.exp] when the interpolator was built with [exp=True]. *)
Theorem vertex_returns_template uvecs idgrid dats exp idx p k row :
  sorted_axes uvecs ->
  at_vertex uvecs idx p ->
  below_top uvecs idx ->
  bin_complete idgrid dats (map Z.of_nat idx) ->
  Forall (fun r => length r = ncols dats) dats ->
  np.getitem idgrid (map Z.of_nat idx) = Ok k ->
  py_index dats k = Ok row ->
  exists coeffs spec,
    GridInterp.fractions uvecs p (map Z.of_nat idx) = Ok coeffs /\
    Forall2 Qeq (GridInterp.weights coeffs (product01 (length uvecs)))
                (1 :: replicate (2 ^ length uvecs - 1) 0) /\
    GridInterp.__call__ (GridInterp.__init__ uvecs idgrid dats exp) p
    = Ok (array (if exp then map np.exp spec else spec)) /\
    Forall2 Qeq spec row.
Proof.
  intros Hs Hv Hb (pos2 & Hpos2 & Hrange) Hrect Hk Hrow.
  pose proof (Forall3_length_lm _ _ _ _ Hv) as Hlen_idx.
  pose proof (Forall3_length_lr _ _ _ _ Hv) as Hlen_p.
  rewrite length_map, <- Hlen_idx in Hpos2.
  assert (gridlocs uvecs p = Ok (map Z.of_nat idx)) as Hpos.
  { rewrite (gridlocs_sorted uvecs p Hs) by lia. f_equal. apply vertex_bins; assumption. }
  pose proof (inner_on_grid _ _ (vertex_inner uvecs idx Hb)) as Hoff.
  destruct (vertex_fractions uvecs idx p Hv Hb) as (cs & Hcs & H0).
  pose proof (fractions_length _ _ _ _ Hcs) as Hlen_cs.
  pose proof (vertex_weights cs H0) as Hw. rewrite Hlen_cs in Hw.
  destruct (traverse_Forall2 (py_index dats) (fun j r => py_index dats j = Ok r) pos2)
    as (rows & Hrows & Hall).
  { eapply Forall_impl; [exact Hrange|]. intros j Hj. simpl in Hj.
    destruct (py_index_in_range dats j Hj) as (r & Hr & _). eauto. }
  exists cs, (dot (GridInterp.weights cs (product01 (length uvecs))) rows (ncols dats)).
  split; [exact Hcs|]. split; [exact Hw|]. split.
  { apply (call_on_grid uvecs idgrid dats exp p (map Z.of_nat idx) cs pos2 rows);
      try assumption.
    apply no_negative. eapply Forall_impl; [exact Hrange|]. intros j Hj. simpl in Hj. lia. }
  (* the first corner is the vertex itself *)
  destruct (product01_head (length uvecs)) as (rest & Hhead).
  rewrite Hhead in Hpos2, Hw |- *.
  assert (GridInterp.corner idgrid (map Z.of_nat idx) (replicate (length uvecs) 0%Z)
          = Ok k) as Hk0.
  { unfold GridInterp.corner. rewrite add_origin by (rewrite length_map; lia). exact Hk. }
  cbn [traverse] in Hpos2. rewrite Hk0 in Hpos2. cbn [mbind result_bind] in Hpos2.
  destruct (traverse _ rest) as [pos2'|] eqn:Hrest; [|discriminate].
  cbn [mbind result_bind] in Hpos2. injection Hpos2 as <-.
  cbn [traverse] in Hrows. rewrite Hrow in Hrows. cbn [mbind result_bind] in Hrows.
  destruct (traverse (py_index dats) pos2') as [rows'|] eqn:Hrows'; [|discriminate].
  cbn [mbind result_bind] in Hrows. injection Hrows as <-.
  unfold GridInterp.weights in *. simpl map in *.
  inversion Hw as [|w0 ? ws ? Hw0 Hws]; subst.
  rewrite dot_cons.
  assert (length row = ncols dats) as Hnc.
  { rewrite Forall_forall in Hrect. apply Hrect. eapply py_index_elem; eauto. }
  eapply Forall2_Qeq_trans; [|apply scale_one, Hw0].
  apply zip_add_zeros. rewrite Hnc. apply dot_zero.
  - eapply zeros_weights; eauto.
  - inversion Hall as [|? ? ? ? _ Hall']; subst.
    rewrite Forall_forall. intros r Hr.
    apply list_elem_of_lookup in Hr as (i & Hi).
    destruct (Forall2_lookup_r _ _ _ _ _ Hall' Hi) as (j & _ & Hj).
    rewrite Forall_forall in Hrect. apply Hrect. eapply py_index_elem; eauto.
Qed.

End vertex_theorem.

(** ** The scenario of the specification *)

Section scenario.

Local Open Scope Q_scope.
Import spec_inter.

Lemma sample_sorted : sorted_axes sample.uvecs.
Proof. repeat (constructor; try reflexivity). Qed.

Lemma sample_shaped : shaped sample.idgrid_hole sample.uvecs.
Proof. split; reflexivity. Qed.

End scenario.

Lemma vertex_returns_template_witness :
  exists coeffs spec,
    spec_inter.GridInterp.fractions sample.uvecs [2; 20]%Q [1; 1]%Z = Ok coeffs /\
    Forall2 Qeq (spec_inter.GridInterp.weights coeffs (product01 2)) [1; 0; 0; 0]%Q /\
    @spec_inter.GridInterp.__call__ approx
      (spec_inter.GridInterp.__init__ sample.uvecs sample.idgrid sample.dats true)
      [2; 20]%Q
    = Ok (spec_inter.array (map (@np.exp approx) spec)) /\
    Forall2 Qeq spec [6; 11]%Q.
Proof.
  apply (@vertex_returns_template approx sample.uvecs sample.idgrid sample.dats true
           [1; 1]%nat [2; 20]%Q 4%Z [6; 11]%Q).
  - exact sample_sorted.
  - repeat constructor; eexists; (split; [reflexivity|]); reflexivity.
  - repeat constructor.
  - exists [4; 5; 7; 8]%Z. split; [reflexivity|].
    repeat constructor; vm_compute; congruence.
  - repeat constructor.
  - reflexivity.
  - reflexivity.
Defined.

(** C1, as stated, fails at the last vertex of the grid: [(3, 30)] has its
    template (row 8 of [dats]), yet the interpolator answers the flat
    spectrum there. *)
Lemma top_vertex_counterexample :
  ~ @returns_template approx
      (spec_inter.GridInterp.__init__ sample.uvecs sample.idgrid sample.dats false)
      [3; 30]%Q.
Proof.
  intros Hclaim.
  destruct (Hclaim [2; 2]%nat 8%Z [10; 19]%Q) as (spec & Hcall & Heq).
  - repeat constructor; eexists; (split; [reflexivity|]); reflexivity.
  - reflexivity.
  - lia.
  - reflexivity.
  - vm_compute in Hcall. injection Hcall as <-.
    inversion Heq as [|? ? ? ? H1 _]; subst. discriminate H1.
Qed.

Lemma outside_domain_fallback_witness :
  @spec_inter.TriInterp.__call__ approx
    (spec_inter.TriInterp.__init__ sample.hull_free sample.dats true) [0; 20]%Q
  = Ok spec_inter.nan /\
  @spec_inter.GridInterp.__call__ approx
    (spec_inter.GridInterp.__init__ sample.uvecs sample.idgrid sample.dats true)
    [0; 20]%Q
  = Ok (spec_inter.array [1; 1]%Q) /\
  @spec_inter.GridInterp.__call__ approx
    (spec_inter.GridInterp.__init__ sample.uvecs sample.idgrid_hole sample.dats true)
    [5 # 2; 25]%Q
  = Ok (spec_inter.array [1; 1]%Q).
Proof.
  destruct (@outside_domain_fallback approx) as (Htri & Hout & Hmiss).
  split; [apply Htri; reflexivity|]. split.
  - apply (Hout sample.uvecs sample.idgrid sample.dats true [0; 20]%Q).
    + exact sample_sorted.
    + simpl. lia.
    + discriminate.
    + apply Exists_cons_hd. exists 1%Q, 3%Q. simpl.
      split; [reflexivity|]. split; [reflexivity|]. left. reflexivity.
  - apply (Hmiss sample.uvecs sample.idgrid_hole sample.dats true [5 # 2; 25]%Q
             [1; 1]%Z [1; 1]%Z (-1)%Z).
    + exact sample_shaped.
    + discriminate.
    + reflexivity.
    + simpl. set_solver.
    + reflexivity.
    + lia.
Defined.

(** The scenario of the specification: at the vertex [(2, 20)] an
    interpolator built with [exp=False] returns the stored row as it is, and
    [(0, 20)] is out of bounds for the interpolator and for the outside
    predicate. *)
Example scenario_vertex :
  @spec_inter.GridInterp.__call__ approx
    (spec_inter.GridInterp.__init__ sample.uvecs sample.idgrid sample.dats false)
    [2; 20]%Q
  = Ok (spec_inter.array [60000 # 10000; 110000 # 10000]%Q) /\
  py_index sample.dats 4 = Ok [6; 11]%Q.
Proof. vm_compute. auto. Qed.

Example scenario_out_of_bounds :
  @spec_inter.GridInterp.__call__ approx
    (spec_inter.GridInterp.__init__ sample.uvecs sample.idgrid sample.dats true)
    [0; 20]%Q
  = Ok (spec_inter.array [1; 1]%Q) /\
  spec_inter.GridOutsideCheck.__call__
    (spec_inter.GridOutsideCheck.__init__ sample.uvecs sample.idgrid) [0; 20]%Q
  = Ok true.
Proof. vm_compute. auto. Qed.

(** ** The CCF configuration *)

Section ccfconfig.

Local Open Scope Q_scope.
Context `{np.Ufuncs}.
Import make_ccf.



End ccfconfig.


(** ** Apodization *)

Section apodize.

Local Open Scope Q_scope.
Context `{np.Ufuncs}.
Import make_ccf.

Lemma Qlt_bool_iff a b : Qlt_bool a b = true <-> a < b.
Proof.
  unfold Qlt_bool. rewrite negb_true_iff. split.
  - intros E. apply Qnot_le_lt. intros Hle. apply Qle_bool_iff in Hle. congruence.
  - intros Hlt. destruct (Qle_bool b a) eqn:E; [|reflexivity].
    apply Qle_bool_iff in E. exfalso. apply (Qlt_irrefl a). eapply Qlt_le_trans; eauto.
Qed.

Lemma assign_where_map {A} (c : A -> bool) (f g : A -> Q) (x : list A) :
  assign_where (map c x) (map f x) (map g x)
  = map (fun a => if c a then f a else g a) x.
Proof. induction x as [|a x IH]; [reflexivity|]. simpl. rewrite IH. reflexivity. Qed.

Lemma apodize_taper spec :
  apodize spec
  = zip_with Qmult
      (map (taper (inject_Z (Z.of_nat (length spec)))) (positions (length spec)))
      spec.
Proof.
  unfold apodize. cbv zeta. fold (positions (length spec)).
  rewrite !assign_where_map. reflexivity.
Qed.

Lemma positions_length n : length (positions n) = n.
Proof.
  unfold positions, np.arange. rewrite !length_map, length_seq. lia.
Qed.

Lemma positions_lookup n i :
  (i < n)%nat -> positions n !! i = Some (inject_Z (0 + Z.of_nat i) * 1).
Proof.
  intros Hi. unfold positions, np.arange.
  rewrite !list_lookup_fmap, lookup_seq_lt by lia. reflexivity.
Qed.

(** The taper vanishes at the first position. *)
Lemma taper_first (n : nat) x :
  (forall q, q == 0 -> np.cos q == 1) ->
  (0 < n)%nat -> x == 0 -> taper (inject_Z (Z.of_nat n)) x == 0.
Proof.
  intros cos_0 Hn Hx. unfold taper. cbv zeta.
  assert (1 <= inject_Z (Z.of_nat n)) as HL.
  { change 1 with (inject_Z 1). rewrite <- Zle_Qle. lia. }
  set (L := inject_Z (Z.of_nat n)) in *.
  destruct (Qlt_bool (- (15 # 100) * L) (x - L + 1)) eqn:E2.
  - apply Qlt_bool_iff in E2.
    assert (L < 2) as HL2 by lra.
    assert (n = 1%nat) as ->.
    { unfold L in HL2. change 2 with (inject_Z 2) in HL2. rewrite <- Zlt_Qlt in HL2. lia. }
    rewrite cos_0; [ring|].
    unfold L. change (inject_Z (Z.of_nat 1)) with 1. unfold Qdiv. rewrite Hx. ring.
  - destruct (Qlt_bool x ((15 # 100) * L)) eqn:E1.
    + rewrite cos_0; [ring|]. unfold Qdiv. rewrite Hx. ring.
    + exfalso. assert (x < (15 # 100) * L) as Hlt by lra.
      apply Qlt_bool_iff in Hlt. congruence.
Qed.

(** The taper vanishes at the last position. *)
Lemma taper_last (n : nat) x :
  (forall q, q == 0 -> np.cos q == 1) ->
  (0 < n)%nat -> x == inject_Z (Z.of_nat n) - 1 ->
  taper (inject_Z (Z.of_nat n)) x == 0.
Proof.
  intros cos_0 Hn Hx. unfold taper. cbv zeta.
  assert (1 <= inject_Z (Z.of_nat n)) as HL.
  { change 1 with (inject_Z 1). rewrite <- Zle_Qle. lia. }
  set (L := inject_Z (Z.of_nat n)) in *.
  destruct (Qlt_bool (- (15 # 100) * L) (x - L + 1)) eqn:E2.
  - rewrite cos_0; [ring|].
    assert (L - x - 1 == 0) as -> by lra. unfold Qdiv. ring.
  - exfalso. assert (- (15 # 100) * L < x - L + 1) as Hlt by lra.
    apply Qlt_bool_iff in Hlt. congruence.
Qed.

(** C9.  [apodize] keeps the length of the spectrum, and for a non-empty
    spectrum its first and its last output sample are zero, under the one
    assumption that the cosine is one at zero. *)
Theorem apodize_ends (spec : list Q) :
  (forall q, q == 0 -> np.cos q == 1) ->
  length (apodize spec) = length spec /\
  (spec <> [] ->
   exists a b, head (apodize spec) = Some a /\ last (apodize spec) = Some b /\
               a == 0 /\ b == 0).
Proof.
  intros cos_0. rewrite apodize_taper.
  assert (length (zip_with Qmult
                    (map (taper (inject_Z (Z.of_nat (length spec))))
                         (positions (length spec))) spec) = length spec) as Hlen.
  { rewrite length_zip_with, length_map, positions_length. lia. }
  split; [exact Hlen|]. intros Hne.
  assert (0 < length spec)%nat as Hn by (destruct spec; [congruence | simpl; lia]).
  rewrite head_lookup, last_lookup, Hlen, !lookup_zip_with, !list_lookup_fmap.
  rewrite !positions_lookup by lia.
  destruct (spec !! 0%nat) as [s0|] eqn:E0; [|apply lookup_ge_None in E0; lia].
  destruct (spec !! pred (length spec)) as [s1|] eqn:E1;
    [|apply lookup_ge_None in E1; lia].
  simpl. eexists _, _. split; [reflexivity|]. split; [reflexivity|]. split.
  - rewrite taper_first; [ring | exact cos_0 | exact Hn | reflexivity].
  - rewrite taper_last; [ring | exact cos_0 | exact Hn |].
    rewrite Z.add_0_l, Nat2Z.inj_pred by lia. rewrite <- Z.sub_1_r.
    unfold Zminus. rewrite inject_Z_plus, inject_Z_opp. change (inject_Z 1) with 1. ring.
Qed.

End apodize.

Lemma apodize_ends_witness :
  length (@make_ccf.apodize approx [3; 4; 5; 6; 7; 8; 9; 10]%Q) = 8%nat /\
  exists a b,
    head (@make_ccf.apodize approx [3; 4; 5; 6; 7; 8; 9; 10]%Q) = Some a /\
    last (@make_ccf.apodize approx [3; 4; 5; 6; 7; 8; 9; 10]%Q) = Some b /\
    (a == 0)%Q /\ (b == 0)%Q.
Proof.
  destruct (@apodize_ends approx [3; 4; 5; 6; 7; 8; 9; 10]%Q) as [Hlen Hends].
  - intros q Hq. simpl. rewrite Hq. reflexivity.
  - split; [exact Hlen | apply Hends; discriminate].
Defined.

(** ** Padding *)

Section pad_length.

Context `{np.Ufuncs}.
Import make_ccf.

(** A power of two is not three times a number. *)
Lemma pow2_not_triple k : forall n, (2 ^ k)%nat <> (3 * n)%nat.
Proof.
  induction k as [|k IH]; intros n; simpl; [lia|].
  intros Heq. destruct (Nat.Even_or_Odd n) as [[m ->]|[m ->]]; [|lia].
  apply (IH m). lia.
Qed.

(** The computed length is [0] or a power of two. *)
Lemma pow2_length_values n l :
  pow2_length n = Ok l -> l = 0%Z \/ exists e, (0 <= e)%Z /\ l = (2 ^ e)%Z.
Proof.
  unfold pow2_length. cbv zeta.
  set (e := Qceiling _).
  assert ((if (1023 <? e)%Z then Raise OverflowError
           else if (e <? 0)%Z then Ok 0%Z else Ok (2 ^ e)%Z) = Ok l ->
          l = 0%Z \/ exists e, (0 <= e)%Z /\ l = (2 ^ e)%Z) as Hbody.
  { destruct (1023 <? e)%Z; [discriminate|].
    destruct (Z.ltb_spec e 0); intros [= <-]; [left; reflexivity|].
    right. exists e. split; [assumption | reflexivity]. }
  destruct (Prim2SF _) as [s|[|]| |s m ex]; try discriminate; try exact Hbody.
  intros [= <-]. left. reflexivity.
Qed.

Lemma pow2_length_not_triple n l :
  (0 < n)%nat -> pow2_length n = Ok l -> l <> (3 * Z.of_nat n)%Z.
Proof.
  intros Hn Hl. destruct (pow2_length_values n l Hl) as [->|(e & He & ->)]; [lia|].
  intros Heq. apply (pow2_not_triple (Z.to_nat e) n). apply Nat2Z.inj.
  rewrite Nat2Z.inj_pow, Nat2Z.inj_mul, Z2Nat.id by exact He. exact Heq.
Qed.

Lemma zeros_run n : (0 <= n)%Z -> zeros n = Ok (np.zeros (Z.to_nat n)).
Proof. intros Hn. unfold zeros. destruct (Z.ltb_spec n 0); [lia | reflexivity]. Qed.

Lemma zeros_inv n z : zeros n = Ok z -> (0 <= n)%Z /\ z = np.zeros (Z.to_nat n).
Proof.
  unfold zeros. destruct (Z.ltb_spec n 0); [discriminate|]. intros [= <-]. auto.
Qed.

(** The padding is split evenly, the odd sample going to the right; a
    negative difference leaves a negative part. *)
Lemma halves (d : Z) :
  ((0 <= d -> 0 <= d ÷ 2 /\ d ÷ 2 <= d - d ÷ 2 <= d ÷ 2 + 1)
   /\ (d < 0 -> d - d ÷ 2 < 0))%Z.
Proof.
  split; intros Hd.
  - rewrite Z.quot_div_nonneg by lia. pose proof (Z.div_mod d 2).
    pose proof (Z.mod_pos_bound d 2). lia.
  - assert (d ÷ 2 = - ((- d) ÷ 2))%Z as -> by (rewrite Z.quot_opp_l by lia; lia).
    rewrite Z.quot_div_nonneg by lia. pose proof (Z.div_mod (- d) 2).
    pose proof (Z.mod_pos_bound (- d) 2). lia.
Qed.

End pad_length.

Section spacing.

Local Open Scope Q_scope.

Lemma py_index_last {A} (l : list A) :
  l <> [] -> exists a, py_index l (-1) = Ok a /\ last l = Some a.
Proof.
  intros Hl. assert (0 < length l)%nat as Hn by (destruct l; [congruence | simpl; lia]).
  unfold py_index. change (-1 <? 0)%Z with true. cbv iota.
  destruct (Z.ltb_spec (-1 + Z.of_nat (length l)) 0); [lia|].
  rewrite last_lookup.
  replace (Z.to_nat (-1 + Z.of_nat (length l))) with (pred (length l)) by lia.
  destruct (l !! pred (length l)) as [a|] eqn:E; [eauto|].
  apply lookup_ge_None in E. lia.
Qed.

Lemma isclose_eq a b : a == b -> np.isclose a b = true.
Proof.
  intros Hab. unfold np.isclose, np.atol, np.rtol. apply Qle_bool_iff.
  assert (a - b == 0) as -> by lra. change (Qabs 0) with 0.
  pose proof (Qabs_nonneg b). lra.
Qed.

Lemma allclose_spaced l d e : spaced d l -> d == e -> np.allclose (np.diff l) e = true.
Proof.
  unfold spaced, np.allclose. intros Hl Hde.
  induction Hl as [|a t Ha _ IH]; [reflexivity|]. simpl.
  rewrite IH, andb_true_r. apply isclose_eq. rewrite <- Ha. exact Hde.
Qed.

(** A sequence sampled at consecutive integers with constant increments. *)
Lemma spaced_arange (f : Z -> Q) d a b :
  (forall k, d == f (k + 1)%Z - f k) -> spaced d (map f (np.arange a b)).
Proof.
  intros Hf. unfold spaced, np.arange.
  generalize (Z.to_nat (b - a)) as n. generalize 0%nat as s.
  intros s n. revert s. induction n as [|n IH]; intros s; [constructor|].
  destruct n as [|n]; [constructor|].
  specialize (IH (S s)).
  change (Forall (Qeq d)
            (f (a + Z.of_nat (S s))%Z - f (a + Z.of_nat s)%Z
             :: np.diff (map f (map (fun k => (a + Z.of_nat k)%Z) (seq (S s) (S n)))))).
  constructor; [|exact IH].
  replace (a + Z.of_nat (S s))%Z with (a + Z.of_nat s + 1)%Z by lia. apply Hf.
Qed.

Lemma arange_length (f : Z -> Q) a b :
  length (map f (np.arange a b)) = Z.to_nat (b - a).
Proof. unfold np.arange. rewrite !length_map, length_seq. reflexivity. Qed.

End spacing.

Section pad.

Local Open Scope Q_scope.
Context `{np.Ufuncs}.
Import make_ccf.

(** Whatever branch returns, the computed length holds the spectrum, which
    is padded with zeros on both sides. *)
Lemma pad_spectrum x y x2 y2 :
  pad x y = Ok (x2, y2) ->
  exists l1,
    pow2_length (length y) = Ok l1 /\
    let d := (l1 - Z.of_nat (length y))%Z in
    (0 <= d)%Z /\
    y2 = np.zeros (Z.to_nat (d ÷ 2)) ++ y ++ np.zeros (Z.to_nat (d - d ÷ 2)).
Proof.
  unfold pad. cbv zeta.
  destruct (pow2_length (length y)) as [l1|]; [|discriminate]. cbn [mbind result_bind].
  intros Hpad. exists l1. split; [reflexivity|]. revert Hpad.
  set (d := (l1 - Z.of_nat (length y))%Z).
  destruct (zeros (d ÷ 2)) as [z1|] eqn:E1; [|discriminate]. cbn [mbind result_bind].
  destruct (zeros (d - d ÷ 2)) as [z2|] eqn:E2; [|discriminate].
  cbn [mbind result_bind].
  apply zeros_inv in E1 as [_ ->]. apply zeros_inv in E2 as [Hd2 ->].
  assert (0 <= d)%Z as Hd.
  { destruct (Z.lt_ge_cases d 0) as [Hneg|Hpos]; [|exact Hpos].
    pose proof (proj2 (halves d) Hneg). lia. }
  destruct (py_index x 1) as [x1|]; [|discriminate]. cbn [mbind result_bind].
  destruct (py_index x 0) as [x0|]; [|discriminate]. cbn [mbind result_bind].
  destruct (np.allclose (np.diff x) (x1 - x0)).
  - destruct (py_index x (-1)) as [xlast|]; [|discriminate]. cbn [mbind result_bind].
    intros [= _ <-]. split; [exact Hd | reflexivity].
  - destruct (np.allclose _ _); [|discriminate].
    destruct (py_index x (-1)) as [xlast|]; [|discriminate]. cbn [mbind result_bind].
    destruct (asarray2d _) as [m|]; [|discriminate]. cbn [mbind result_bind].
    intros [= _ <-]. split; [exact Hd | reflexivity].
Qed.

(** The length of what [pad] returns is the computed length. *)
Lemma padded_length x y x2 y2 :
  pad x y = Ok (x2, y2) -> pow2_length (length y) = Ok (Z.of_nat (length y2)).
Proof.
  intros Hpad. destruct (pad_spectrum x y x2 y2 Hpad) as (l1 & Hl1 & Hd & ->).
  pose proof (proj1 (halves _) Hd).
  rewrite Hl1. f_equal.
  unfold np.zeros. rewrite !length_app, !length_replicate. lia.
Qed.

(** With as many wavelengths as fluxes, [pad] returns only from its linear
    branch: the three arrays handed to the power in the logarithmic branch
    never have one length. *)
Lemma pad_returns_linear x y r :
  length x = length y -> pad x y = Ok r ->
  exists x1 x0, py_index x 1 = Ok x1 /\ py_index x 0 = Ok x0 /\
                np.allclose (np.diff x) (x1 - x0) = true.
Proof.
  intros Hlen. unfold pad. cbv zeta.
  destruct (pow2_length (length y)) as [l1|] eqn:Hl1; [|discriminate].
  cbn [mbind result_bind].
  set (d := (l1 - Z.of_nat (length y))%Z).
  destruct (zeros (d ÷ 2)) as [z1|] eqn:Z1; [|discriminate]. cbn [mbind result_bind].
  destruct (zeros (d - d ÷ 2)) as [z2|] eqn:Z2; [|discriminate].
  cbn [mbind result_bind].
  apply zeros_inv in Z1 as [Hd1 _]. apply zeros_inv in Z2 as [Hd2 _].
  destruct (py_index x 1) as [x1|] eqn:E1; [|discriminate]. cbn [mbind result_bind].
  destruct (py_index x 0) as [x0|] eqn:E0; [|discriminate]. cbn [mbind result_bind].
  destruct (np.allclose (np.diff x) (x1 - x0)) eqn:Elin; [eauto|].
  destruct (np.allclose (np.diff (map np.log x)) _); [|discriminate].
  destruct (py_index x (-1)) as [xlast|]; [|discriminate]. cbn [mbind result_bind].
  unfold asarray2d.
  destruct (forallb _ _) eqn:Eall; cbn [mbind result_bind]; [|discriminate].
  intros _. exfalso. cbn [forallb] in Eall.
  apply andb_true_iff in Eall as [Ex Eall]. apply andb_true_iff in Eall as [E2 _].
  apply Nat.eqb_eq in Ex, E2. rewrite !arange_length in Ex. rewrite !arange_length in E2.
  assert (0 < length y)%nat as Hn.
  { destruct x; [discriminate E0 | simpl in Hlen; lia]. }
  apply (pow2_length_not_triple (length y) l1 Hn Hl1). subst d. lia.
Qed.

(** What the linear branch returns when the computed length holds the
    spectrum. *)
Lemma pad_linear_value x y x0 x1 l1 :
  pow2_length (length y) = Ok l1 ->
  py_index x 1 = Ok x1 -> py_index x 0 = Ok x0 ->
  np.allclose (np.diff x) (x1 - x0) = true ->
  let d := (l1 - Z.of_nat (length y))%Z in
  (0 <= d)%Z ->
  exists xlast,
    last x = Some xlast /\
    pad x y
    = Ok (map (fun k => inject_Z k * (x1 - x0) + x0) (np.arange (- (d ÷ 2)) 0)
          ++ x
          ++ map (fun k => xlast + (x1 - x0) * inject_Z (1 + k))
                 (np.arange 0 (d - d ÷ 2)),
          np.zeros (Z.to_nat (d ÷ 2)) ++ y ++ np.zeros (Z.to_nat (d - d ÷ 2))).
Proof.
  intros Hl1 H1 H0 Hlin d Hd.
  assert (x <> []) as Hx by (intros ->; discriminate H0).
  destruct (py_index_last x Hx) as (xlast & Hlast & Hlast').
  exists xlast. split; [exact Hlast'|].
  pose proof (proj1 (halves d) Hd) as Hhalf.
  unfold pad. cbv zeta. rewrite Hl1. cbn [mbind result_bind]. fold d.
  rewrite (zeros_run (d ÷ 2)), (zeros_run (d - d ÷ 2)) by lia.
  cbn [mbind result_bind]. rewrite H1, H0. cbn [mbind result_bind].
  rewrite Hlin, Hlast. reflexivity.
Qed.

Lemma pad_input_shape x y r :
  length x = length y -> pad x y = Ok r ->
  exists x0 x1 rest,
    x = x0 :: x1 :: rest /\ py_index x 1 = Ok x1 /\ py_index x 0 = Ok x0 /\
    np.allclose (np.diff x) (x1 - x0) = true.
Proof.
  intros Hlen Hpad.
  destruct (pad_returns_linear x y r Hlen Hpad) as (x1 & x0 & H1 & H0 & Hlin).
  destruct x as [|a [|b rest]]; try discriminate.
  injection H1 as <-. injection H0 as <-. exists a, b, rest. auto.
Qed.

End pad.

(** C3.  The wavelength vector [[1, 2, 4, 8]] has the constant ratio [2]; it
    fails the linear test, and whatever the logarithmic test answers [pad]
    raises an exception instead of returning a padded vector. *)
Theorem pad_log_spacing_raises :
  forall U : np.Ufuncs,
    log_spaced 2 [1; 2; 4; 8]%Q /\
    raises (@make_ccf.pad U [1; 2; 4; 8]%Q [1; 1; 1; 1]%Q).
Proof.
  intros U. split; [repeat constructor|].
  destruct (@make_ccf.pad U [1; 2; 4; 8]%Q [1; 1; 1; 1]%Q) as [r|e] eqn:Hpad;
    [|eexists; reflexivity].
  exfalso.
  destruct (@pad_returns_linear U [1; 2; 4; 8]%Q [1; 1; 1; 1]%Q r eq_refl Hpad)
    as (x1 & x0 & H1 & H0 & Hlin).
  injection H1 as <-. injection H0 as <-. discriminate Hlin.
Qed.

Section pad_rounding.

Local Open Scope Q_scope.
Context `{np.Ufuncs}.
Import make_ccf.

(** With the two correctly rounded logarithms, binary64 division rounds
    their quotient to the double next above [29], and the length computed
    for [2**29] samples is [2**30]. *)
Lemma pow2_length_overshoots :
  np.log64 2 = binary64.ln2 -> np.log64 536870912 = binary64.ln2_29 ->
  pow2_length (2 ^ 29) = Ok (2 ^ 30)%Z.
Proof.
  intros Hl2 Hl29. unfold pow2_length. rewrite Nat2Z.inj_pow.
  change (binary64.of_Z (Z.of_nat 2 ^ Z.of_nat 29)) with 536870912%float.
  rewrite Hl2, Hl29.
  change (binary64.ln2_29 / binary64.ln2)%float with 0x1.d000000000001p+4%float.
  vm_compute. reflexivity.
Qed.

(** At [1024] samples the quotient of the two logarithms rounds to [10],
    and the computed length is the length itself. *)
Lemma pow2_length_1024 :
  np.log64 2 = binary64.ln2 -> np.log64 1024 = binary64.ln2_10 ->
  pow2_length 1024 = Ok 1024%Z.
Proof.
  intros Hl2 Hl10. unfold pow2_length.
  change (binary64.of_Z (Z.of_nat 1024)) with 1024%float.
  rewrite Hl2, Hl10.
  change (binary64.ln2_10 / binary64.ln2)%float with 10%float.
  vm_compute. reflexivity.
Qed.

Lemma arange_lookup (f : Z -> Q) a b i :
  (Z.of_nat i < b - a)%Z -> map f (np.arange a b) !! i = Some (f (a + Z.of_nat i)%Z).
Proof.
  intros Hi. unfold np.arange. rewrite !list_lookup_fmap, lookup_seq_lt by lia.
  reflexivity.
Qed.

End pad_rounding.

(** C5.  A spectrum of [2**29] samples is padded to [2**30] samples, twice
    the least power of two that holds it: when the binary64 logarithm
    returns the correctly rounded values at [2] and at [2**29], [pad]
    returns for every linear wavelength axis of that length, and the padded
    spectrum has [2**30] samples, which is not the least power of two that
    is at least the input length. *)
Theorem pad_overshoots `{np.Ufuncs} (x y : list Q) (x0 x1 : Q) :
  np.log64 2 = binary64.ln2 -> np.log64 536870912 = binary64.ln2_29 ->
  length y = (2 ^ 29)%nat -> length x = length y ->
  x !! 0%nat = Some x0 -> x !! 1%nat = Some x1 ->
  np.allclose (np.diff x) (x1 - x0) = true ->
  exists x2 y2,
    make_ccf.pad x y = Ok (x2, y2) /\
    length y2 = (2 ^ 30)%nat /\
    ~ next_pow2 (length y2) (length y).
Proof.
  intros Hl2 Hl29 Hy Hx H0 H1 Hlin.
  apply (py_index_nat x 0) in H0. apply (py_index_nat x 1) in H1.
  change (Z.of_nat 0) with 0%Z in H0. change (Z.of_nat 1) with 1%Z in H1.
  pose proof (pow2_length_overshoots Hl2 Hl29) as Hpow. rewrite <- Hy in Hpow.
  assert (Z.of_nat (length y) = 2 ^ 29)%Z as Hn.
  { rewrite Hy, Nat2Z.inj_pow. reflexivity. }
  destruct (pad_linear_value x y x0 x1 _ Hpow H1 H0 Hlin) as (xlast & _ & Hval).
  { rewrite Hn. discriminate. }
  pose proof (padded_length _ _ _ _ Hval) as Hlen.
  match type of Hval with _ = Ok (?a, ?b) => exists a, b; set (y2 := b) in * end.
  split; [exact Hval|].
  rewrite Hpow in Hlen. injection Hlen as Hlen.
  assert (length y2 = (2 ^ 30)%nat) as Hy2.
  { apply Nat2Z.inj. rewrite <- Hlen, Nat2Z.inj_pow. reflexivity. }
  split; [exact Hy2|].
  rewrite Hy2, Hy. intros (_ & _ & Hmin).
  specialize (Hmin 29%nat (Nat.le_refl _)).
  pose proof (Nat.pow_lt_mono_r 2 29 30). lia.
Qed.

Lemma pad_overshoots_witness :
  exists x2 y2,
    @make_ccf.pad ieee (map inject_Z (np.arange 0 (Z.of_nat (2 ^ 29))))
                  (replicate (2 ^ 29) 1%Q) = Ok (x2, y2) /\
    length y2 = (2 ^ 30)%nat /\
    ~ next_pow2 (length y2) (length (replicate (2 ^ 29) 1%Q)).
Proof.
  assert (1 < 2 ^ 29)%nat as Hbig by (apply Nat.pow_gt_1; lia).
  apply (@pad_overshoots ieee _ _ (inject_Z (0 + Z.of_nat 0)) (inject_Z (0 + Z.of_nat 1))).
  - reflexivity.
  - reflexivity.
  - apply length_replicate.
  - rewrite arange_length, length_replicate, Z.sub_0_r. apply Nat2Z.id.
  - apply arange_lookup. lia.
  - apply arange_lookup. lia.
  - apply (allclose_spaced _ 1%Q); [|reflexivity].
    apply spaced_arange. intros k. rewrite inject_Z_plus. change (inject_Z 1) with 1%Q.
    ring.
Defined.

(** ** Bad-pixel interpolation and the store *)

Section store.

Import make_ccf.
Implicit Types (h : gmap nat ndarray) (l : nat).

Lemma bind_run {A B} (m : M A) (f : A -> M B) h :
  (m ≫= f) h
  = match m h with
    | (Ok a, h') => f a h'
    | (Raise e, h') => (Raise e, h')
    end.
Proof. reflexivity. Qed.

Lemma only_writes_bind {A B} l0 (m : M A) (f : A -> M B) :
  only_writes l0 m -> (forall a, only_writes l0 (f a)) -> only_writes l0 (m ≫= f).
Proof.
  intros Hm Hf h l Hl. rewrite bind_run. specialize (Hm h l Hl).
  destruct (m h) as [[a|e] h']; simpl in *; [rewrite (Hf a h' l Hl)|]; exact Hm.
Qed.

Lemma only_writes_ret {A} l0 (a : A) : only_writes l0 (mret a).
Proof. intros h l _. reflexivity. Qed.

Lemma only_writes_lift {A} l0 (r : result A) : only_writes l0 (lift r).
Proof. intros h l _. reflexivity. Qed.

Lemma only_writes_load_floats l0 l' : only_writes l0 (load_floats l').
Proof.
  intros h l _. unfold load_floats. destruct (h !! l') as [[v|v]|]; reflexivity.
Qed.

Lemma only_writes_load_bools l0 l' : only_writes l0 (load_bools l').
Proof.
  intros h l _. unfold load_bools. destruct (h !! l') as [[v|v]|]; reflexivity.
Qed.

Lemma only_writes_setitems l0 idx vals : only_writes l0 (setitems l0 idx vals).
Proof.
  intros h l Hl. unfold setitems. destruct (h !! l0) as [[v|v]|]; try reflexivity.
  destruct (forallb _ idx); [|reflexivity]. simpl. apply lookup_insert_ne. congruence.
Qed.

Lemma only_writes_setmask l0 m c : only_writes l0 (setmask l0 m c).
Proof.
  intros h l Hl. unfold setmask. destruct (h !! l0) as [[v|v]|]; try reflexivity.
  simpl. apply lookup_insert_ne. congruence.
Qed.

(** After the copy [spec1] is made, [interp_masker] writes nowhere else. *)
Lemma fill_gaps_writes lam spec badmask spec1 :
  only_writes spec1 (fill_gaps lam spec badmask spec1).
Proof.
  unfold fill_gaps.
  apply only_writes_bind; [apply only_writes_load_bools | intros bm].
  cbv zeta. destruct (length _ =? 0).
  - apply only_writes_bind; [apply only_writes_setmask | intros _].
    apply only_writes_ret.
  - repeat first
      [ apply only_writes_ret
      | apply only_writes_bind;
        [ first [ apply only_writes_lift
                | apply only_writes_load_floats
                | apply only_writes_setitems ]
        | intros ? ] ].
Qed.

Lemma returns_bind {A B} (l0 : B) (m : M A) (f : A -> M B) :
  (forall a h r, (f a h).1 = Ok r -> r = l0) ->
  forall h r, ((m ≫= f) h).1 = Ok r -> r = l0.
Proof.
  intros Hf h r. rewrite bind_run.
  destruct (m h) as [[a|e] h']; [apply Hf | discriminate].
Qed.

(** When it returns, [interp_masker] returns the copy. *)
Lemma fill_gaps_returns lam spec badmask spec1 h r :
  (fill_gaps lam spec badmask spec1 h).1 = Ok r -> r = spec1.
Proof.
  revert h r. unfold fill_gaps.
  apply returns_bind. intros bm. cbv zeta. destruct (length _ =? 0).
  - apply returns_bind. intros _ h r [= <-]. reflexivity.
  - repeat (apply returns_bind; intros ?).
    intros h r [= <-]. reflexivity.
Qed.

Lemma load_floats_store l h : (load_floats l h).2 = h.
Proof. unfold load_floats. destruct (h !! l) as [[v|v]|]; reflexivity. Qed.

(** C10.  Whatever the arrays and the mask are, and whether
    [interp_masker] returns or raises, every array that was in the store
    before the call is in it unchanged after the call; the array that is
    returned is a new one. *)
Theorem interp_masker_frame lam spec badmask h :
  preserved h (interp_masker lam spec badmask h).2 /\
  (forall r, (interp_masker lam spec badmask h).1 = Ok r -> h !! r = None).
Proof.
  unfold interp_masker. rewrite bind_run.
  pose proof (load_floats_store spec h) as Hload.
  destruct (load_floats spec h) as [[specv|e] h0]; simpl in Hload; subst h0.
  2:{ split; [intros l a Hl; exact Hl | discriminate]. }
  rewrite bind_run. unfold new. cbv zeta.
  set (l0 := fresh (dom h)).
  assert (h !! l0 = None) as Hfresh by (apply not_elem_of_dom, is_fresh).
  split.
  - intros l a Hl. rewrite fill_gaps_writes by congruence.
    rewrite lookup_insert_ne by congruence. exact Hl.
  - intros r Hr. apply fill_gaps_returns in Hr. subst r. exact Hfresh.
Qed.

(** *** A spectrum without bad pixels *)

Lemma load_floats_run l h v :
  h !! l = Some (floats v) -> load_floats l h = (Ok v, h).
Proof. intros Hl. unfold load_floats. rewrite Hl. reflexivity. Qed.

Lemma load_bools_run l h v :
  h !! l = Some (bools v) -> load_bools l h = (Ok v, h).
Proof. intros Hl. unfold load_bools. rewrite Hl. reflexivity. Qed.

Lemma setitems_none l h v vals :
  h !! l = Some (floats v) -> setitems l [] vals h = (Ok tt, h).
Proof.
  intros Hl. unfold setitems. rewrite Hl. simpl. rewrite insert_id by exact Hl.
  reflexivity.
Qed.

Lemma setmask_finite l h v c :
  h !! l = Some (floats v) ->
  setmask l (fun e => negb (isfinite e)) c h = (Ok tt, h).
Proof.
  intros Hl. unfold setmask. rewrite Hl. simpl.
  rewrite map_id, insert_id by exact Hl. reflexivity.
Qed.

Lemma nonzero_all_false n : forall i, np.nonzero_from i (replicate n false) = [].
Proof. induction n as [|n IH]; intros i; [reflexivity | apply IH]. Qed.

Lemma nonzero_all_true n : forall i, np.nonzero_from i (replicate n true) = seq i n.
Proof.
  induction n as [|n IH]; intros i; [reflexivity|]. simpl. rewrite IH. reflexivity.
Qed.

Lemma all_false (bm : list bool) :
  Forall (fun b => b = false) bm -> bm = replicate (length bm) false.
Proof. induction 1 as [|b bm -> _ IH]; [reflexivity|]. simpl. f_equal. exact IH. Qed.

Lemma Qmult_one (v : Q) : (v * 1)%Q = v.
Proof.
  destruct v as [n d]. unfold Qmult. simpl. rewrite Z.mul_1_r, Pos.mul_1_r. reflexivity.
Qed.

Lemma copy_same (sv : list Q) : map (fun v => (v * 1)%Q) sv = sv.
Proof. induction sv as [|v sv IH]; [reflexivity|]. simpl. rewrite Qmult_one, IH. reflexivity. Qed.

Lemma run_bind_ok {A B} (m : M A) (f : A -> M B) h a h' :
  m h = (Ok a, h') -> (m ≫= f) h = f a h'.
Proof. intros Hm. rewrite bind_run, Hm. reflexivity. Qed.

Lemma lift_run {A} (r : result A) a h : r = Ok a -> lift r h = (Ok a, h).
Proof. intros ->. reflexivity. Qed.

Lemma py_index_seq_last n : py_index (seq 0 (S n)) (-1) = Ok n.
Proof.
  destruct (py_index_last (seq 0 (S n))) as (a & Ha & Hlast); [discriminate|].
  rewrite Ha. f_equal. rewrite last_lookup, length_seq in Hlast.
  rewrite lookup_seq_lt in Hlast by lia. injection Hlast as <-. reflexivity.
Qed.

(** With a clean mask the body leaves the copy as it is. *)
Lemma fill_gaps_clean lam spec badmask spec1 h lv sv v1 :
  h !! lam = Some (floats lv) ->
  h !! spec = Some (floats sv) ->
  h !! badmask = Some (bools (replicate (length sv) false)) ->
  h !! spec1 = Some (floats v1) ->
  fill_gaps lam spec badmask spec1 h = (Ok spec1, h).
Proof.
  intros Hlam Hspec Hmask Hcopy. unfold fill_gaps.
  rewrite (run_bind_ok _ _ _ _ _ (load_bools_run _ _ _ Hmask)). cbv zeta.
  unfold np.nonzero. rewrite fmap_replicate. simpl negb.
  rewrite nonzero_all_false, nonzero_all_true.
  destruct sv as [|s0 sv].
  - simpl. rewrite (run_bind_ok _ _ _ _ _ (setmask_finite _ _ _ _ Hcopy)). reflexivity.
  - change (length (s0 :: sv)) with (S (length sv)).
    rewrite length_seq. cbn [Nat.eqb map zip_with np.compress length replicate].
    destruct ((s0 :: sv) !! length sv) as [slast|] eqn:Elast.
    2:{ apply lookup_ge_None in Elast. simpl in Elast. lia. }
    rewrite (run_bind_ok _ _ _ _ _ (load_floats_run _ _ _ Hlam)).
    do 4 (erewrite run_bind_ok; [|apply lift_run; reflexivity]).
    rewrite (run_bind_ok _ _ _ _ _ (load_floats_run _ _ _ Hspec)).
    do 5 (erewrite run_bind_ok; [|apply lift_run; reflexivity]).
    rewrite (run_bind_ok _ _ _ _ _ (setitems_none _ _ _ _ Hcopy)).
    erewrite run_bind_ok; [|apply lift_run, py_index_seq_last].
    erewrite run_bind_ok; [|apply lift_run, py_index_nat, Elast].
    rewrite (run_bind_ok _ _ _ _ _ (setitems_none _ _ _ _ Hcopy)).
    rewrite (run_bind_ok _ _ _ _ _ (setitems_none _ _ _ _ Hcopy)).
    reflexivity.
Qed.

(** C7.  When the mask flags no pixel, [interp_masker] returns an array that
    holds the input spectrum, element for element. *)
Theorem interp_masker_clean lam spec badmask h lv sv bm :
  h !! lam = Some (floats lv) ->
  h !! spec = Some (floats sv) ->
  h !! badmask = Some (bools bm) ->
  Forall (fun b => b = false) bm ->
  length bm = length sv ->
  exists r h',
    interp_masker lam spec badmask h = (Ok r, h') /\
    h' !! r = Some (floats sv).
Proof.
  intros Hlam Hspec Hmask Hclean Hlen.
  rewrite (all_false bm Hclean), Hlen in Hmask.
  unfold interp_masker.
  rewrite (run_bind_ok _ _ _ _ _ (load_floats_run _ _ _ Hspec)).
  rewrite bind_run. unfold new. cbv zeta. rewrite copy_same.
  set (l0 := fresh (dom h)).
  assert (h !! l0 = None) as Hfresh by (apply not_elem_of_dom, is_fresh).
  exists l0, (<[l0 := floats sv]> h). split; [|apply lookup_insert_eq].
  apply (fill_gaps_clean lam spec badmask l0 _ lv sv sv).
  - rewrite lookup_insert_ne by congruence. exact Hlam.
  - rewrite lookup_insert_ne by congruence. exact Hspec.
  - rewrite lookup_insert_ne by congruence. exact Hmask.
  - apply lookup_insert_eq.
Qed.

End store.

Lemma interp_masker_clean_witness :
  exists r h',
    make_ccf.interp_masker 0 1 2 sample.store = (Ok r, h') /\
    h' !! r = Some (make_ccf.floats [9; 7; 100; 3; 8]%Q).
Proof.
  apply (interp_masker_clean 0 1 2 sample.store [1; 2; 3; 4; 5]%Q [9; 7; 100; 3; 8]%Q
           [false; false; false; false; false]).
  - reflexivity.
  - reflexivity.
  - reflexivity.
  - repeat constructor.
  - reflexivity.
Defined.

Lemma interp_masker_frame_witness :
  (make_ccf.interp_masker 0 1 3 sample.store).1 = Ok 4%nat /\
  (make_ccf.interp_masker 0 1 3 sample.store).2 !! 1%nat
  = Some (make_ccf.floats [9; 7; 100; 3; 8]%Q) /\
  sample.store !! 4%nat = None.
Proof.
  destruct (interp_masker_frame 0 1 3 sample.store) as [Hkeep Hnew].
  split; [vm_compute; reflexivity|]. split.
  - apply (Hkeep 1%nat). reflexivity.
  - apply (Hnew 4%nat). vm_compute. reflexivity.
Defined.

(** The all-bad case: the copy is returned, and the spectrum stays. *)
Example interp_masker_all_bad :
  let h := <[2%nat := make_ccf.bools [true; true; true; true; true]]> sample.store in
  (make_ccf.interp_masker 0 1 2 h).1 = Ok 4%nat /\
  (make_ccf.interp_masker 0 1 2 h).2 !! 4%nat = Some (make_ccf.floats [9; 7; 100; 3; 8]%Q) /\
  (make_ccf.interp_masker 0 1 2 h).2 !! 1%nat = Some (make_ccf.floats [9; 7; 100; 3; 8]%Q).
Proof. vm_compute. auto. Qed.

(** Bad pixels between good ones are bridged linearly, those beyond the last
    good one take its value. *)
Example interp_masker_bridges :
  (make_ccf.interp_masker 0 1 3 sample.store).2 !! 4%nat
  = Some (make_ccf.floats [9; 21 # 3; 15 # 3; 3; 3]%Q).
Proof. vm_compute. reflexivity. Qed.

(** * Further properties of the regular-grid interpolator *)

Section grid_total.

Local Open Scope Q_scope.
Context `{np.Ufuncs}.
Import spec_inter.

Lemma some_negative (l : list Z) :
  existsb (fun j => (j <? 0)%Z) l = false -> Forall (fun j => (0 <= j)%Z) l.
Proof.
  induction l as [|j l IH]; [constructor|]. simpl.
  intros [Hj Hl]%orb_false_elim. constructor; [apply Z.ltb_ge, Hj | apply IH, Hl].
Qed.

Lemma dot_length n : forall ws rows,
  Forall (fun r => length r = n) rows -> length (dot ws rows n) = n.
Proof.
  induction ws as [|w ws IH]; intros rows Hrows.
  - unfold dot. simpl. apply length_replicate.
  - destruct rows as [|r rs]; [apply length_replicate|].
    apply Forall_cons in Hrows as [Hr Hrs]. rewrite dot_cons.
    rewrite length_zip_with, length_map, (IH rs Hrs), Hr. lia.
Qed.

Lemma rows_of_dats (dats : list (list Q)) pos2 :
  Forall (fun j => (0 <= j < Z.of_nat (length dats))%Z) pos2 ->
  exists rows, traverse (py_index dats) pos2 = Ok rows /\
               length rows = length pos2 /\ Forall (fun r => r ∈ dats) rows.
Proof.
  induction 1 as [|j pos2 Hj _ (rows & Hrows & Hlen & Hin)].
  - exists []. repeat split. constructor.
  - destruct (py_index_in_range dats j Hj) as (r & Hr & _).
    exists (r :: rows). simpl. rewrite Hr; simpl. rewrite Hrows; simpl.
    repeat split; [f_equal; exact Hlen|].
    constructor; [eapply py_index_elem; eauto | exact Hin].
Qed.

(** What [__call__] does with a point of a well-formed artifact: the flat
    spectrum, or the weighted sum of the corner templates of its bin. *)
Lemma call_cases uvecs idgrid dats exp p :
  well_formed uvecs idgrid dats -> (length uvecs <= length p)%nat ->
  GridInterp.__call__ (GridInterp.__init__ uvecs idgrid dats exp) p
  = Ok (array (np.ones (ncols dats)))
  \/ exists coeffs rows,
       GridInterp.fractions uvecs p (zip_with bin uvecs p) = Ok coeffs /\
       inner (zip_with bin uvecs p) (map length uvecs) /\
       length rows = length (product01 (length uvecs)) /\
       Forall (fun r => r ∈ dats) rows /\
       GridInterp.__call__ (GridInterp.__init__ uvecs idgrid dats exp) p
       = Ok (array (let spec := dot (GridInterp.weights coeffs (product01 (length uvecs)))
                                    rows (ncols dats) in
                    if exp then map np.exp spec else spec)).
Proof.
  intros (Hs & Hshape & Hrange & Hd & Hrect) Hp.
  pose proof (gridlocs_sorted uvecs p Hs Hp) as Hpos.
  set (pos := zip_with bin uvecs p) in *.
  destruct (off_grid pos (map length uvecs)) eqn:Hoff.
  { left. unfold GridInterp.__call__.
    cbn [GridInterp.uvecs GridInterp.lens GridInterp.__init__].
    rewrite Hpos. cbn [mbind result_bind]. rewrite Hoff. apply flat_ones, Hd. }
  assert (inner pos (map length uvecs)) as Hin.
  { apply off_grid_false; [|exact Hoff].
    rewrite length_map. eapply gridlocs_length; eauto. }
  destruct (fractions_total uvecs p pos Hp Hin) as (cs & Hcs & _).
  destruct (corners_total uvecs idgrid pos Hshape Hin) as (pos2 & Hpos2 & Hall).
  destruct (existsb (fun k => (k <? 0)%Z) pos2) eqn:Hneg.
  { left. unfold GridInterp.__call__.
    cbn [GridInterp.uvecs GridInterp.lens GridInterp.edges GridInterp.idgrid
         GridInterp.__init__].
    rewrite Hpos. cbn [mbind result_bind]. rewrite Hoff, Hcs. cbn [mbind result_bind].
    rewrite Hpos2. cbn [mbind result_bind]. rewrite Hneg. apply flat_ones, Hd. }
  destruct (rows_of_dats dats pos2) as (rows & Hrows & Hlen & Hmem).
  { pose proof (some_negative pos2 Hneg) as Hnn.
    rewrite Forall_forall in Hnn, Hrange |- *. intros j Hj. split; [apply Hnn, Hj|].
    apply list_elem_of_lookup in Hj as (i & Hi).
    destruct (Forall2_lookup_r _ _ _ _ _ Hall Hi) as (curp & _ & _ & Hdata).
    apply Hrange, Hdata. }
  right. exists cs, rows. split; [exact Hcs|]. split; [exact Hin|]. split.
  { rewrite Hlen. symmetry. eapply Forall2_length; eauto. }
  split; [exact Hmem|].
  apply (call_on_grid uvecs idgrid dats exp p pos cs pos2 rows); assumption.
Qed.

(** X1.  On a well-formed regular-grid artifact, [GridInterp.__call__]
    never raises, whatever the point is (given one coordinate per axis), and
    what it returns always has the length of a template, [len(dats[0])]. *)
Theorem grid_call_total uvecs idgrid dats exp p :
  well_formed uvecs idgrid dats -> (length uvecs <= length p)%nat ->
  exists spec,
    GridInterp.__call__ (GridInterp.__init__ uvecs idgrid dats exp) p
    = Ok (array spec) /\
    length spec = ncols dats.
Proof.
  intros Hwf Hp.
  destruct (call_cases uvecs idgrid dats exp p Hwf Hp)
    as [Hflat|(cs & rows & _ & _ & _ & Hmem & Hcall)].
  - eexists. split; [exact Hflat|]. apply length_replicate.
  - eexists. split; [exact Hcall|]. cbv zeta.
    assert (length (dot (GridInterp.weights cs (product01 (length uvecs))) rows
                        (ncols dats)) = ncols dats) as Hlen.
    { apply dot_length. destruct Hwf as (_ & _ & _ & _ & Hrect).
      rewrite Forall_forall in Hrect, Hmem |- *. intros r Hr. apply Hrect, Hmem, Hr. }
    destruct exp; [rewrite length_map|]; exact Hlen.
Qed.

End grid_total.

Section grid_bounds.

Local Open Scope Q_scope.
Context `{np.Ufuncs}.
Import spec_inter.

Lemma count_le_lower u : forall x k lo,
  StronglySorted Qlt u -> np.searchsorted_right u x = S k ->
  u !! k = Some lo -> lo <= x.
Proof.
  unfold np.searchsorted_right.
  induction u as [|a l IH]; intros x k lo Hu Hc Hk; [discriminate|].
  inversion Hu as [|? ? Hl Ha]; subst. simpl in Hc.
  destruct (Qle_bool a x) eqn:E.
  - apply Qle_bool_iff in E. destruct k as [|k]; simpl in Hk.
    + injection Hk as <-. exact E.
    + injection Hc as Hc. eapply IH; eauto.
  - exfalso. assert (x < a) as Hxa.
    { apply Qnot_le_lt. intros Hle. apply Qle_bool_iff in Hle. congruence. }
    pose proof (count_le_none x l) as Hnone. unfold np.searchsorted_right in Hnone.
    rewrite Hnone in Hc; [discriminate|].
    eapply Forall_impl; [exact Ha|]. intros e He. simpl in He. eapply Qlt_trans; eauto.
Qed.

Lemma count_le_upper u : forall x hi,
  StronglySorted Qlt u -> u !! np.searchsorted_right u x = Some hi -> x < hi.
Proof.
  unfold np.searchsorted_right.
  induction u as [|a l IH]; intros x hi Hu Hk; [discriminate|].
  inversion Hu as [|? ? Hl Ha]; subst. simpl in Hk.
  destruct (Qle_bool a x) eqn:E.
  - simpl in Hk. eapply IH; eauto.
  - assert (x < a) as Hxa.
    { apply Qnot_le_lt. intros Hle. apply Qle_bool_iff in Hle. congruence. }
    pose proof (count_le_none x l) as Hnone. unfold np.searchsorted_right in Hnone.
    rewrite Hnone in Hk.
    + injection Hk as <-. exact Hxa.
    + eapply Forall_impl; [exact Ha|]. intros e He. simpl in He. eapply Qlt_trans; eauto.
Qed.

Lemma py_index_lookup {A} (l : list A) (k : Z) a :
  (0 <= k)%Z -> py_index l k = Ok a -> l !! Z.to_nat k = Some a.
Proof.
  intros Hk. unfold py_index.
  destruct (Z.ltb_spec k 0); [lia|]. destruct (Z.ltb_spec k 0); [lia|].
  destruct (l !! Z.to_nat k); [|discriminate]. intros [= <-]. reflexivity.
Qed.

(** Inside its bin, a point has fractional coordinates in [[0, 1)]. *)
Lemma fractions_unit uvecs : forall p cs,
  sorted_axes uvecs ->
  inner (zip_with bin uvecs p) (map length uvecs) ->
  GridInterp.fractions uvecs p (zip_with bin uvecs p) = Ok cs ->
  Forall (fun c => 0 <= c < 1) cs.
Proof.
  induction uvecs as [|u us IH]; intros p cs Hs Hin.
  - simpl. intros [= <-]. constructor.
  - destruct p as [|x xs]; [simpl; discriminate|].
    inversion Hs as [|? ? Hu Hus]; subst.
    simpl in Hin. inversion Hin as [|k n ks ns Hk Hks]; subst. simpl.
    destruct (py_index u (bin u x)) as [lo|] eqn:Elo; [|discriminate]. simpl.
    destruct (py_index u (bin u x + 1)) as [hi|] eqn:Ehi; [|discriminate]. simpl.
    destruct (GridInterp.fractions us xs (zip_with bin us xs)) as [cs'|] eqn:E;
      [|discriminate]. simpl.
    intros [= <-]. constructor; [|eapply IH; eauto].
    apply py_index_lookup in Elo; [|lia]. apply py_index_lookup in Ehi; [|lia].
    unfold bin in *.
    assert (lo <= x) as Hlo.
    { eapply (count_le_lower u x (Z.to_nat (Z.of_nat (np.searchsorted_right u x) - 1)));
        [exact Hu | lia | exact Elo]. }
    assert (x < hi) as Hhi.
    { apply (count_le_upper u x hi Hu).
      rewrite <- Ehi. f_equal. lia. }
    split.
    + apply Qle_shift_div_l; lra.
    + apply Qlt_shift_div_r; lra.
Qed.

Lemma weight_step c cs e curp :
  GridInterp.weight (c :: cs) (e :: curp)
  = c ^ e * (1 - c) ^ (1 - e) * GridInterp.weight cs curp.
Proof. reflexivity. Qed.

(** The weight of a corner is not negative. *)
Lemma weight_nonneg cs : forall curp,
  Forall (fun c => 0 <= c < 1) cs -> Forall (fun e => e = 0%Z \/ e = 1%Z) curp ->
  0 <= GridInterp.weight cs curp.
Proof.
  induction cs as [|c cs IH]; intros curp Hcs Hcurp; [discriminate|].
  destruct curp as [|e curp]; [discriminate|].
  apply Forall_cons in Hcs as [Hc Hcs]. apply Forall_cons in Hcurp as [He Hcurp].
  rewrite weight_step. specialize (IH curp Hcs Hcurp).
  apply Qmult_le_0_compat; [|exact IH].
  destruct He as [-> | ->].
  - change (c ^ 0) with 1. change ((1 - c) ^ (1 - 0)) with (1 - c). lra.
  - change (c ^ 1) with c. change ((1 - c) ^ (1 - 1)) with 1. lra.
Qed.

End grid_bounds.

Section grid_weights.

Local Open Scope Q_scope.
Context `{np.Ufuncs}.
Import spec_inter.

(** The weight of a corner is at most one. *)
Lemma weight_le_one cs : forall curp,
  Forall (fun c => 0 <= c < 1) cs -> Forall (fun e => e = 0%Z \/ e = 1%Z) curp ->
  GridInterp.weight cs curp <= 1.
Proof.
  induction cs as [|c cs IH]; intros curp Hcs Hcurp; [discriminate|].
  destruct curp as [|e curp]; [discriminate|].
  apply Forall_cons in Hcs as [Hc Hcs]. apply Forall_cons in Hcurp as [He Hcurp].
  rewrite weight_step. specialize (IH curp Hcs Hcurp).
  pose proof (weight_nonneg cs curp Hcs Hcurp) as Hw.
  destruct He as [-> | ->].
  - change (c ^ 0) with 1. change ((1 - c) ^ (1 - 0)) with (1 - c). nra.
  - change (c ^ 1) with c. change ((1 - c) ^ (1 - 1)) with 1. nra.
Qed.

Lemma none_negative (l : list Z) :
  Forall (fun j => (0 <= j)%Z) l -> existsb (fun j => (j <? 0)%Z) l = false.
Proof.
  induction 1 as [|j l Hj _ IH]; [reflexivity|]. simpl. rewrite IH, orb_false_r.
  apply Z.ltb_ge, Hj.
Qed.

(** X2.  The fractional coordinates that [GridInterp.__call__] computes for
    a point on a grid with sorted axes run from 0 to 1, as the comment in
    the code says, and so does every one of the [2^N] corner weights. *)
Theorem grid_weights_bounded uvecs p pos :
  sorted_axes uvecs -> gridlocs uvecs p = Ok pos ->
  off_grid pos (map length uvecs) = false ->
  exists coeffs,
    GridInterp.fractions uvecs p pos = Ok coeffs /\
    Forall (fun c => 0 <= c <= 1) coeffs /\
    Forall (fun w => 0 <= w <= 1) (GridInterp.weights coeffs (product01 (length uvecs))).
Proof.
  intros Hs Hpos Hoff.
  pose proof (gridlocs_needs uvecs p pos Hpos) as Hp.
  rewrite (gridlocs_sorted uvecs p Hs Hp) in Hpos. injection Hpos as <-.
  assert (inner (zip_with bin uvecs p) (map length uvecs)) as Hin.
  { apply off_grid_false; [|exact Hoff].
    rewrite length_map. eapply gridlocs_length. apply gridlocs_sorted; eauto. }
  destruct (fractions_total uvecs p _ Hp Hin) as (cs & Hcs & _).
  pose proof (fractions_unit uvecs p cs Hs Hin Hcs) as Hunit.
  exists cs. split; [exact Hcs|]. split.
  - eapply Forall_impl; [exact Hunit|]. intros c Hc. simpl in Hc. lra.
  - unfold GridInterp.weights. rewrite Forall_fmap, Forall_forall. intros curp Hc.
    destruct (product01_spec _ _ Hc) as [_ Hbits]. simpl. split.
    + apply weight_nonneg; assumption.
    + apply weight_le_one; assumption.
Qed.

(** C8.  For a point on the grid whose bin has all its corner templates,
    [GridInterp.__call__] returns the sum of the [2^N] corner templates
    weighted by the products, over the dimensions, of the fractional
    distance or its complement; in exact arithmetic these [2^N] weights add
    up to one. *)
Theorem call_weights_unit uvecs idgrid dats exp p pos :
  let self := GridInterp.__init__ uvecs idgrid dats exp in
  gridlocs (GridInterp.uvecs self) p = Ok pos ->
  off_grid pos (GridInterp.lens self) = false ->
  bin_complete (GridInterp.idgrid self) (GridInterp.dats self) pos ->
  exists coeffs rows,
    GridInterp.fractions (GridInterp.uvecs self) p pos = Ok coeffs /\
    GridInterp.__call__ self p
    = Ok (array (let spec := dot (GridInterp.weights coeffs (GridInterp.edges self))
                                 rows (ncols dats) in
                 if exp then map np.exp spec else spec)) /\
    length (GridInterp.weights coeffs (GridInterp.edges self))
    = (2 ^ GridInterp.ndim self)%nat /\
    np.sum (GridInterp.weights coeffs (GridInterp.edges self)) == 1.
Proof.
  intros self.
  cbn [self GridInterp.uvecs GridInterp.lens GridInterp.edges GridInterp.idgrid
       GridInterp.dats GridInterp.ndim GridInterp.__init__].
  intros Hpos Hoff (pos2 & Hpos2 & Hrange).
  pose proof (gridlocs_needs uvecs p pos Hpos) as Hp.
  pose proof (gridlocs_length uvecs p pos Hpos) as Hlen.
  assert (inner pos (map length uvecs)) as Hin.
  { apply off_grid_false; [rewrite length_map; exact Hlen | exact Hoff]. }
  destruct (fractions_total uvecs p pos Hp Hin) as (cs & Hcs & Hlcs).
  rewrite Hlen in Hpos2.
  destruct (rows_of_dats dats pos2 Hrange) as (rows & Hrows & _ & _).
  exists cs, rows. split; [exact Hcs|]. split.
  { apply (call_on_grid uvecs idgrid dats exp p pos cs pos2 rows); try assumption.
    apply none_negative. eapply Forall_impl; [exact Hrange|]. intros j Hj. simpl in Hj. lia. }
  split.
  - unfold GridInterp.weights. rewrite length_map. apply product01_length.
  - rewrite <- Hlcs. apply weights_sum.
Qed.

End grid_weights.

(** In binary64 the four weights of the point [(1.01, 11.3)] on the sample
    grid add up to less than one, as exact numbers and also when they are
    added in binary64, in the order of the corners. *)
Lemma weights64_sample :
  spec_inter.GridInterp.fractions64 sample.uvecs64 sample.p64 [0; 0]%Z
  = Ok [0x1.47ae147ae148p-7; 0x1.0a3d70a3d70a6p-3]%float /\
  fold_left PrimFloat.add
    (spec_inter.GridInterp.weights64 [0x1.47ae147ae148p-7; 0x1.0a3d70a3d70a6p-3]%float
       (product01 2)) 0%float
  = 0x1.fffffffffffffp-1%float.
Proof. split; reflexivity. Qed.

Lemma weights64_sum_counterexample :
  ~ unit_weights64 sample.uvecs64 sample.idgrid sample.dats sample.p64.
Proof.
  intros Hclaim.
  specialize (Hclaim [0; 0]%Z [0x1.47ae147ae148p-7; 0x1.0a3d70a3d70a6p-3]%float).
  assert (bin_complete sample.idgrid sample.dats [0; 0]%Z) as Hbin.
  { exists [0; 1; 3; 4]%Z. split; [reflexivity|].
    repeat constructor; vm_compute; congruence. }
  specialize (Hclaim ltac:(vm_compute; reflexivity) eq_refl Hbin eq_refl).
  vm_compute in Hclaim. discriminate Hclaim.
Qed.

Section outside_check.

Local Open Scope Q_scope.
Import spec_inter.

Lemma first_bin_in_range : forall pos lens curp,
  inner pos lens -> length curp = length pos ->
  Forall (fun e => e = 0%Z \/ e = 1%Z) curp ->
  Forall2 (fun n i => (0 <= i < Z.of_nat n)%Z) lens curp.
Proof.
  intros pos lens curp Hin. revert curp.
  induction Hin as [|k m ks ms Hk _ IH]; intros [|e curp] Hlen Hc;
    try discriminate; [constructor|].
  apply Forall_cons in Hc as [He Hc].
  constructor; [destruct He; lia|]. apply IH; [simpl in Hlen; lia | assumption].
Qed.

Lemma any_missing_total idgrid edges :
  Forall (fun curp => exists v, np.getitem idgrid curp = Ok v) edges ->
  exists b, GridOutsideCheck.any_missing idgrid edges = Ok b.
Proof.
  induction 1 as [|curp edges (v & Hv) _ (b & Hb)]; simpl; [eauto|].
  rewrite Hv. simpl. destruct (v =? -1)%Z; eauto.
Qed.

(** X3.  On an artifact with sorted axes and an index grid shaped like them,
    the outside predicate never raises, and it answers [True] for every
    point that is out of bounds along some axis. *)
Theorem outside_total uvecs idgrid p :
  sorted_axes uvecs -> shaped idgrid uvecs -> (length uvecs <= length p)%nat ->
  exists b,
    GridOutsideCheck.__call__ (GridOutsideCheck.__init__ uvecs idgrid) p = Ok b /\
    (out_of_bounds uvecs p -> b = true).
Proof.
  intros Hs [Hshape Hsize] Hp. unfold GridOutsideCheck.__call__.
  cbn [GridOutsideCheck.uvecs GridOutsideCheck.lens GridOutsideCheck.edges
       GridOutsideCheck.idgrid GridOutsideCheck.__init__].
  pose proof (gridlocs_sorted uvecs p Hs Hp) as Hpos. rewrite Hpos.
  cbn [mbind result_bind].
  destruct (off_grid (zip_with bin uvecs p) (map length uvecs)) eqn:Hoff; [eauto|].
  assert (inner (zip_with bin uvecs p) (map length uvecs)) as Hin.
  { apply off_grid_false; [|exact Hoff].
    rewrite length_map. eapply gridlocs_length; eauto. }
  destruct (any_missing_total idgrid (product01 (length uvecs))) as (b & Hb).
  { apply Forall_forall. intros curp Hc.
    destruct (product01_spec _ _ Hc) as [Hlen H01].
    destruct (getitem_in_range idgrid curp Hsize) as (v & Hv & _); [|eauto].
    rewrite Hshape. eapply first_bin_in_range; [exact Hin | | exact H01].
    rewrite Hlen. apply Forall2_length in Hin. rewrite Hin, length_map. reflexivity. }
  exists b. split; [exact Hb|]. intros Hout.
  rewrite (off_grid_out_of_bounds uvecs p Hs Hout) in Hoff. discriminate.
Qed.

End outside_check.

Lemma outside_total_witness :
  exists b,
    spec_inter.GridOutsideCheck.__call__
      (spec_inter.GridOutsideCheck.__init__ sample.uvecs sample.idgrid_hole)
      [2; 35]%Q = Ok b /\
    b = true.
Proof.
  destruct (outside_total sample.uvecs sample.idgrid_hole [2; 35]%Q)
    as (b & Hb & Htrue).
  - exact sample_sorted.
  - exact sample_shaped.
  - simpl. lia.
  - exists b. split; [exact Hb|]. apply Htrue.
    apply Exists_cons_tl, Exists_cons_hd. exists 10%Q, 30%Q. simpl.
    split; [reflexivity|]. split; [reflexivity|]. right. discriminate.
Defined.

(** * Further properties of the triangulation interpolator *)

Section tri_total.

Local Open Scope Q_scope.
Context `{np.Ufuncs}.
Import spec_inter.


End tri_total.

Lemma sample_well_formed : well_formed sample.uvecs sample.idgrid_hole sample.dats.
Proof.
  split; [exact sample_sorted|]. split; [exact sample_shaped|].
  split; [repeat constructor|]. split; [discriminate | repeat constructor].
Qed.

Lemma grid_call_total_witness :
  exists spec,
    @spec_inter.GridInterp.__call__ approx
      (spec_inter.GridInterp.__init__ sample.uvecs sample.idgrid_hole sample.dats true)
      [3 # 2; 12]%Q
    = Ok (spec_inter.array spec) /\
    length spec = 2%nat.
Proof.
  apply (@grid_call_total approx sample.uvecs sample.idgrid_hole sample.dats true
           [3 # 2; 12]%Q).
  - exact sample_well_formed.
  - simpl. lia.
Defined.

Lemma grid_weights_bounded_witness :
  exists coeffs,
    spec_inter.GridInterp.fractions sample.uvecs [3 # 2; 12]%Q [0; 0]%Z = Ok coeffs /\
    Forall (fun c => 0 <= c <= 1)%Q coeffs /\
    Forall (fun w => 0 <= w <= 1)%Q
           (spec_inter.GridInterp.weights coeffs (product01 (length sample.uvecs))).
Proof.
  apply (@grid_weights_bounded sample.uvecs [3 # 2; 12]%Q [0; 0]%Z).
  - repeat constructor.
  - reflexivity.
  - reflexivity.
Defined.

Lemma call_weights_unit_witness :
  exists coeffs rows,
    spec_inter.GridInterp.fractions sample.uvecs [5 # 2; 25]%Q [1; 1]%Z = Ok coeffs /\
    @spec_inter.GridInterp.__call__ approx
      (spec_inter.GridInterp.__init__ sample.uvecs sample.idgrid sample.dats false)
      [5 # 2; 25]%Q
    = Ok (spec_inter.array
            (spec_inter.dot (spec_inter.GridInterp.weights coeffs (product01 2)) rows 2)) /\
    length (spec_inter.GridInterp.weights coeffs (product01 2)) = 4%nat /\
    (np.sum (spec_inter.GridInterp.weights coeffs (product01 2)) == 1)%Q.
Proof.
  apply (@call_weights_unit approx sample.uvecs sample.idgrid sample.dats false
           [5 # 2; 25]%Q [1; 1]%Z).
  - reflexivity.
  - reflexivity.
  - exists [4; 5; 7; 8]%Z. split; [reflexivity|].
    repeat constructor; vm_compute; congruence.
Defined.


(** * The interpolator cache *)

Section cache.

Context `{spec_inter.Files}.
Import spec_inter.

Lemma W_bind_run {A B} (m : W A) (f : A -> W B) w :
  (m ≫= f) w
  = match m w with
    | (Return a, w') => f a w'
    | (Throw e, w') => (Throw e, w')
    end.
Proof. reflexivity. Qed.

Lemma getInterpolator_hit HR config b w o :
  interps w !! HR = Some o -> getInterpolator HR config b w = (Return o, w).
Proof. intros Hhit. unfold getInterpolator. rewrite Hhit. reflexivity. Qed.

(** A call that finds nothing in the cache and returns has read the two
    files of the setup, found the four common keys and one of the two kinds
    of artifact, and has stored what it returns. *)
Lemma getInterpolator_miss HR config b w o w' :
  interps w !! HR = None ->
  getInterpolator HR config b w = (Return o, w') ->
  exists lib dats fd templ_lam vecs mapper parnames ie,
    config !! "template_lib" = Some lib /\
    np_load (String.append lib (INTERPOL_DAT_NAME HR)) = Return dats /\
    pickle_load (String.append lib (INTERPOL_PKL_NAME HR)) = Return fd /\
    fd_lam fd = Some templ_lam /\ fd_vec fd = Some vecs /\
    fd_mapper fd = Some mapper /\ fd_parnames fd = Some parnames /\
    built_from fd dats ie /\
    o = SpecInterpolator.__init__ HR ie.1 ie.2 templ_lam mapper parnames
          (default "" (fd_revision fd))
          (String.append lib (INTERPOL_PKL_NAME HR))
          (default "" (fd_git_rev fd)) /\
    w' = {| interps := <[HR := o]> (interps w);
            reads := (reads w ++ [String.append lib (INTERPOL_DAT_NAME HR)])
                     ++ [String.append lib (INTERPOL_PKL_NAME HR)] |}.
Proof.
  intros Hmiss. unfold getInterpolator. rewrite Hmiss. cbv zeta.
  rewrite W_bind_run. unfold pure at 1.
  destruct (config !! "template_lib") as [lib|] eqn:Elib; [|discriminate].
  cbn [item]. rewrite W_bind_run. unfold read at 1.
  destruct (np_load _) as [dats|] eqn:Edats; [|discriminate].
  rewrite W_bind_run. unfold pure at 1. cbn [item].
  rewrite W_bind_run. unfold read at 1.
  destruct (pickle_load _) as [fd|] eqn:Efd; [|discriminate].
  rewrite W_bind_run. unfold pure at 1.
  destruct (fd_lam fd) as [templ_lam|] eqn:Elam; [|discriminate]. cbn [item].
  rewrite W_bind_run. unfold pure at 1.
  destruct (fd_vec fd) as [vecs|] eqn:Evec; [|discriminate]. cbn [item].
  rewrite W_bind_run. unfold pure at 1.
  destruct (fd_mapper fd) as [mapper|] eqn:Emap; [|discriminate]. cbn [item].
  rewrite W_bind_run. unfold pure at 1.
  destruct (fd_parnames fd) as [parnames|] eqn:Epar; [|discriminate]. cbn [item].
  rewrite W_bind_run.
  destruct (fd_triang fd) as [triang|] eqn:Etri.
  - rewrite W_bind_run. unfold pure at 1.
    destruct (fd_extraflags fd) as [extraflags|] eqn:Eflags; [|discriminate]. cbn [item].
    intros [= <- <-].
    eexists lib, dats, fd, templ_lam, vecs, mapper, parnames, _.
    repeat (split; [first [eassumption | reflexivity]|]).
    split; [left; eauto|]. split; reflexivity.
  - destruct (fd_regular fd) as [r|] eqn:Ereg; [|discriminate].
    rewrite W_bind_run. unfold pure at 1.
    destruct (fd_uvecs fd) as [uvecs|] eqn:Euv; [|discriminate]. cbn [item].
    rewrite W_bind_run. unfold pure at 1.
    destruct (fd_idgrid fd) as [idgrid|] eqn:Eid; [|discriminate]. cbn [item].
    intros [= <- <-].
    eexists lib, dats, fd, templ_lam, vecs, mapper, parnames, _.
    repeat (split; [first [eassumption | reflexivity]|]).
    split; [right; eexists _, _, _; eauto|]. split; reflexivity.
Qed.

(** X5.  Once [getInterpolator] has returned an interpolator for a setup,
    every later call for that setup returns the same interpolator, whatever
    configuration it is given, and changes neither the cache nor the list of
    the files read. *)
Theorem getInterpolator_cached HR config b config' b' w o w' :
  getInterpolator HR config b w = (Return o, w') ->
  getInterpolator HR config' b' w' = (Return o, w').
Proof.
  intros Hcall. apply getInterpolator_hit.
  destruct (interps w !! HR) as [o0|] eqn:Ehit.
  - rewrite (getInterpolator_hit HR config b w o0 Ehit) in Hcall.
    injection Hcall as <- <-. exact Ehit.
  - destruct (getInterpolator_miss HR config b w o w' Ehit Hcall)
      as (lib & dats & fd & tl & vecs & mapper & parnames & ie & _ & _ & _ & _ & _ & _ & _
          & _ & _ & ->).
    cbn. apply lookup_insert_eq.
Qed.

Lemma getInterpolator_effect HR config b w r w' :
  getInterpolator HR config b w = (r, w') ->
  (interps w' = interps w
   \/ exists o, r = Return o /\ interps w !! HR = None /\
                interps w' = <[HR := o]> (interps w))
  /\ exists more, reads w' = reads w ++ more.
Proof.
  assert (forall l : list string, exists more, l = l ++ more) as Hnil
    by (intros l; exists []; rewrite app_nil_r; reflexivity).
  assert (forall (l : list string) a, exists more, l ++ [a] = l ++ more) as Hone
    by (intros l a; eauto).
  assert (forall (l : list string) a a', exists more, (l ++ [a]) ++ [a'] = l ++ more) as Htwo
    by (intros l a a'; rewrite <- app_assoc; eauto).
  unfold getInterpolator.
  destruct (interps w !! HR) as [o0|] eqn:Ehit;
    [intros [= <- <-]; split; [left; reflexivity | apply Hnil]|].
  cbv zeta. rewrite W_bind_run. unfold pure at 1.
  destruct (config !! "template_lib") as [lib|]; cbn [item];
    [|intros [= <- <-]; split; [left; reflexivity | apply Hnil]].
  rewrite W_bind_run. unfold read at 1.
  destruct (np_load _) as [dats|];
    [|intros [= <- <-]; split; [left; reflexivity | apply Hone]].
  rewrite W_bind_run. unfold pure at 1. cbn [item].
  rewrite W_bind_run. unfold read at 1.
  destruct (pickle_load _) as [fd|];
    [|intros [= <- <-]; split; [left; reflexivity | apply Htwo]].
  rewrite W_bind_run. unfold pure at 1.
  destruct (fd_lam fd) as [templ_lam|]; cbn [item];
    [|intros [= <- <-]; split; [left; reflexivity | apply Htwo]].
  rewrite W_bind_run. unfold pure at 1.
  destruct (fd_vec fd) as [vecs|]; cbn [item];
    [|intros [= <- <-]; split; [left; reflexivity | apply Htwo]].
  rewrite W_bind_run. unfold pure at 1.
  destruct (fd_mapper fd) as [mapper|]; cbn [item];
    [|intros [= <- <-]; split; [left; reflexivity | apply Htwo]].
  rewrite W_bind_run. unfold pure at 1.
  destruct (fd_parnames fd) as [parnames|]; cbn [item];
    [|intros [= <- <-]; split; [left; reflexivity | apply Htwo]].
  rewrite W_bind_run.
  destruct (fd_triang fd) as [triang|].
  - rewrite W_bind_run. unfold pure at 1.
    destruct (fd_extraflags fd) as [extraflags|]; cbn [item];
      [|intros [= <- <-]; split; [left; reflexivity | apply Htwo]].
    intros [= <- <-].
    split; [right; eexists; split; [reflexivity|]; split; reflexivity
           | apply Htwo].
  - destruct (fd_regular fd) as [r0|];
      [|intros [= <- <-]; split; [left; reflexivity | apply Htwo]].
    rewrite W_bind_run. unfold pure at 1.
    destruct (fd_uvecs fd) as [uvecs|]; cbn [item];
      [|intros [= <- <-]; split; [left; reflexivity | apply Htwo]].
    rewrite W_bind_run. unfold pure at 1.
    destruct (fd_idgrid fd) as [idgrid|]; cbn [item];
      [|intros [= <- <-]; split; [left; reflexivity | apply Htwo]].
    intros [= <- <-].
    split; [right; eexists; split; [reflexivity|]; split; reflexivity
           | apply Htwo].
Qed.

(** X6.  The cache only grows and the files are only read: whatever
    [getInterpolator] is called with, and whether it returns or raises,
    every interpolator that was cached stays cached unchanged, the list of
    files read is only extended, and a call that raises leaves the cache
    exactly as it was. *)
Theorem getInterpolator_keeps HR config b w :
  (forall k o, interps w !! k = Some o ->
               interps (getInterpolator HR config b w).2 !! k = Some o) /\
  (forall e, (getInterpolator HR config b w).1 = Throw e ->
             interps (getInterpolator HR config b w).2 = interps w) /\
  (exists more, reads (getInterpolator HR config b w).2 = reads w ++ more).
Proof.
  destruct (getInterpolator HR config b w) as [r w'] eqn:Ecall.
  destruct (getInterpolator_effect HR config b w r w' Ecall)
    as [[Hsame|(o & Ho & Hmiss & Hins)] Hreads]; cbn [fst snd].
  - split; [intros k o0 Hk; rewrite Hsame; exact Hk|].
    split; [intros; exact Hsame | exact Hreads].
  - split; [|split; [|exact Hreads]].
    + intros k o0 Hk. rewrite Hins. rewrite lookup_insert_ne; [exact Hk | congruence].
    + intros e He. rewrite Ho in He. discriminate.
Qed.

End cache.

Section loaded.

Context `{spec_inter.Files} `{spec_inter.Scipy} `{np.Ufuncs}.
Import spec_inter.

(** X7.  From the files of a regular-grid artifact a first call of
    [getInterpolator] succeeds and caches what it returns; the interpolator
    it returns evaluates a parameter vector as [GridInterp] does on the
    mapped vector, over the grid and the templates of the files and with
    [exp=True], its [outsideFlag] is the grid's outside check of the mapped
    vector, and [getSpecParams] gives the parameter names of the file. *)
Theorem getInterpolator_regular HR config b w dats lam mapper parnames uvecs idgrid :
  interps w !! HR = None ->
  regular_setup HR config dats lam mapper parnames uvecs idgrid ->
  exists o w',
    getInterpolator HR config b w = (Return o, w') /\
    interps w' !! HR = Some o /\
    (forall p, SpecInterpolator.eval o (by_position p)
               = of_result (GridInterp.__call__
                              (GridInterp.__init__ uvecs idgrid dats true)
                              (forward mapper p))) /\
    (forall p, SpecInterpolator.outsideFlag o p
               = of_result (c ← GridOutsideCheck.__call__
                                  (GridOutsideCheck.__init__ uvecs idgrid)
                                  (forward mapper p);
                            Ok (truth c))) /\
    getSpecParams HR config w' = (Return parnames, w').
Proof.
  intros Hmiss (lib & fd & vecs & r & Hlib & Hdats & Hfd & Hlam & Hvec & Hmap & Hpar
                & Htri & Hreg & Huv & Hid).
  eexists _, _. split.
  { unfold getInterpolator. rewrite Hmiss. cbv zeta.
    rewrite W_bind_run. unfold pure at 1. rewrite Hlib. cbn [item].
    rewrite W_bind_run. unfold read at 1. rewrite Hdats.
    rewrite W_bind_run. unfold pure at 1. cbn [item].
    rewrite W_bind_run. unfold read at 1. rewrite Hfd.
    rewrite W_bind_run. unfold pure at 1. rewrite Hlam. cbn [item].
    rewrite W_bind_run. unfold pure at 1. rewrite Hvec. cbn [item].
    rewrite W_bind_run. unfold pure at 1. rewrite Hmap. cbn [item].
    rewrite W_bind_run. unfold pure at 1. rewrite Hpar. cbn [item].
    rewrite W_bind_run. rewrite Htri, Hreg.
    rewrite W_bind_run. unfold pure at 1. rewrite Huv. cbn [item].
    rewrite W_bind_run. unfold pure at 1. rewrite Hid. cbn [item].
    reflexivity. }
  cbn [interps]. split; [apply lookup_insert_eq|].
  split; [reflexivity|]. split; [reflexivity|].
  match goal with
  | |- getSpecParams _ _ ?w' = _ =>
      assert (interps w' !! HR = Some
                (SpecInterpolator.__init__ HR
                   (interper_grid (GridInterp.__init__ uvecs idgrid dats true))
                   (extraper_grid (GridOutsideCheck.__init__ uvecs idgrid))
                   lam mapper parnames (default "" (fd_revision fd))
                   (String.append lib (INTERPOL_PKL_NAME HR))
                   (default "" (fd_git_rev fd)))) as Hhit
        by (cbn [interps]; apply lookup_insert_eq)
  end.
  unfold getSpecParams. rewrite W_bind_run, (getInterpolator_hit _ _ _ _ _ Hhit).
  reflexivity.
Qed.

Lemma ordered_agree (d1 d2 : gmap string Q) names :
  (forall n, n ∈ names -> d1 !! n = d2 !! n) ->
  SpecInterpolator.ordered d1 names = SpecInterpolator.ordered d2 names.
Proof.
  induction names as [|n names IH]; intros Hag; [reflexivity|]. simpl.
  rewrite (Hag n) by (left). rewrite IH; [reflexivity|].
  intros m Hm. apply Hag. right. exact Hm.
Qed.

Lemma ordered_values (d : gmap string Q) names l :
  Forall2 (fun n v => d !! n = Some v) names l ->
  SpecInterpolator.ordered d names = Return l.
Proof.
  induction 1 as [|n v names l Hn _ IH]; [reflexivity|]. simpl.
  rewrite Hn. simpl. rewrite IH. reflexivity.
Qed.

Lemma ordered_missing (d : gmap string Q) names :
  Exists (fun n => d !! n = None) names ->
  exists n, n ∈ names /\ d !! n = None /\
            SpecInterpolator.ordered d names = Throw (KeyError n).
Proof.
  induction names as [|n names IH]; intros Hex; [inversion Hex|]. simpl.
  destruct (d !! n) as [v|] eqn:En.
  - apply Exists_cons in Hex as [Hn|Hex]; [congruence|].
    destruct (IH Hex) as (m & Hm & Hnone & Hthrow).
    exists m. split; [right; exact Hm|]. split; [exact Hnone|].
    simpl. rewrite Hthrow. reflexivity.
  - exists n. split; [left|]. split; [exact En | reflexivity].
Qed.

(** X8.  [SpecInterpolator.eval] of a dictionary looks at the entries of the
    interpolator's parameter names only: dictionaries that agree on these
    names evaluate alike (other keys are ignored); a dictionary that holds
    all the names evaluates like the vector of its values in the order of
    the names; one that lacks a name raises [KeyError] for a missing name. *)
Theorem eval_by_name (self : SpecInterpolator.t) (d : gmap string Q) :
  (forall d', (forall n, n ∈ SpecInterpolator.parnames self -> d !! n = d' !! n) ->
              SpecInterpolator.eval self (by_name d)
              = SpecInterpolator.eval self (by_name d')) /\
  (forall l, Forall2 (fun n v => d !! n = Some v) (SpecInterpolator.parnames self) l ->
             SpecInterpolator.eval self (by_name d)
             = SpecInterpolator.eval self (by_position l)) /\
  (Exists (fun n => d !! n = None) (SpecInterpolator.parnames self) ->
   exists n, n ∈ SpecInterpolator.parnames self /\ d !! n = None /\
             SpecInterpolator.eval self (by_name d) = Throw (KeyError n)).
Proof.
  unfold SpecInterpolator.eval. split; [|split].
  - intros d' Hag. rewrite (ordered_agree d d' _ Hag). reflexivity.
  - intros l Hl. rewrite (ordered_values d _ l Hl). reflexivity.
  - intros Hex. destruct (ordered_missing d _ Hex) as (n & Hn & Hnone & Hthrow).
    exists n. rewrite Hthrow. auto.
Qed.

End loaded.

Lemma getInterpolator_cached_witness :
  @spec_inter.getInterpolator fixtures.disk "sdss" fixtures.config true
    fixtures.empty_world
  = (Return fixtures.sdss, fixtures.loaded_world) /\
  @spec_inter.getInterpolator fixtures.disk "sdss" ∅ false fixtures.loaded_world
  = (Return fixtures.sdss, fixtures.loaded_world).
Proof.
  assert (@spec_inter.getInterpolator fixtures.disk "sdss" fixtures.config true
            fixtures.empty_world
          = (Return fixtures.sdss, fixtures.loaded_world)) as Hfirst.
  { vm_compute. reflexivity. }
  split; [exact Hfirst|].
  exact (@getInterpolator_cached fixtures.disk "sdss" fixtures.config true ∅ false
           fixtures.empty_world fixtures.sdss fixtures.loaded_world Hfirst).
Defined.

Lemma getInterpolator_keeps_witness :
  spec_inter.interps
    (@spec_inter.getInterpolator fixtures.disk "boss" fixtures.config true
       fixtures.loaded_world).2 !! "sdss"
  = Some fixtures.sdss.
Proof.
  destruct (@getInterpolator_keeps fixtures.disk "boss" fixtures.config true
              fixtures.loaded_world) as (Hkeep & _ & _).
  apply Hkeep. reflexivity.
Defined.

Lemma getInterpolator_regular_witness :
  exists o w',
    @spec_inter.getInterpolator fixtures.disk "sdss" fixtures.config true
      fixtures.empty_world = (Return o, w') /\
    spec_inter.interps w' !! "sdss" = Some o /\
    @spec_inter.SpecInterpolator.eval approx o (spec_inter.by_position [2; 20]%Q)
    = of_result (@spec_inter.GridInterp.__call__ approx
                   (spec_inter.GridInterp.__init__ sample.uvecs sample.idgrid
                      sample.dats true) [2; 20]%Q) /\
    @spec_inter.getSpecParams fixtures.disk "sdss" fixtures.config w'
    = (Return ["teff"; "logg"], w').
Proof.
  destruct (@getInterpolator_regular fixtures.disk fixtures.no_scipy approx
              "sdss" fixtures.config true fixtures.empty_world sample.dats
              [4000; 5000]%Q fixtures.identity ["teff"; "logg"] sample.uvecs sample.idgrid)
    as (o & w' & Hcall & Hhit & Heval & _ & Hnames).
  - reflexivity.
  - exists "lib/", fixtures.regular_fd, [], true. repeat split; reflexivity.
  - exists o, w'. split; [exact Hcall|]. split; [exact Hhit|].
    split; [exact (Heval [2; 20]%Q) | exact Hnames].
Defined.

Lemma eval_by_name_witness :
  @spec_inter.SpecInterpolator.eval approx fixtures.sdss
    (spec_inter.by_name {["teff" := 2%Q; "logg" := 20%Q; "feh" := 0%Q]})
  = @spec_inter.SpecInterpolator.eval approx fixtures.sdss
      (spec_inter.by_position [2; 20]%Q)
  /\ exists n,
       @spec_inter.SpecInterpolator.eval approx fixtures.sdss
         (spec_inter.by_name {["teff" := 2%Q]})
       = Throw (KeyError n).
Proof.
  split.
  - apply (@eval_by_name approx fixtures.sdss
             {["teff" := 2%Q; "logg" := 20%Q; "feh" := 0%Q]}).
    repeat constructor.
  - destruct (@eval_by_name approx fixtures.sdss {["teff" := 2%Q]})
      as (_ & _ & Hmissing).
    destruct Hmissing as (n & _ & _ & Hn); [|eauto].
    apply Exists_cons_tl, Exists_cons_hd. reflexivity.
Defined.

(** * Further properties of the CCF helpers *)

Section apodize_more.

Local Open Scope Q_scope.
Context `{np.Ufuncs}.
Import make_ccf.

(** X9.  [apodize] leaves the middle of the spectrum as it is: a sample
    whose position [i] satisfies [0.15 * n <= i <= 0.85 * n - 1], for a
    spectrum of [n] samples, keeps its value. *)
Theorem apodize_middle (spec : list Q) (i : nat) (s : Q) :
  spec !! i = Some s ->
  (15 # 100) * inject_Z (Z.of_nat (length spec)) <= inject_Z (Z.of_nat i) ->
  inject_Z (Z.of_nat i) <= (85 # 100) * inject_Z (Z.of_nat (length spec)) - 1 ->
  exists v, apodize spec !! i = Some v /\ v == s.
Proof.
  intros Hi Hlo Hhi. pose proof (lookup_lt_Some _ _ _ Hi) as Hlt.
  rewrite apodize_taper, lookup_zip_with, list_lookup_fmap.
  rewrite positions_lookup by exact Hlt. rewrite Hi. simpl.
  eexists. split; [reflexivity|].
  rewrite Z.add_0_l. unfold taper. cbv zeta.
  set (L := inject_Z (Z.of_nat (length spec))) in *.
  set (x := inject_Z (Z.of_nat i)) in *.
  destruct (Qlt_bool (- (15 # 100) * L) (x * 1 - L + 1)) eqn:E2.
  { apply Qlt_bool_iff in E2. exfalso. lra. }
  destruct (Qlt_bool (x * 1) ((15 # 100) * L)) eqn:E1.
  { apply Qlt_bool_iff in E1. exfalso. lra. }
  ring.
Qed.

End apodize_more.

Lemma apodize_middle_witness :
  exists v,
    @make_ccf.apodize approx [3; 4; 5; 6; 7; 8; 9; 10]%Q !! 3%nat = Some v /\ (v == 6)%Q.
Proof.
  apply (@apodize_middle approx [3; 4; 5; 6; 7; 8; 9; 10]%Q 3 6%Q).
  - reflexivity.
  - vm_compute. discriminate.
  - vm_compute. discriminate.
Defined.

Section pad_more.

Local Open Scope Q_scope.
Context `{np.Ufuncs}.
Import make_ccf.

(** X10.  When [pad] returns for as many wavelengths as fluxes, both outputs
    have the same length, the input vectors sit unchanged inside them at the
    same offset, the spectrum is surrounded by zeros only, and the padding is
    split evenly, the odd sample going to the right. *)
Theorem pad_layout x y x2 y2 :
  length x = length y -> pad x y = Ok (x2, y2) ->
  exists left right delta1 delta2,
    x2 = left ++ x ++ right /\
    y2 = np.zeros delta1 ++ y ++ np.zeros delta2 /\
    length left = delta1 /\ length right = delta2 /\
    (delta1 <= delta2 <= delta1 + 1)%nat /\
    length x2 = length y2.
Proof.
  intros Hlen Hpad.
  destruct (pad_input_shape x y _ Hlen Hpad) as (x0 & x1 & rest & _ & H1 & H0 & Hlin).
  destruct (pad_spectrum x y x2 y2 Hpad) as (l1 & Hl1 & Hd & _).
  destruct (pad_linear_value x y x0 x1 l1 Hl1 H1 H0 Hlin Hd) as (xlast & _ & Hval).
  rewrite Hval in Hpad. injection Hpad as <- <-.
  pose proof (proj1 (halves _) Hd) as Hh.
  eexists _, _, _, _. split; [reflexivity|]. split; [reflexivity|].
  rewrite !arange_length.
  split; [lia|]. split; [lia|]. split; [lia|].
  unfold np.zeros. rewrite !length_app, !arange_length, !length_replicate. lia.
Qed.

(** X11.  A spectrum whose length is already the length computed for it is
    not padded: whatever [pad] returns for it is its two arguments, as they
    are, and [pad] returns them whenever the wavelength steps pass the
    linear test. *)
Theorem pad_at_full_length x y x0 x1 :
  pow2_length (length y) = Ok (Z.of_nat (length y)) ->
  x !! 0%nat = Some x0 -> x !! 1%nat = Some x1 ->
  (forall r, pad x y = Ok r -> r = (x, y)) /\
  (np.allclose (np.diff x) (x1 - x0) = true -> pad x y = Ok (x, y)).
Proof.
  intros Hfix H0 H1.
  apply (py_index_nat x 0) in H0. apply (py_index_nat x 1) in H1.
  change (Z.of_nat 0) with 0%Z in H0. change (Z.of_nat 1) with 1%Z in H1.
  assert (x <> []) as Hx by (intros ->; discriminate H0).
  destruct (py_index_last x Hx) as (xlast & Hlast & _).
  assert (pad x y
          = if np.allclose (np.diff x) (x1 - x0) then Ok (x, y)
            else if np.allclose (np.diff (map np.log x)) (np.log (x1 / x0))
                 then Raise ValueError else Raise Exception') as Hpad.
  { unfold pad. cbv zeta. rewrite Hfix. cbn [mbind result_bind]. rewrite Z.sub_diag.
    change (0 ÷ 2)%Z with 0%Z. change (0 - 0)%Z with 0%Z. change (- 0)%Z with 0%Z.
    change (zeros 0) with (Ok (@nil Q)). cbn [mbind result_bind].
    rewrite H1, H0. cbn [mbind result_bind]. rewrite Hlast. cbn [mbind result_bind].
    change (np.arange 0 0) with (@nil Z). cbn [map app]. rewrite !app_nil_r.
    destruct (np.allclose (np.diff x) (x1 - x0)); [reflexivity|].
    destruct (np.allclose _ _); [|reflexivity].
    unfold asarray2d. cbn [forallb length].
    destruct x as [|a x']; [congruence|]. reflexivity. }
  rewrite Hpad. split.
  - intros r. destruct (np.allclose (np.diff x) (x1 - x0)).
    + intros [= <-]. reflexivity.
    + destruct (np.allclose _ _); discriminate.
  - intros ->. reflexivity.
Qed.

(** X12.  For as many wavelengths as fluxes, and two of them at least,
    [pad] returns exactly when the wavelength steps pass the linear test and
    the computed length is not below the length of the spectrum: the
    logarithmic branch never returns. *)
Theorem pad_returns_iff_linear x y x0 x1 :
  length x = length y -> x !! 0%nat = Some x0 -> x !! 1%nat = Some x1 ->
  (exists r, pad x y = Ok r) <->
  (np.allclose (np.diff x) (x1 - x0) = true /\
   exists l1, pow2_length (length y) = Ok l1 /\ (Z.of_nat (length y) <= l1)%Z).
Proof.
  intros Hlen H0 H1.
  apply (py_index_nat x 0) in H0. apply (py_index_nat x 1) in H1.
  change (Z.of_nat 0) with 0%Z in H0. change (Z.of_nat 1) with 1%Z in H1.
  split.
  - intros [[x2 y2] Hpad].
    destruct (pad_spectrum x y x2 y2 Hpad) as (l1 & Hl1 & Hd & _).
    destruct (pad_returns_linear x y _ Hlen Hpad) as (b & a & Hb & Ha & Hlin).
    rewrite H1 in Hb. rewrite H0 in Ha. injection Hb as <-. injection Ha as <-.
    split; [exact Hlin|]. exists l1. split; [exact Hl1 | lia].
  - intros (Hlin & l1 & Hl1 & Hd).
    destruct (pad_linear_value x y x0 x1 l1 Hl1 H1 H0 Hlin) as (xlast & _ & Hval); [lia|].
    eexists. exact Hval.
Qed.

End pad_more.

Lemma pad_layout_witness :
  exists left right delta1 delta2,
    [(-2)%Q; (-1)%Q; 0; 1; 2; 3; 4; 5]%Q = left ++ [0; 1; 2; 3]%Q ++ right /\
    [0; 0; 5; 6; 7; 8; 0; 0]%Q = np.zeros delta1 ++ [5; 6; 7; 8]%Q ++ np.zeros delta2 /\
    length left = delta1 /\ length right = delta2 /\
    (delta1 <= delta2 <= delta1 + 1)%nat /\
    length [(-2)%Q; (-1)%Q; 0; 1; 2; 3; 4; 5]%Q = length [0; 0; 5; 6; 7; 8; 0; 0]%Q.
Proof.
  apply (@pad_layout approx [0; 1; 2; 3]%Q [5; 6; 7; 8]%Q).
  - reflexivity.
  - vm_compute. reflexivity.
Defined.

Lemma pad_at_full_length_witness :
  (forall r, @make_ccf.pad approx [3; 5]%Q [7; 9]%Q = Ok r -> r = ([3; 5]%Q, [7; 9]%Q)) /\
  (np.allclose (np.diff [3; 5]%Q) (5 - 3) = true ->
   @make_ccf.pad approx [3; 5]%Q [7; 9]%Q = Ok ([3; 5]%Q, [7; 9]%Q)).
Proof.
  apply (@pad_at_full_length approx [3; 5]%Q [7; 9]%Q 3 5); reflexivity.
Defined.

Lemma pad_returns_iff_linear_witness :
  (exists r, @make_ccf.pad approx [0; 1; 2; 3]%Q [5; 6; 7; 8]%Q = Ok r)
  <-> (np.allclose (np.diff [0; 1; 2; 3]%Q) (1 - 0) = true /\
       exists l1, @make_ccf.pow2_length approx (length [5; 6; 7; 8]%Q) = Ok l1 /\
                  (Z.of_nat (length [5; 6; 7; 8]%Q) <= l1)%Z).
Proof.
  apply (@pad_returns_iff_linear approx [0; 1; 2; 3]%Q [5; 6; 7; 8]%Q 0 1); reflexivity.
Defined.

(** ** Filling the gaps of a spectrum *)

Section masker.

Import make_ccf.

Lemma scatter_length idx : forall v vals, length (scatter v idx vals) = length v.
Proof.
  unfold scatter. induction idx as [|i idx IH]; intros v [|x vals]; simpl; try reflexivity.
  rewrite IH, length_insert. reflexivity.
Qed.

Lemma scatter_notin idx : forall v vals i,
  i ∉ idx -> scatter v idx vals !! i = v !! i.
Proof.
  induction idx as [|k idx IH]; intros v [|x vals] i Hi; try reflexivity.
  apply not_elem_of_cons in Hi as [Hne Hi].
  unfold scatter. simpl. fold (scatter (<[k:=x]> v) idx vals).
  rewrite IH by exact Hi. apply list_lookup_insert_ne. congruence.
Qed.

Lemma scatter_map_in (F : nat -> Q) idx : forall v i,
  NoDup idx -> i ∈ idx -> (i < length v)%nat ->
  scatter v idx (map F idx) !! i = Some (F i).
Proof.
  induction idx as [|k idx IH]; intros v i Hnd Hi Hlen; [inversion Hi|].
  apply NoDup_cons in Hnd as [Hk Hnd].
  unfold scatter. simpl. fold (scatter (<[k:=F k]> v) idx (map F idx)).
  destruct (decide (i ∈ idx)) as [Hin|Hnin].
  - apply IH; [exact Hnd | exact Hin | rewrite length_insert; exact Hlen].
  - apply elem_of_cons in Hi as [->|Hi]; [|contradiction].
    rewrite scatter_notin by exact Hnin. apply list_lookup_insert_eq. exact Hlen.
Qed.

Lemma replicate_const {A} (idx : list A) (c : Q) :
  replicate (length idx) c = map (fun _ => c) idx.
Proof. induction idx as [|i idx IH]; [reflexivity|]. simpl. rewrite IH. reflexivity. Qed.

Lemma nonzero_from_elem m : forall s j,
  j ∈ np.nonzero_from s m <-> (s <= j)%nat /\ m !! (j - s)%nat = Some true.
Proof.
  induction m as [|b m IH]; intros s j; simpl.
  - split; [intros Hj; inversion Hj | intros [_ Hj]; discriminate].
  - assert (s <> j -> (j - s)%nat = S (j - S s) \/ (j < s)%nat) as Hsub by lia.
    destruct b.
    + rewrite elem_of_cons, IH. split.
      * intros [-> | [Hs Hj]]; [split; [lia|]; rewrite Nat.sub_diag; reflexivity|].
        split; [lia|]. replace (j - s)%nat with (S (j - S s)) by lia. exact Hj.
      * intros [Hs Hj]. destruct (decide (j = s)) as [->|Hne]; [left; reflexivity|right].
        split; [lia|]. replace (j - s)%nat with (S (j - S s)) in Hj by lia. exact Hj.
    + rewrite IH. split.
      * intros [Hs Hj]. split; [lia|].
        replace (j - s)%nat with (S (j - S s)) by lia. exact Hj.
      * intros [Hs Hj]. destruct (decide (j = s)) as [->|Hne].
        { rewrite Nat.sub_diag in Hj. discriminate. }
        split; [lia|]. replace (j - s)%nat with (S (j - S s)) in Hj by lia. exact Hj.
Qed.

Lemma nonzero_elem m j : j ∈ np.nonzero m <-> m !! j = Some true.
Proof.
  unfold np.nonzero. rewrite nonzero_from_elem, Nat.sub_0_r. split; [tauto|].
  intros Hj. split; [lia | exact Hj].
Qed.

Lemma nonzero_from_sorted m : forall s, StronglySorted lt (np.nonzero_from s m).
Proof.
  induction m as [|b m IH]; intros s; simpl; [constructor|].
  destruct b; [|apply IH]. constructor; [apply IH|].
  apply Forall_forall. intros j Hj. apply nonzero_from_elem in Hj. lia.
Qed.

Lemma nonzero_sorted m : StronglySorted lt (np.nonzero m).
Proof. apply nonzero_from_sorted. Qed.

Lemma sorted_NoDup (l : list nat) : StronglySorted lt l -> NoDup l.
Proof.
  induction 1 as [|a l _ IH Ha]; [constructor|].
  apply NoDup_cons. split; [|exact IH].
  intros Hin. rewrite Forall_forall in Ha. specialize (Ha a Hin). lia.
Qed.

Lemma nonzero_bound m j : j ∈ np.nonzero m -> (j < length m)%nat.
Proof. intros Hj. apply nonzero_elem in Hj. eapply lookup_lt_Some, Hj. Qed.

Lemma good_elem (bm : list bool) j :
  j ∈ np.nonzero (map negb bm) <-> bm !! j = Some false.
Proof.
  rewrite nonzero_elem.
  change (map negb bm) with (negb <$> bm). rewrite list_lookup_fmap.
  destruct (bm !! j) as [[|]|]; simpl; split; congruence.
Qed.

Lemma compress_map_elem {A} (f : A -> bool) (l : list A) x :
  x ∈ np.compress (map f l) l <-> x ∈ l /\ f x = true.
Proof.
  induction l as [|a l IH]; simpl.
  - split; [intros Hx; inversion Hx | intros [Hx _]; inversion Hx].
  - destruct (f a) eqn:Ea.
    + rewrite !elem_of_cons, IH. split.
      * intros [-> | [Hx Hf]]; [split; [left; reflexivity | exact Ea] | tauto].
      * intros [[-> | Hx] Hf]; [left; reflexivity | right; tauto].
    + rewrite elem_of_cons, IH. split; [tauto|].
      intros [[-> | Hx] Hf]; [congruence | tauto].
Qed.

Lemma compress_map_NoDup {A} (f : A -> bool) (l : list A) :
  NoDup l -> NoDup (np.compress (map f l) l).
Proof.
  induction 1 as [|a l Ha _ IH]; simpl; [constructor|].
  destruct (f a); [|exact IH]. apply NoDup_cons. split; [|exact IH].
  intros Hin. apply compress_map_elem in Hin. tauto.
Qed.

Lemma compress_map_map {A B} (f : A -> bool) (g : A -> B) (l : list A) :
  np.compress (map f l) (map g l) = map g (np.compress (map f l) l).
Proof.
  induction l as [|a l IH]; [reflexivity|]. simpl.
  destruct (f a); simpl; rewrite IH; reflexivity.
Qed.

Lemma zip_with_map {A B C D} (h : B -> C -> D) (f : A -> B) (g : A -> C) (l : list A) :
  zip_with h (map f l) (map g l) = map (fun a => h (f a) (g a)) l.
Proof. induction l as [|a l IH]; [reflexivity|]. simpl. rewrite IH. reflexivity. Qed.

Lemma traverse_map {A B C} (f : B -> result C) (g : A -> B) (d : A -> C) (l : list A) :
  Forall (fun a => f (g a) = Ok (d a)) l -> traverse f (map g l) = Ok (map d l).
Proof.
  induction 1 as [|a l Ha _ IH]; [reflexivity|]. simpl. rewrite Ha. simpl.
  rewrite IH. reflexivity.
Qed.

Lemma bridge_map {A} (f0 f1 f2 g1 g2 : A -> Q) (l : list A) :
  bridge (map f0 l) (map f1 l) (map f2 l) (map g1 l) (map g2 l)
  = map (fun a => (- (f1 a - f0 a) * g2 a + (f2 a - f0 a) * g1 a) / (f2 a - f1 a))%Q l.
Proof. induction l as [|a l IH]; [reflexivity|]. simpl. rewrite IH. reflexivity. Qed.

Lemma py_index_nth {A} (l : list A) (k : nat) (d : A) :
  (k < length l)%nat -> py_index l (Z.of_nat k) = Ok (nth k l d).
Proof.
  intros Hk. destruct (lookup_lt_is_Some_2 l k Hk) as [a Ha].
  rewrite (py_index_nat l k a Ha). f_equal. symmetry. apply nth_lookup_Some. exact Ha.
Qed.

Lemma count_length {A} (f : A -> bool) (l : list A) : (np.count f l <= length l)%nat.
Proof. induction l as [|a l IH]; simpl; [lia|]. destruct (f a); lia. Qed.

Lemma count_none {A} (f : A -> bool) (l : list A) :
  Forall (fun a => f a = false) l -> np.count f l = 0%nat.
Proof. induction 1 as [|a l Ha _ IH]; [reflexivity|]. simpl. rewrite Ha. exact IH. Qed.

Lemma count_all {A} (f : A -> bool) (l : list A) :
  Forall (fun a => f a = true) l -> np.count f l = length l.
Proof.
  induction 1 as [|a l Ha _ IH]; [reflexivity|]. simpl. rewrite Ha, IH. reflexivity.
Qed.

(** The insertion point of [i] is just after the last good pixel below it. *)
Lemma searchsorted_below (G : list nat) : forall a i,
  StronglySorted lt G -> a ∈ G -> (a < i)%nat ->
  (forall g, g ∈ G -> (a < g)%nat -> (i <= g)%nat) ->
  exists j, G !! j = Some a /\ np.searchsorted_left G i = S j.
Proof.
  unfold np.searchsorted_left.
  induction G as [|g G IH]; intros a i Hs Ha Hai Hnext; [inversion Ha|].
  inversion Hs as [|? ? Hs' Hg]; subst. rewrite Forall_forall in Hg.
  simpl. apply elem_of_cons in Ha as [->|Ha].
  - exists 0%nat. split; [reflexivity|].
    destruct (Nat.ltb_spec g i); [|lia]. f_equal. apply count_none.
    apply Forall_forall. intros x Hx. apply Nat.ltb_ge.
    apply Hnext; [right; exact Hx | apply Hg, Hx].
  - pose proof (Hg a Ha). destruct (Nat.ltb_spec g i); [|lia].
    destruct (IH a i Hs' Ha Hai) as (j & Hj & Hc).
    { intros x Hx. apply Hnext. right. exact Hx. }
    exists (S j). split; [exact Hj | rewrite Hc; reflexivity].
Qed.

(** The insertion point of [i] is at the first good pixel not below it. *)
Lemma searchsorted_above (G : list nat) : forall c i,
  StronglySorted lt G -> c ∈ G -> (i <= c)%nat ->
  (forall g, g ∈ G -> (g < c)%nat -> (g < i)%nat) ->
  G !! np.searchsorted_left G i = Some c.
Proof.
  unfold np.searchsorted_left.
  induction G as [|g G IH]; intros c i Hs Hc Hic Hprev; [inversion Hc|].
  inversion Hs as [|? ? Hs' Hg]; subst. rewrite Forall_forall in Hg.
  simpl. apply elem_of_cons in Hc as [->|Hc].
  - destruct (Nat.ltb_spec g i); [lia|].
    rewrite count_none; [reflexivity|].
    apply Forall_forall. intros x Hx. apply Nat.ltb_ge. specialize (Hg x Hx). lia.
  - pose proof (Hg c Hc).
    assert (g < i)%nat by (apply Hprev; [left | assumption]).
    destruct (Nat.ltb_spec g i); [|lia]. simpl.
    apply IH; [exact Hs' | exact Hc | exact Hic |].
    intros x Hx. apply Hprev. right. exact Hx.
Qed.

Lemma setitems_run l h v idx vals :
  h !! l = Some (floats v) -> Forall (fun i => (i < length v)%nat) idx ->
  setitems l idx vals h = (Ok tt, <[l := floats (scatter v idx vals)]> h).
Proof.
  intros Hl Hidx. unfold setitems. rewrite Hl.
  replace (forallb (fun i => i <? length v) idx) with true; [reflexivity|].
  symmetry. apply forallb_forall. intros i Hi. apply Nat.ltb_lt.
  rewrite Forall_forall in Hidx. apply Hidx, list_elem_of_In, Hi.
Qed.

Lemma nth_elem (l : list nat) k : (k < length l)%nat -> nth k l 0%nat ∈ l.
Proof.
  intros Hk. destruct (lookup_lt_is_Some_2 l k Hk) as [a Ha].
  rewrite (nth_lookup_Some l k 0%nat a Ha). eapply list_elem_of_lookup_2, Ha.
Qed.

Lemma mid_range (G : list nat) b :
  is_mid G b = true ->
  (1 <= np.searchsorted_left G b < length G)%nat.
Proof.
  unfold is_mid, is_left, is_right. intros Hm.
  apply andb_true_iff in Hm as [H0 H1].
  apply negb_true_iff, Nat.eqb_neq in H0, H1.
  pose proof (count_length (fun e => e <? b) G) as Hc.
  unfold np.searchsorted_left in *. lia.
Qed.

Lemma fill_gaps_run lam spec badmask spec1 h lv sv bm v1 :
  h !! lam = Some (floats lv) -> h !! spec = Some (floats sv) ->
  h !! badmask = Some (bools bm) -> h !! spec1 = Some (floats v1) ->
  length lv = length bm -> length sv = length bm -> length v1 = length bm ->
  np.nonzero (map negb bm) <> [] ->
  exists h', fill_gaps lam spec badmask spec1 h = (Ok spec1, h') /\
             h' !! spec1 = Some (floats (filled lv sv bm v1)).
Proof.
  intros Hlam Hspec Hmask Hcopy Hllen Hslen Hvlen Hgood. unfold fill_gaps, filled.
  rewrite (run_bind_ok _ _ _ _ _ (load_bools_run _ _ _ Hmask)). cbv zeta.
  set (B := np.nonzero bm). set (G := np.nonzero (map negb bm)) in *.
  assert (forall b, b ∈ B -> (b < length bm)%nat) as HB by (intros b; apply nonzero_bound).
  assert (forall g, g ∈ G -> (g < length bm)%nat) as HG.
  { intros g Hg. apply nonzero_bound in Hg. rewrite length_map in Hg. exact Hg. }
  assert (0 < length G)%nat as HGpos by (destruct G; [congruence | simpl; lia]).
  destruct (Nat.eqb_spec (length G) 0) as [Hz|_]; [lia|].
  rewrite !map_map, zip_with_map, !compress_map_map, !map_map.
  change (map (fun x => np.searchsorted_left G x =? 0) B) with (map (is_left G) B).
  change (map (fun x => np.searchsorted_left G x =? length G) B) with (map (is_right G) B).
  change (map (fun a => negb (np.searchsorted_left G a =? 0)
                        && negb (np.searchsorted_left G a =? length G)) B)
    with (map (is_mid G) B).
  set (Lf := np.compress (map (is_left G) B) B).
  set (Rt := np.compress (map (is_right G) B) B).
  set (Md := np.compress (map (is_mid G) B) B).
  assert (forall b, b ∈ Md -> (b < length bm)%nat
                              /\ (1 <= np.searchsorted_left G b < length G)%nat) as HMd.
  { intros b Hb. apply compress_map_elem in Hb as [Hb Hm].
    split; [apply HB, Hb | apply mid_range, Hm]. }
  assert (forall b, b ∈ Md -> (lower G b < length bm)%nat) as Hlo.
  { intros b Hb. apply HG, nth_elem. destruct (HMd b Hb). lia. }
  assert (forall b, b ∈ Md -> (upper G b < length bm)%nat) as Hup.
  { intros b Hb. apply HG, nth_elem. destruct (HMd b Hb). lia. }
  rewrite (run_bind_ok _ _ _ _ _ (load_floats_run _ _ _ Hlam)).
  erewrite run_bind_ok.
  2:{ apply lift_run. unfold take_at. apply (traverse_map _ _ (lower G)).
      apply Forall_forall. intros b Hb. destruct (HMd b Hb) as [_ Hss].
      replace (Z.of_nat (np.searchsorted_left G b) - 1)%Z
        with (Z.of_nat (np.searchsorted_left G b - 1)) by lia.
      apply py_index_nth. lia. }
  rewrite map_map.
  erewrite run_bind_ok.
  2:{ apply lift_run. unfold take_at.
      apply (traverse_map _ _ (fun b => nth (lower G b) lv 0%Q)).
      apply Forall_forall. intros b Hb. apply py_index_nth. rewrite Hllen. apply Hlo, Hb. }
  erewrite run_bind_ok.
  2:{ apply lift_run. unfold take_at. apply (traverse_map _ _ (upper G)).
      apply Forall_forall. intros b Hb. destruct (HMd b Hb) as [_ Hss].
      apply py_index_nth. lia. }
  rewrite map_map.
  erewrite run_bind_ok.
  2:{ apply lift_run. unfold take_at.
      apply (traverse_map _ _ (fun b => nth (upper G b) lv 0%Q)).
      apply Forall_forall. intros b Hb. apply py_index_nth. rewrite Hllen. apply Hup, Hb. }
  rewrite (run_bind_ok _ _ _ _ _ (load_floats_run _ _ _ Hspec)).
  erewrite run_bind_ok.
  2:{ apply lift_run. unfold take_at.
      apply (traverse_map _ _ (fun b => nth (lower G b) sv 0%Q)).
      apply Forall_forall. intros b Hb. apply py_index_nth. rewrite Hslen. apply Hlo, Hb. }
  erewrite run_bind_ok.
  2:{ apply lift_run. unfold take_at.
      apply (traverse_map _ _ (fun b => nth (upper G b) sv 0%Q)).
      apply Forall_forall. intros b Hb. apply py_index_nth. rewrite Hslen. apply Hup, Hb. }
  erewrite run_bind_ok.
  2:{ apply lift_run. unfold take_at.
      apply (traverse_map _ _ (fun b => nth b lv 0%Q)).
      apply Forall_forall. intros b Hb. apply py_index_nth. rewrite Hllen.
      apply (HMd b Hb). }
  erewrite run_bind_ok.
  2:{ apply lift_run. apply (py_index_nth G 0 0%nat). exact HGpos. }
  erewrite run_bind_ok.
  2:{ apply lift_run. apply py_index_nth. rewrite Hslen. apply HG, nth_elem, HGpos. }
  erewrite run_bind_ok.
  2:{ apply setitems_run; [exact Hcopy|]. apply Forall_forall. intros b Hb.
      apply compress_map_elem in Hb as [Hb _]. rewrite Hvlen. apply HB, Hb. }
  erewrite run_bind_ok.
  2:{ apply lift_run.
      destruct (py_index_last G) as (a & Ha & Hlast); [congruence|].
      rewrite Ha. f_equal. rewrite last_lookup in Hlast.
      replace (pred (length G)) with (length G - 1)%nat in Hlast by lia.
      symmetry. apply (nth_lookup_Some G _ 0%nat a Hlast). }
  erewrite run_bind_ok.
  2:{ apply lift_run. apply py_index_nth. rewrite Hslen. apply HG, nth_elem. lia. }
  erewrite run_bind_ok.
  2:{ apply setitems_run; [apply lookup_insert_eq|]. apply Forall_forall. intros b Hb.
      apply compress_map_elem in Hb as [Hb _].
      rewrite scatter_length, Hvlen. apply HB, Hb. }
  erewrite run_bind_ok.
  2:{ apply setitems_run; [apply lookup_insert_eq|]. apply Forall_forall. intros b Hb.
      rewrite !scatter_length, Hvlen. apply (HMd b Hb). }
  eexists. split; [reflexivity|].
  rewrite lookup_insert_eq. rewrite !replicate_const, bridge_map. reflexivity.
Qed.

Lemma interp_masker_run lam spec badmask h lv sv bm :
  h !! lam = Some (floats lv) -> h !! spec = Some (floats sv) ->
  h !! badmask = Some (bools bm) ->
  length lv = length bm -> length sv = length bm ->
  np.nonzero (map negb bm) <> [] ->
  exists r h', interp_masker lam spec badmask h = (Ok r, h') /\
               h' !! r = Some (floats (filled lv sv bm sv)).
Proof.
  intros Hlam Hspec Hmask Hllen Hslen Hgood. unfold interp_masker.
  rewrite (run_bind_ok _ _ _ _ _ (load_floats_run _ _ _ Hspec)).
  rewrite bind_run. unfold new. cbv zeta. rewrite copy_same.
  set (l0 := fresh (dom h)).
  assert (h !! l0 = None) as Hfresh by (apply not_elem_of_dom, is_fresh).
  destruct (fill_gaps_run lam spec badmask l0 (<[l0 := floats sv]> h) lv sv bm sv)
    as (h' & Hrun & Hout); try assumption.
  - rewrite lookup_insert_ne by congruence. exact Hlam.
  - rewrite lookup_insert_ne by congruence. exact Hspec.
  - rewrite lookup_insert_ne by congruence. exact Hmask.
  - apply lookup_insert_eq.
  - eauto.
Qed.

Lemma good_nonempty (bm : list bool) g :
  bm !! g = Some false -> np.nonzero (map negb bm) <> [].
Proof.
  intros Hg Hnil. apply good_elem in Hg. rewrite Hnil in Hg. inversion Hg.
Qed.

Lemma bad_elem (bm : list bool) i : bm !! i = Some true -> i ∈ np.nonzero bm.
Proof. apply nonzero_elem. Qed.

Lemma good_not_bad (bm : list bool) i : bm !! i = Some false -> i ∉ np.nonzero bm.
Proof. intros Hi Hin. apply nonzero_elem in Hin. congruence. Qed.

Lemma filled_length lv sv bm v1 : length (filled lv sv bm v1) = length v1.
Proof. unfold filled. cbv zeta. rewrite !scatter_length. reflexivity. Qed.

Lemma filled_good lv sv bm v1 i :
  bm !! i = Some false -> filled lv sv bm v1 !! i = v1 !! i.
Proof.
  intros Hi. apply good_not_bad in Hi. unfold filled. cbv zeta.
  rewrite !scatter_notin; [reflexivity| | |];
    intros Hin; apply compress_map_elem in Hin as [Hin _]; contradiction.
Qed.

Lemma above_lookup (bm : list bool) i c :
  bm !! i = Some true -> nearest_above bm i c ->
  np.nonzero (map negb bm) !! np.searchsorted_left (np.nonzero (map negb bm)) i = Some c.
Proof.
  intros Hi (Hic & Hc & Hbetween).
  apply searchsorted_above; [apply nonzero_sorted | apply good_elem, Hc | lia |].
  intros g Hg Hgc. apply good_elem in Hg.
  destruct (Nat.lt_trichotomy g i) as [Hlt|[->|Hgt]]; [exact Hlt | congruence |].
  rewrite Hbetween in Hg by lia. discriminate.
Qed.

Lemma below_lookup (bm : list bool) i a :
  nearest_below bm i a ->
  exists j, np.nonzero (map negb bm) !! j = Some a /\
            np.searchsorted_left (np.nonzero (map negb bm)) i = S j.
Proof.
  intros (Hai & Ha & Hbetween).
  apply searchsorted_below; [apply nonzero_sorted | apply good_elem, Ha | exact Hai |].
  intros g Hg Hag. apply good_elem in Hg.
  destruct (Nat.le_gt_cases i g) as [Hle|Hlt]; [exact Hle|].
  rewrite Hbetween in Hg by lia. discriminate.
Qed.

Lemma filled_left lv sv bm v1 i b sb :
  length v1 = length bm ->
  bm !! i = Some true -> (forall j, (j < i)%nat -> bm !! j = Some true) ->
  nearest_above bm i b -> sv !! b = Some sb ->
  filled lv sv bm v1 !! i = Some sb.
Proof.
  intros Hvlen Hi Hbefore Hb Hsb.
  pose proof (above_lookup bm i b Hi Hb) as Hup.
  unfold filled. cbv zeta. set (G := np.nonzero (map negb bm)) in *.
  set (B := np.nonzero bm).
  assert (np.searchsorted_left G i = 0%nat) as Hss.
  { apply count_none, Forall_forall. intros g Hg. apply Nat.ltb_ge.
    destruct (Nat.le_gt_cases i g) as [Hle|Hlt]; [exact Hle|].
    apply good_elem in Hg. rewrite Hbefore in Hg by exact Hlt. discriminate. }
  rewrite Hss in Hup.
  assert (0 < length G)%nat as HGpos by (eapply lookup_lt_Some, Hup).
  assert (is_left G i = true) as HL by (unfold is_left; rewrite Hss; reflexivity).
  assert (is_right G i = false) as HR.
  { unfold is_right. rewrite Hss. apply Nat.eqb_neq. lia. }
  assert (is_mid G i = false) as HM by (unfold is_mid; rewrite HL; reflexivity).
  rewrite scatter_notin
    by (intros Hin; apply compress_map_elem in Hin as [_ Hin]; congruence).
  rewrite scatter_notin
    by (intros Hin; apply compress_map_elem in Hin as [_ Hin]; congruence).
  rewrite scatter_map_in.
  - rewrite (nth_lookup_Some G 0 0%nat b Hup), (nth_lookup_Some sv b 0%Q sb Hsb).
    reflexivity.
  - apply compress_map_NoDup, sorted_NoDup, nonzero_sorted.
  - apply compress_map_elem. split; [apply bad_elem, Hi | exact HL].
  - rewrite Hvlen. eapply lookup_lt_Some, Hi.
Qed.

Lemma filled_right lv sv bm v1 i a sa :
  length v1 = length bm ->
  bm !! i = Some true ->
  (forall j, (i < j < length bm)%nat -> bm !! j = Some true) ->
  nearest_below bm i a -> sv !! a = Some sa ->
  filled lv sv bm v1 !! i = Some sa.
Proof.
  intros Hvlen Hi Hafter Ha Hsa.
  destruct (below_lookup bm i a Ha) as (j & Hj & Hss).
  unfold filled. cbv zeta. set (G := np.nonzero (map negb bm)) in *.
  set (B := np.nonzero bm).
  assert (np.searchsorted_left G i = length G) as Hall.
  { apply count_all, Forall_forall. intros g Hg. apply Nat.ltb_lt.
    pose proof Hg as Hg'. apply good_elem in Hg'.
    apply nonzero_bound in Hg. rewrite length_map in Hg.
    destruct (Nat.lt_trichotomy g i) as [Hlt|[->|Hgt]]; [exact Hlt | congruence |].
    rewrite Hafter in Hg' by lia. discriminate. }
  assert (is_right G i = true) as HR.
  { unfold is_right. rewrite Hall. apply Nat.eqb_refl. }
  assert (is_mid G i = false) as HM.
  { unfold is_mid. rewrite HR. apply andb_false_r. }
  assert (length G - 1 = j)%nat as Hlast by lia.
  rewrite scatter_notin
    by (intros Hin; apply compress_map_elem in Hin as [_ Hin]; congruence).
  rewrite scatter_map_in.
  - rewrite Hlast, (nth_lookup_Some G j 0%nat a Hj), (nth_lookup_Some sv a 0%Q sa Hsa).
    reflexivity.
  - apply compress_map_NoDup, sorted_NoDup, nonzero_sorted.
  - apply compress_map_elem. split; [apply bad_elem, Hi | exact HR].
  - rewrite scatter_length, Hvlen. eapply lookup_lt_Some, Hi.
Qed.

Lemma filled_mid lv sv bm v1 i a c la li lc sa sc :
  length v1 = length bm ->
  bm !! i = Some true -> nearest_below bm i a -> nearest_above bm i c ->
  lv !! a = Some la -> lv !! i = Some li -> lv !! c = Some lc ->
  sv !! a = Some sa -> sv !! c = Some sc ->
  filled lv sv bm v1 !! i
  = Some ((- (la - li) * sc + (lc - li) * sa) / (lc - la))%Q.
Proof.
  intros Hvlen Hi Ha Hc Hla Hli Hlc Hsa Hsc.
  destruct (below_lookup bm i a Ha) as (j & Hj & Hss).
  pose proof (above_lookup bm i c Hi Hc) as Hup.
  unfold filled. cbv zeta. set (G := np.nonzero (map negb bm)) in *.
  set (B := np.nonzero bm).
  assert (np.searchsorted_left G i < length G)%nat as Hlt by (eapply lookup_lt_Some, Hup).
  assert (is_mid G i = true) as HM.
  { unfold is_mid, is_left, is_right. apply andb_true_iff.
    split; apply negb_true_iff, Nat.eqb_neq; lia. }
  rewrite scatter_map_in.
  - unfold on_line, lower, upper. rewrite Hss.
    replace (S j - 1)%nat with j by lia. rewrite <- Hss.
    rewrite (nth_lookup_Some G j 0%nat a Hj), (nth_lookup_Some G _ 0%nat c Hup).
    rewrite (nth_lookup_Some lv a 0%Q la Hla), (nth_lookup_Some lv i 0%Q li Hli),
      (nth_lookup_Some lv c 0%Q lc Hlc), (nth_lookup_Some sv a 0%Q sa Hsa),
      (nth_lookup_Some sv c 0%Q sc Hsc).
    reflexivity.
  - apply compress_map_NoDup, sorted_NoDup, nonzero_sorted.
  - apply compress_map_elem. split; [apply bad_elem, Hi | exact HM].
  - rewrite !scatter_length, Hvlen. eapply lookup_lt_Some, Hi.
Qed.

(** X13.  For a wavelength array, a spectrum and a mask of one length, with
    one good pixel at least, [interp_masker] returns a new array of that
    length in which every good pixel has the value it has in the spectrum. *)
Theorem interp_masker_keeps_good lam spec badmask h lv sv bm g :
  h !! lam = Some (floats lv) -> h !! spec = Some (floats sv) ->
  h !! badmask = Some (bools bm) ->
  length lv = length bm -> length sv = length bm ->
  bm !! g = Some false ->
  exists r h' out,
    interp_masker lam spec badmask h = (Ok r, h') /\
    h' !! r = Some (floats out) /\
    length out = length sv /\
    forall i, bm !! i = Some false -> out !! i = sv !! i.
Proof.
  intros Hlam Hspec Hmask Hllen Hslen Hg.
  destruct (interp_masker_run lam spec badmask h lv sv bm) as (r & h' & Hrun & Hout);
    try assumption; [eapply good_nonempty, Hg|].
  exists r, h', (filled lv sv bm sv).
  split; [exact Hrun|]. split; [exact Hout|]. split; [apply filled_length|].
  intros i Hi. apply filled_good, Hi.
Qed.

(** X14.  A bad pixel with no good pixel on its left takes the value of the
    first good pixel, and a bad pixel with no good pixel on its right the
    value of the last good one. *)
Theorem interp_masker_edges lam spec badmask h lv sv bm g :
  h !! lam = Some (floats lv) -> h !! spec = Some (floats sv) ->
  h !! badmask = Some (bools bm) ->
  length lv = length bm -> length sv = length bm ->
  bm !! g = Some false ->
  exists r h' out,
    interp_masker lam spec badmask h = (Ok r, h') /\
    h' !! r = Some (floats out) /\
    (forall i b sb,
        bm !! i = Some true -> (forall j, (j < i)%nat -> bm !! j = Some true) ->
        nearest_above bm i b -> sv !! b = Some sb -> out !! i = Some sb) /\
    (forall i a sa,
        bm !! i = Some true ->
        (forall j, (i < j < length bm)%nat -> bm !! j = Some true) ->
        nearest_below bm i a -> sv !! a = Some sa -> out !! i = Some sa).
Proof.
  intros Hlam Hspec Hmask Hllen Hslen Hg.
  destruct (interp_masker_run lam spec badmask h lv sv bm) as (r & h' & Hrun & Hout);
    try assumption; [eapply good_nonempty, Hg|].
  exists r, h', (filled lv sv bm sv).
  split; [exact Hrun|]. split; [exact Hout|]. split.
  - intros i b sb Hi Hbefore Hb Hsb. eapply filled_left; eassumption.
  - intros i a sa Hi Hafter Ha Hsa. eapply filled_right; eassumption.
Qed.

(** X15.  A bad pixel between two good ones takes the value at its
    wavelength of the straight line through its closest good neighbours,
    whose wavelengths differ. *)
Theorem interp_masker_gap lam spec badmask h lv sv bm i a c la li lc sa sc :
  h !! lam = Some (floats lv) -> h !! spec = Some (floats sv) ->
  h !! badmask = Some (bools bm) ->
  length lv = length bm -> length sv = length bm ->
  bm !! i = Some true -> nearest_below bm i a -> nearest_above bm i c ->
  lv !! a = Some la -> lv !! i = Some li -> lv !! c = Some lc ->
  ~ (lc == la)%Q ->
  sv !! a = Some sa -> sv !! c = Some sc ->
  exists r h' out,
    interp_masker lam spec badmask h = (Ok r, h') /\
    h' !! r = Some (floats out) /\
    out !! i = Some ((- (la - li) * sc + (lc - li) * sa) / (lc - la))%Q.
Proof.
  intros Hlam Hspec Hmask Hllen Hslen Hi Ha Hc Hla Hli Hlc _ Hsa Hsc.
  destruct (interp_masker_run lam spec badmask h lv sv bm) as (r & h' & Hrun & Hout);
    try assumption; [eapply good_nonempty, (proj1 (proj2 Ha))|].
  exists r, h', (filled lv sv bm sv).
  split; [exact Hrun|]. split; [exact Hout|].
  eapply filled_mid; eassumption.
Qed.

End masker.

Lemma interp_masker_keeps_good_witness :
  exists r h' out,
    make_ccf.interp_masker 0 1 3 sample.store = (Ok r, h') /\
    h' !! r = Some (make_ccf.floats out) /\
    length out = 5%nat /\
    forall i, [false; true; true; false; true] !! i = Some false ->
              out !! i = [9; 7; 100; 3; 8]%Q !! i.
Proof.
  apply (interp_masker_keeps_good 0 1 3 sample.store [1; 2; 3; 4; 5]%Q
           [9; 7; 100; 3; 8]%Q [false; true; true; false; true] 0); reflexivity.
Defined.

Lemma interp_masker_edges_witness :
  exists r h' out,
    make_ccf.interp_masker 0 1 2 fixtures.edge_store = (Ok r, h') /\
    h' !! r = Some (make_ccf.floats out) /\
    out !! 0%nat = Some 6%Q /\ out !! 3%nat = Some 7%Q.
Proof.
  destruct (interp_masker_edges 0 1 2 fixtures.edge_store [1; 2; 3; 4]%Q [5; 6; 7; 8]%Q
              [true; false; false; true] 1)
    as (r & h' & out & Hrun & Hout & Hleft & Hright); try reflexivity.
  exists r, h', out. split; [exact Hrun|]. split; [exact Hout|]. split.
  - apply (Hleft 0%nat 1%nat); [reflexivity | intros j Hj; lia | | reflexivity].
    split; [lia|]. split; [reflexivity | intros j Hj; lia].
  - apply (Hright 3%nat 2%nat); [reflexivity | intros j Hj; simpl in Hj; lia | | reflexivity].
    split; [lia|]. split; [reflexivity | intros j Hj; lia].
Defined.

Lemma interp_masker_gap_witness :
  exists r h' out,
    make_ccf.interp_masker 0 1 3 sample.store = (Ok r, h') /\
    h' !! r = Some (make_ccf.floats out) /\
    out !! 1%nat = Some ((- (1 - 2) * 3 + (4 - 2) * 9) / (4 - 1))%Q.
Proof.
  apply (interp_masker_gap 0 1 3 sample.store [1; 2; 3; 4; 5]%Q [9; 7; 100; 3; 8]%Q
           [false; true; true; false; true] 1 0 3); try reflexivity.
  - split; [lia|]. split; [reflexivity | intros j Hj; lia].
  - split; [lia|]. split; [reflexivity|].
    intros j Hj. assert (j = 2%nat) as -> by lia. reflexivity.
  - unfold Qeq. simpl. lia.
Defined.

(** ** The window of [apodize] *)

Section apodize_window.

Local Open Scope Q_scope.
Context `{np.Ufuncs}.
Import make_ccf.

Lemma rev_lookup {A} (l : list A) i :
  (i < length l)%nat -> rev l !! i = l !! (length l - S i)%nat.
Proof. intros Hi. rewrite rev_alt. apply (reverse_lookup l i Hi). Qed.

Lemma position_mirror (n i : nat) :
  (i < n)%nat ->
  inject_Z (0 + Z.of_nat (n - S i)) * 1
  == inject_Z (Z.of_nat n) - 1 - inject_Z (0 + Z.of_nat i) * 1.
Proof.
  intros Hi. replace (0 + Z.of_nat (n - S i))%Z with (Z.of_nat n - 1 - Z.of_nat i)%Z by lia.
  rewrite Z.add_0_l. unfold Zminus. rewrite !inject_Z_plus, !inject_Z_opp.
  change (inject_Z 1) with 1. ring.
Qed.

Lemma two_samples (n : nat) : (2 <= n)%nat -> 2 <= inject_Z (Z.of_nat n).
Proof. intros Hn. change 2 with (inject_Z 2). rewrite <- Zle_Qle. lia. Qed.

(** The two cosine tapers mirror each other. *)
Lemma taper_mirror (L x x' : Q) :
  (forall a b, a == b -> np.cos a == np.cos b) ->
  2 <= L -> x' == L - 1 - x -> taper L x' == taper L x.
Proof.
  intros cos_proper HL Hx. unfold taper. cbv zeta.
  destruct (Qlt_bool (- (15 # 100) * L) (x' - L + 1)) eqn:R';
    destruct (Qlt_bool x' ((15 # 100) * L)) eqn:L';
    destruct (Qlt_bool (- (15 # 100) * L) (x - L + 1)) eqn:R0;
    destruct (Qlt_bool x ((15 # 100) * L)) eqn:L0;
    repeat match goal with
           | E : Qlt_bool _ _ = true |- _ => apply Qlt_bool_iff in E
           | E : Qlt_bool ?a ?b = false |- _ =>
               assert (b <= a)
                 by (apply Qnot_lt_le; intros Hlt; apply Qlt_bool_iff in Hlt; congruence);
               clear E
           end;
    try (exfalso; lra).
  - rewrite (cos_proper ((L - x' - 1) / (15 # 100) / L * np.pi)
                        (x / (15 # 100) / L * np.pi)); [reflexivity|].
    assert (L - x' - 1 == x) as -> by lra. reflexivity.
  - rewrite (cos_proper (x' / (15 # 100) / L * np.pi)
                        ((L - x - 1) / (15 # 100) / L * np.pi)); [reflexivity|].
    assert (x' == L - x - 1) as -> by lra. reflexivity.
  - ring.
Qed.

(** X16.  The window of [apodize] is symmetric: apodizing the reversed
    spectrum gives the reversed apodized spectrum, for a cosine that maps
    equal arguments to equal values. *)
Theorem apodize_symmetric (spec : list Q) :
  (forall a b, a == b -> np.cos a == np.cos b) ->
  Forall2 Qeq (apodize (rev spec)) (rev (apodize spec)).
Proof.
  intros cos_proper.
  assert (forall l : list Q, length (apodize l) = length l) as Hlen.
  { intros l. rewrite apodize_taper, length_zip_with, length_map, positions_length. lia. }
  apply Forall2_same_length_lookup_2.
  { rewrite length_rev, !Hlen, length_rev. reflexivity. }
  intros i v w Hv Hw.
  assert (i < length spec)%nat as Hi.
  { apply lookup_lt_Some in Hv. rewrite Hlen, length_rev in Hv. exact Hv. }
  rewrite rev_lookup in Hw by (rewrite Hlen; exact Hi). rewrite Hlen in Hw.
  rewrite apodize_taper, lookup_zip_with, list_lookup_fmap in Hv, Hw.
  rewrite length_rev, positions_lookup in Hv by exact Hi.
  rewrite positions_lookup in Hw by lia.
  rewrite rev_lookup in Hv by exact Hi.
  destruct (spec !! (length spec - S i)%nat) as [s|]; [|discriminate].
  cbn in Hv, Hw. injection Hv as <-. injection Hw as <-.
  destruct (Nat.le_gt_cases 2 (length spec)) as [Hbig|Hone].
  - rewrite (taper_mirror _ (inject_Z (0 + Z.of_nat i) * 1)
                            (inject_Z (0 + Z.of_nat (length spec - S i)) * 1));
      [reflexivity | exact cos_proper | apply two_samples, Hbig
      | apply position_mirror, Hi].
  - replace (length spec - S i)%nat with i by lia. reflexivity.
Qed.

Lemma taper_range (L x : Q) :
  (forall q, -1 <= np.cos q <= 1) -> 0 <= taper L x <= 1.
Proof.
  intros cos_range. unfold taper. cbv zeta.
  destruct (Qlt_bool _ (x - L + 1)).
  - pose proof (cos_range ((L - x - 1) / (15 # 100) / L * np.pi)). lra.
  - destruct (Qlt_bool x _).
    + pose proof (cos_range (x / (15 # 100) / L * np.pi)). lra.
    + lra.
Qed.

(** X17.  [apodize] never amplifies and never flips a sample: with a cosine
    between [-1] and [1], every output sample is the input sample times a
    factor between [0] and [1]. *)
Theorem apodize_bounded (spec : list Q) (i : nat) (s : Q) :
  (forall q, -1 <= np.cos q <= 1) ->
  spec !! i = Some s ->
  exists t, apodize spec !! i = Some (t * s) /\ 0 <= t <= 1 /\
            Qabs (t * s) <= Qabs s.
Proof.
  intros cos_range Hi. pose proof (lookup_lt_Some _ _ _ Hi) as Hlt.
  set (w := taper (inject_Z (Z.of_nat (length spec))) (inject_Z (0 + Z.of_nat i) * 1)).
  assert (0 <= w <= 1) as Hw by apply taper_range, cos_range.
  exists w. split.
  { rewrite apodize_taper, lookup_zip_with, list_lookup_fmap.
    rewrite positions_lookup by exact Hlt. rewrite Hi. reflexivity. }
  split; [exact Hw|]. clearbody w.
  apply Qle_trans with (1 * Qabs s); [|apply Qle_lteq; right; ring].
  apply Qle_trans with (w * Qabs s).
  - apply Qle_lteq. right. rewrite Qabs_Qmult, (Qabs_pos w) by apply Hw. reflexivity.
  - apply Qmult_le_compat_r; [apply Hw | apply Qabs_nonneg].
Qed.

End apodize_window.

Lemma apodize_symmetric_witness :
  Forall2 Qeq (@make_ccf.apodize approx (rev [3; 4; 5; 6; 7; 8; 9; 10]%Q))
              (rev (@make_ccf.apodize approx [3; 4; 5; 6; 7; 8; 9; 10]%Q)).
Proof.
  apply (@apodize_symmetric approx).
  intros a b Hab. simpl. rewrite Hab. reflexivity.
Defined.

Lemma bounded_cos_range (q : Q) : (-1 <= @np.cos fixtures.bounded q <= 1)%Q.
Proof.
  simpl. assert (0 <= q * q)%Q as Hsq by nra.
  split.
  - apply Qle_shift_div_l; lra.
  - apply Qle_shift_div_r; lra.
Qed.

Lemma apodize_bounded_witness :
  exists t,
    @make_ccf.apodize fixtures.bounded [3; 4; 5; 6; 7; 8; 9; 10]%Q !! 0%nat = Some (t * 3)%Q /\
    (0 <= t <= 1)%Q /\ (Qabs (t * 3) <= Qabs 3)%Q.
Proof.
  apply (@apodize_bounded fixtures.bounded [3; 4; 5; 6; 7; 8; 9; 10]%Q 0 3%Q).
  - apply bounded_cos_range.
  - reflexivity.
Defined.

(** ** The list of preprocessed models *)

Section model_list_properties.

Import make_ccf.

Variable preprocess_model :
  list Q -> list Q -> list Q -> option Q -> CCFConfig.t -> list Q -> result (list Q).
Variables (logl lammodels : list Q) (params : list (list Q)) (ccfconf : CCFConfig.t).
Variable vs : list (option Q).

Let inner (im : nat * list Q)
    (st : list (list Q) * list (result (list Q)) * list (option Q)) (vsini : option Q) :=
  let '(retparams, q, vsinisList) := st in
  p ← py_index params (Z.of_nat im.1);
  Ok (retparams ++ [p],
      q ++ [preprocess_model logl lammodels im.2 vsini ccfconf p],
      vsinisList ++ [vsini]).

Let outer (st : list (list Q) * list (result (list Q)) * list (option Q))
    (im : nat * list Q) :=
  for_each vs (inner im) st.

(** One pass over the rotation values appends one entry per value. *)
Lemma inner_loop i m : forall l rp q vl rp' q' vl',
  for_each l (inner (i, m)) (rp, q, vl) = Ok (rp', q', vl') ->
  exists drp dq,
    rp' = rp ++ drp /\ q' = q ++ dq /\ vl' = vl ++ l /\
    length drp = length l /\ length dq = length l /\
    forall j v, l !! j = Some v ->
      exists p, params !! i = Some p /\ drp !! j = Some p /\
                dq !! j = Some (preprocess_model logl lammodels m v ccfconf p).
Proof.
  induction l as [|v0 l IH]; intros rp q vl rp' q' vl' Hrun.
  - injection Hrun as <- <- <-. exists [], []. rewrite !app_nil_r.
    repeat split; try reflexivity. intros j v Hj. rewrite lookup_nil in Hj. discriminate.
  - cbn [for_each] in Hrun.
    change (inner (i, m) (rp, q, vl) v0)
      with (p ← py_index params (Z.of_nat i);
            Ok (rp ++ [p], q ++ [preprocess_model logl lammodels m v0 ccfconf p],
                vl ++ [v0])) in Hrun.
    destruct (py_index params (Z.of_nat i)) as [p|e] eqn:Ep;
      cbn [mbind result_bind] in Hrun; [|discriminate].
    apply IH in Hrun as (drp & dq & -> & -> & -> & Hl1 & Hl2 & Hat).
    exists (p :: drp), (preprocess_model logl lammodels m v0 ccfconf p :: dq).
    rewrite <- !app_assoc. cbn [app length].
    repeat split; try reflexivity; try (f_equal; assumption).
    intros [|j] v Hj.
    + injection Hj as <-. exists p. repeat split.
      apply (py_index_lookup params (Z.of_nat i) p) in Ep; [|lia].
      rewrite Nat2Z.id in Ep. exact Ep.
    + apply (Hat j v Hj).
Qed.

(** The pass over the models appends one block per model, in order. *)
Lemma outer_loop : forall ms s rp q vl rp' q' vl',
  for_each (zip (seq s (length ms)) ms) outer (rp, q, vl) = Ok (rp', q', vl') ->
  exists drp dq dvl,
    rp' = rp ++ drp /\ q' = q ++ dq /\ vl' = vl ++ dvl /\
    length drp = (length ms * length vs)%nat /\
    length dq = (length ms * length vs)%nat /\
    length dvl = (length ms * length vs)%nat /\
    forall i j m v, ms !! i = Some m -> vs !! j = Some v ->
      exists p, params !! (s + i)%nat = Some p /\
                drp !! (i * length vs + j)%nat = Some p /\
                dvl !! (i * length vs + j)%nat = Some v /\
                dq !! (i * length vs + j)%nat
                = Some (preprocess_model logl lammodels m v ccfconf p).
Proof.
  induction ms as [|m0 ms IH]; intros s rp q vl rp' q' vl' Hrun.
  - injection Hrun as <- <- <-. exists [], [], []. rewrite !app_nil_r.
    repeat split; try reflexivity. intros i j m v Hi. rewrite lookup_nil in Hi.
    discriminate.
  - cbn [length seq zip zip_with for_each] in Hrun.
    change (outer (rp, q, vl) (s, m0)) with (for_each vs (inner (s, m0)) (rp, q, vl))
      in Hrun.
    destruct (for_each vs (inner (s, m0)) (rp, q, vl)) as [[[rp1 q1] vl1]|e] eqn:E1;
      [|discriminate].
    cbn [mbind result_bind] in Hrun.
    apply inner_loop in E1 as (d1 & e1 & -> & -> & -> & Hd1 & He1 & Hat1).
    apply IH in Hrun as (d2 & e2 & f2 & -> & -> & -> & Hd2 & He2 & Hf2 & Hat2).
    exists (d1 ++ d2), (e1 ++ e2), (vs ++ f2).
    rewrite <- !app_assoc, !length_app. cbn [length].
    repeat split; try reflexivity; try lia.
    intros [|i] j m v Hi Hj.
    + injection Hi as <-. destruct (Hat1 j v Hj) as (p & Hp & Hdj & Hej).
      exists p. rewrite Nat.add_0_r. cbn [Nat.mul Nat.add].
      rewrite !lookup_app_l by (apply lookup_lt_Some in Hj; lia).
      repeat split; assumption.
    + cbn [lookup list_lookup] in Hi.
      destruct (Hat2 i j m v Hi Hj) as (p & Hp & Hdj & Hvj & Hej).
      exists p. replace (s + S i)%nat with (S s + i)%nat by lia.
      replace (S i * length vs + j)%nat with (length vs + (i * length vs + j))%nat by lia.
      rewrite !lookup_app_r by lia.
      replace (length vs + (i * length vs + j) - length d1)%nat
        with (i * length vs + j)%nat by lia.
      replace (length vs + (i * length vs + j) - length e1)%nat
        with (i * length vs + j)%nat by lia.
      replace (length vs + (i * length vs + j) - length vs)%nat
        with (i * length vs + j)%nat by lia.
      repeat split; assumption.
Qed.

(** Collecting the results keeps their order. *)
Lemma collect_loop : forall (q : list (result (list Q))) acc res,
  for_each q (fun res curx => c_model ← curx; Ok (res ++ [c_model])) acc = Ok res ->
  exists d, res = acc ++ d /\ q = map Ok d.
Proof.
  induction q as [|t q IH]; intros acc res Hrun.
  - injection Hrun as <-. exists []. rewrite app_nil_r. split; reflexivity.
  - cbn [for_each] in Hrun. destruct t as [r|e]; [|discriminate].
    cbn [mbind result_bind] in Hrun.
    apply IH in Hrun as (d & -> & ->). exists (r :: d).
    rewrite <- app_assoc. split; reflexivity.
Qed.

Lemma asarray2d_same parts m : asarray2d parts = Ok m -> m = parts.
Proof.
  unfold asarray2d. destruct parts as [|r rest]; [congruence|].
  destruct (forallb _ rest); [congruence | discriminate].
Qed.

Lemma inner_total i m p : forall l rp q vl,
  params !! i = Some p ->
  for_each l (inner (i, m)) (rp, q, vl)
  = Ok (rp ++ map (fun _ => p) l,
        q ++ map (fun v => preprocess_model logl lammodels m v ccfconf p) l,
        vl ++ l).
Proof.
  induction l as [|v0 l IH]; intros rp q vl Hp.
  - cbn. rewrite !app_nil_r. reflexivity.
  - cbn [for_each].
    change (inner (i, m) (rp, q, vl) v0)
      with (p ← py_index params (Z.of_nat i);
            Ok (rp ++ [p], q ++ [preprocess_model logl lammodels m v0 ccfconf p],
                vl ++ [v0])).
    rewrite (py_index_nat params i p Hp). cbn [mbind result_bind].
    rewrite IH by exact Hp. rewrite <- !app_assoc. reflexivity.
Qed.

Lemma outer_total (P : result (list Q) -> Prop) :
  (forall m v p, P (preprocess_model logl lammodels m v ccfconf p)) ->
  forall ms s rp q vl,
    (forall i, (i < length ms)%nat -> is_Some (params !! (s + i)%nat)) ->
    Forall P q ->
    exists rp' q' vl',
      for_each (zip (seq s (length ms)) ms) outer (rp, q, vl) = Ok (rp', q', vl') /\
      Forall P q'.
Proof.
  intros HP. induction ms as [|m0 ms IH]; intros s rp q vl Hpar Hq.
  - exists rp, q, vl. split; [reflexivity | exact Hq].
  - cbn [length seq zip zip_with for_each].
    change (outer (rp, q, vl) (s, m0)) with (for_each vs (inner (s, m0)) (rp, q, vl)).
    destruct (Hpar 0%nat) as [p Hp]; [simpl; lia|]. rewrite Nat.add_0_r in Hp.
    rewrite (inner_total s m0 p vs rp q vl Hp). cbn [mbind result_bind].
    apply IH.
    + intros i Hi. replace (S s + i)%nat with (s + S i)%nat by lia.
      apply Hpar. simpl. lia.
    + apply Forall_app. split; [exact Hq|].
      apply Forall_forall. intros t Ht. apply list_elem_of_In, in_map_iff in Ht.
      destruct Ht as (v & <- & _). apply HP.
Qed.

Lemma collect_total (n : nat) : forall (q : list (result (list Q))) acc,
  Forall (fun t => exists r, t = Ok r /\ length r = n) q ->
  Forall (fun r => length r = n) acc ->
  exists res,
    for_each q (fun res curx => c_model ← curx; Ok (res ++ [c_model])) acc = Ok res /\
    Forall (fun r => length r = n) res.
Proof.
  induction q as [|t q IH]; intros acc Hq Hacc.
  - exists acc. split; [reflexivity | exact Hacc].
  - apply Forall_cons in Hq as [(r & -> & Hr) Hq]. cbn [for_each mbind result_bind].
    apply IH; [exact Hq|]. apply Forall_app. split; [exact Hacc|].
    constructor; [exact Hr | constructor].
Qed.

Lemma asarray2d_uniform (n : nat) parts :
  Forall (fun r => length r = n) parts -> asarray2d parts = Ok parts.
Proof.
  intros Hparts. unfold asarray2d. destruct parts as [|r rest]; [reflexivity|].
  apply Forall_cons in Hparts as [Hr Hrest].
  replace (forallb (fun r' => length r' =? length r) rest) with true; [reflexivity|].
  symmetry. apply forallb_forall. intros r' Hin. apply Nat.eqb_eq.
  rewrite Forall_forall in Hrest. rewrite Hr. apply Hrest, list_elem_of_In, Hin.
Qed.

End model_list_properties.

Section model_list_aligned.

Import make_ccf.

Variable preprocess_model :
  list Q -> list Q -> list Q -> option Q -> CCFConfig.t -> list Q -> result (list Q).

(** X18.  What [preprocess_model_list] returns is aligned: with [nv]
    rotation values ([None] alone when no list is given), the three returned
    sequences have [len(models) * nv] entries, and entry [i * nv + j] holds
    the parameters of model [i], the rotation value [j], and the vector that
    [preprocess_model] returns for that model and that rotation value on the
    grid [np.linspace(logl0, logl1, npoints)]. *)
Theorem preprocess_model_list_aligned lammodels models params ccfconf vsinis
    res retparams vsinisList :
  preprocess_model_list preprocess_model lammodels models params ccfconf vsinis
  = Ok (res, retparams, vsinisList) ->
  let vs := match vsinis with None => [None] | Some l => l end in
  let n := (length models * length vs)%nat in
  length res = n /\ length retparams = n /\ length vsinisList = n /\
  exists logl,
    np.linspace (CCFConfig.logl0 ccfconf) (CCFConfig.logl1 ccfconf)
      (CCFConfig.npoints ccfconf) = Ok logl /\
    forall i j m v, models !! i = Some m -> vs !! j = Some v ->
      exists p r,
        params !! i = Some p /\
        retparams !! (i * length vs + j)%nat = Some p /\
        vsinisList !! (i * length vs + j)%nat = Some v /\
        res !! (i * length vs + j)%nat = Some r /\
        preprocess_model logl lammodels m v ccfconf p = Ok r.
Proof.
  intros Hrun vs n. unfold preprocess_model_list in Hrun.
  destruct (np.linspace _ _ _) as [logl|e]; [|discriminate].
  cbn [mbind result_bind] in Hrun. cbv zeta in Hrun. fold vs in Hrun.
  unfold enumerate in Hrun.
  match type of Hrun with
  | context [for_each (zip _ models) ?f ?s0] =>
      destruct (for_each (zip (seq 0 (length models)) models) f s0)
        as [[[rp q] vl]|e] eqn:Eouter; [|discriminate]
  end.
  cbn [mbind result_bind] in Hrun.
  destruct (for_each q _ []) as [res0|e] eqn:Ecollect; [|discriminate].
  cbn [mbind result_bind] in Hrun.
  destruct (asarray2d res0) as [res1|e] eqn:Earr; [|discriminate].
  cbn [mbind result_bind] in Hrun. injection Hrun as <- <- <-.
  apply asarray2d_same in Earr as ->.
  apply collect_loop in Ecollect as (d & -> & ->).
  apply (outer_loop preprocess_model logl lammodels params ccfconf vs) in Eouter
    as (drp & dq & dvl & -> & Hq & -> & Hl1 & Hl2 & Hl3 & Hat).
  cbn [app] in *. subst dq. rewrite length_map in Hl2.
  repeat split; try assumption.
  exists logl. split; [reflexivity|].
  intros i j m v Hi Hj. destruct (Hat i j m v Hi Hj) as (p & Hp & Hdj & Hvj & Hej).
  change (map Ok d) with (Ok <$> d) in Hej. rewrite list_lookup_fmap in Hej.
  destruct (d !! (i * length vs + j)%nat) as [r|] eqn:Er; [|discriminate].
  injection Hej as Hej. exists p, r. repeat split; try assumption. symmetry. exact Hej.
Qed.

(** X19.  [preprocess_model_list] returns whenever the number of points is
    not negative, there is a row of parameters for every model, and
    [preprocess_model] returns for every model and rotation value a vector
    as long as the logarithmic wavelength grid. *)
Theorem preprocess_model_list_returns lammodels models params ccfconf vsinis :
  (0 <= CCFConfig.npoints ccfconf)%Z ->
  (length models <= length params)%nat ->
  (forall logl m v p,
      exists r, preprocess_model logl lammodels m v ccfconf p = Ok r /\
                length r = length logl) ->
  exists out,
    preprocess_model_list preprocess_model lammodels models params ccfconf vsinis
    = Ok out.
Proof.
  intros Hn Hpar Hpm. unfold preprocess_model_list.
  assert (exists logl, np.linspace (CCFConfig.logl0 ccfconf) (CCFConfig.logl1 ccfconf)
                         (CCFConfig.npoints ccfconf) = Ok logl) as [logl ->].
  { unfold np.linspace. destruct (Z.ltb_spec (CCFConfig.npoints ccfconf) 0); [lia|].
    eauto. }
  cbn [mbind result_bind]. cbv zeta.
  set (vs := match vsinis with None => [None] | Some l => l end).
  unfold enumerate.
  destruct (outer_total preprocess_model logl lammodels params ccfconf vs
              (fun t => exists r, t = Ok r /\ length r = length logl)
              (fun m v p => Hpm logl m v p) models 0%nat [] [] [])
    as (rp & q & vl & Hrun & Hq).
  { intros i Hi. apply lookup_lt_is_Some. simpl. lia. }
  { constructor. }
  match goal with
  | |- context [for_each (zip _ models) ?f ?s0] =>
      change (for_each (zip (seq 0 (length models)) models) f s0)
        with (for_each (zip (seq 0 (length models)) models)
                (fun st im =>
                   for_each vs
                     (fun st vsini =>
                        let '(retparams, q, vsinisList) := st in
                        p ← py_index params (Z.of_nat im.1);
                        Ok (retparams ++ [p],
                            q ++ [preprocess_model logl lammodels im.2 vsini ccfconf p],
                            vsinisList ++ [vsini])) st) s0)
  end.
  rewrite Hrun. cbn [mbind result_bind].
  destruct (collect_total (length logl) q [] Hq) as (res & -> & Hres); [constructor|].
  cbn [mbind result_bind]. rewrite (asarray2d_uniform (length logl) res Hres).
  cbn [mbind result_bind]. eauto.
Qed.

End model_list_aligned.

Lemma preprocess_model_list_aligned_witness :
  exists res retparams vsinisList,
    make_ccf.preprocess_model_list fixtures.scaled [1; 2]%Q [[1; 2]; [3; 4]]%Q
      [[10]; [20]]%Q fixtures.two_points (Some [Some 2; None]%Q)
    = Ok (res, retparams, vsinisList) /\
    length res = 4%nat /\ length retparams = 4%nat /\ length vsinisList = 4%nat /\
    retparams !! 3%nat = Some [20]%Q /\ vsinisList !! 3%nat = Some None.
Proof.
  eexists _, _, _. split; [vm_compute; reflexivity|].
  match goal with
  | |- length ?res = _ /\ length ?rp = _ /\ length ?vl = _ /\ _ =>
      destruct (preprocess_model_list_aligned fixtures.scaled [1; 2]%Q
                  [[1; 2]; [3; 4]]%Q [[10]; [20]]%Q fixtures.two_points
                  (Some [Some 2; None]%Q) res rp vl)
        as (H1 & H2 & H3 & logl & _ & Hat); [vm_compute; reflexivity|]
  end.
  split; [exact H1|]. split; [exact H2|]. split; [exact H3|].
  destruct (Hat 1%nat 1%nat [3; 4]%Q None) as (p & r & Hp & Hrp & Hvl & _);
    [reflexivity | reflexivity |].
  injection Hp as <-. split; [exact Hrp | exact Hvl].
Defined.

Lemma preprocess_model_list_returns_witness :
  exists out,
    make_ccf.preprocess_model_list fixtures.scaled [1; 2]%Q [[1; 2]; [3; 4]]%Q
      [[10]; [20]]%Q fixtures.two_points None
    = Ok out.
Proof.
  apply (preprocess_model_list_returns fixtures.scaled [1; 2]%Q [[1; 2]; [3; 4]]%Q
           [[10]; [20]]%Q fixtures.two_points None).
  - simpl. lia.
  - simpl. lia.
  - intros logl m v p. eexists. split; [reflexivity|]. apply length_map.
Defined.

(** ** Triangulation artifacts *)

Section triang_artifact.

Context `{spec_inter.Files} `{spec_inter.Scipy} `{np.Ufuncs}.
Import spec_inter.

(** X20.  From the files of a triangulation artifact a first call of
    [getInterpolator] succeeds and caches what it returns, also when the
    dictionary holds a regular grid as well: the interpolator it returns
    evaluates a parameter vector as [TriInterp] does on the mapped vector
    with [exp=True], and its [outsideFlag] is the value at the mapped vector
    of the linear interpolator of the vertex flags; the two files of the
    setup are read, in this order. *)
Theorem getInterpolator_triang HR config b w dats lam mapper parnames triang extraflags :
  interps w !! HR = None ->
  triang_setup HR config dats lam mapper parnames triang extraflags ->
  exists o w' lib,
    getInterpolator HR config b w = (Return o, w') /\
    interps w' !! HR = Some o /\
    config !! "template_lib" = Some lib /\
    reads w' = reads w ++ [String.append lib (INTERPOL_DAT_NAME HR);
                           String.append lib (INTERPOL_PKL_NAME HR)] /\
    (forall p, SpecInterpolator.eval o (by_position p)
               = of_result (TriInterp.__call__ (TriInterp.__init__ triang dats true)
                              (forward mapper p))) /\
    (forall p, SpecInterpolator.outsideFlag o p
               = Return (level (LinearNDInterpolator triang extraflags
                                  (forward mapper p)))).
Proof.
  intros Hmiss (lib & fd & vecs & Hlib & Hdats & Hfd & Hlam & Hvec & Hmap & Hpar
                & Htri & Hflags).
  eexists _, _, lib. split.
  { unfold getInterpolator. rewrite Hmiss. cbv zeta.
    rewrite W_bind_run. unfold pure at 1. rewrite Hlib. cbn [item].
    rewrite W_bind_run. unfold read at 1. rewrite Hdats.
    rewrite W_bind_run. unfold pure at 1. cbn [item].
    rewrite W_bind_run. unfold read at 1. rewrite Hfd.
    rewrite W_bind_run. unfold pure at 1. rewrite Hlam. cbn [item].
    rewrite W_bind_run. unfold pure at 1. rewrite Hvec. cbn [item].
    rewrite W_bind_run. unfold pure at 1. rewrite Hmap. cbn [item].
    rewrite W_bind_run. unfold pure at 1. rewrite Hpar. cbn [item].
    rewrite W_bind_run. rewrite Htri.
    rewrite W_bind_run. unfold pure at 1. rewrite Hflags. cbn [item].
    reflexivity. }
  cbn [interps reads]. split; [apply lookup_insert_eq|].
  split; [exact Hlib|]. split; [rewrite <- app_assoc; reflexivity|].
  split; reflexivity.
Qed.

End triang_artifact.

Lemma getInterpolator_triang_witness :
  exists o w' lib,
    @spec_inter.getInterpolator fixtures.hull_disk "hull" fixtures.config true
      fixtures.empty_world = (Return o, w') /\
    spec_inter.interps w' !! "hull" = Some o /\
    fixtures.config !! "template_lib" = Some lib /\
    spec_inter.reads w' = ["lib/interpdat_hull"; "lib/interp_hull"] /\
    @spec_inter.SpecInterpolator.eval approx o (spec_inter.by_position [1 # 4]%Q)
    = of_result (@spec_inter.TriInterp.__call__ approx
                   (spec_inter.TriInterp.__init__ fixtures.segment fixtures.twins true)
                   [1 # 4]%Q).
Proof.
  destruct (@getInterpolator_triang fixtures.hull_disk fixtures.no_scipy approx
              "hull" fixtures.config true fixtures.empty_world fixtures.twins
              [4000; 5000]%Q fixtures.identity ["teff"] fixtures.segment [0; 1]%Q)
    as (o & w' & lib & Hcall & Hhit & Hlib & Hreads & Heval & _).
  - reflexivity.
  - exists "lib/", fixtures.both_fd, []. repeat split; reflexivity.
  - exists o, w', lib. split; [exact Hcall|]. split; [exact Hhit|].
    split; [exact Hlib|].
    assert (lib = "lib/") as -> by (vm_compute in Hlib; congruence).
    split; [exact Hreads | exact (Heval [1 # 4]%Q)].
Defined.

(** ** From the files to a spectrum *)

Section end_to_end.

Context `{spec_inter.Files} `{np.Ufuncs}.
Import spec_inter.

Lemma regular_run HR config b w dats lam mapper parnames uvecs idgrid :
  interps w !! HR = None ->
  regular_setup HR config dats lam mapper parnames uvecs idgrid ->
  exists o w',
    getInterpolator HR config b w = (Return o, w') /\
    SpecInterpolator.interper o
    = interper_grid (GridInterp.__init__ uvecs idgrid dats true) /\
    SpecInterpolator.mapper o = mapper /\
    SpecInterpolator.parnames o = parnames.
Proof.
  intros Hmiss (lib & fd & vecs & r & Hlib & Hdats & Hfd & Hlam & Hvec & Hmap & Hpar
                & Htri & Hreg & Huv & Hid).
  eexists _, _. split.
  { unfold getInterpolator. rewrite Hmiss. cbv zeta.
    rewrite W_bind_run. unfold pure at 1. rewrite Hlib. cbn [item].
    rewrite W_bind_run. unfold read at 1. rewrite Hdats.
    rewrite W_bind_run. unfold pure at 1. cbn [item].
    rewrite W_bind_run. unfold read at 1. rewrite Hfd.
    rewrite W_bind_run. unfold pure at 1. rewrite Hlam. cbn [item].
    rewrite W_bind_run. unfold pure at 1. rewrite Hvec. cbn [item].
    rewrite W_bind_run. unfold pure at 1. rewrite Hmap. cbn [item].
    rewrite W_bind_run. unfold pure at 1. rewrite Hpar. cbn [item].
    rewrite W_bind_run. rewrite Htri, Hreg.
    rewrite W_bind_run. unfold pure at 1. rewrite Huv. cbn [item].
    rewrite W_bind_run. unfold pure at 1. rewrite Hid. cbn [item].
    reflexivity. }
  repeat split; reflexivity.
Qed.

(** X21.  From the files of a well-formed regular-grid artifact to a
    spectrum: the interpolator that [getInterpolator] builds evaluates every
    dictionary that holds all the parameter names, and whose mapped vector
    has a coordinate for each axis, to a spectrum of the length of a
    template; it raises nothing. *)
Theorem regular_eval_returns HR config b w dats lam mapper parnames uvecs idgrid d l :
  interps w !! HR = None ->
  regular_setup HR config dats lam mapper parnames uvecs idgrid ->
  well_formed uvecs idgrid dats ->
  Forall2 (fun n v => d !! n = Some v) parnames l ->
  (length uvecs <= length (forward mapper l))%nat ->
  exists o w' spec,
    getInterpolator HR config b w = (Return o, w') /\
    SpecInterpolator.eval o (by_name d) = Return (array spec) /\
    length spec = ncols dats.
Proof.
  intros Hmiss Hsetup Hwf Hd Hl.
  destruct (regular_run HR config b w dats lam mapper parnames uvecs idgrid Hmiss Hsetup)
    as (o & w' & Hrun & Hinter & Hmap & Hnames).
  assert (exists spec,
             GridInterp.__call__ (GridInterp.__init__ uvecs idgrid dats true)
               (forward mapper l) = Ok (array spec) /\
             length spec = ncols dats) as (spec & Hcall & Hlen).
  { destruct (call_cases uvecs idgrid dats true (forward mapper l) Hwf Hl)
      as [Hflat|(cs & rows & _ & _ & _ & Hmem & Hcall)].
    - eexists. split; [exact Hflat|]. apply length_replicate.
    - eexists. split; [exact Hcall|]. cbv zeta. rewrite length_map.
      apply dot_length. destruct Hwf as (_ & _ & _ & _ & Hrect).
      rewrite Forall_forall in Hrect, Hmem |- *. intros r Hr. apply Hrect, Hmem, Hr. }
  exists o, w', spec. split; [exact Hrun|]. split; [|exact Hlen].
  unfold SpecInterpolator.eval. rewrite Hnames, (ordered_values d parnames l Hd).
  cbn [mbind outcome_bind]. rewrite Hmap, Hinter, Hcall. reflexivity.
Qed.

End end_to_end.

Lemma regular_eval_returns_witness :
  exists o w' spec,
    @spec_inter.getInterpolator fixtures.disk "sdss" fixtures.config true
      fixtures.empty_world = (Return o, w') /\
    @spec_inter.SpecInterpolator.eval approx o
      (spec_inter.by_name {["teff" := 2%Q; "logg" := 20%Q]})
    = Return (spec_inter.array spec) /\
    length spec = 2%nat.
Proof.
  apply (@regular_eval_returns fixtures.disk approx "sdss" fixtures.config true
           fixtures.empty_world sample.dats [4000; 5000]%Q fixtures.identity
           ["teff"; "logg"] sample.uvecs sample.idgrid
           {["teff" := 2%Q; "logg" := 20%Q]} [2; 20]%Q).
  - reflexivity.
  - exists "lib/", fixtures.regular_fd, [], true. repeat split; reflexivity.
  - split; [exact sample_sorted|]. split; [split; reflexivity|].
    split; [repeat constructor|]. split; [discriminate | repeat constructor].
  - repeat constructor.
  - simpl. lia.
Defined.

(** ** Processing many files *)

Section domany_properties.

Import desi_fit.

Variable glob : string -> list string.
Variable path_exists : string -> bool.
Variable procdesi : task -> outcome unit.

Lemma IO_bind_run {A B} (m : IO A) (f : A -> IO B) w :
  (m ≫= f) w
  = match m w with
    | (Return a, w') => f a w'
    | (Throw e, w') => (Throw e, w')
    end.
Proof. reflexivity. Qed.

Lemma split_nonempty sep s : split sep s <> [].
Proof.
  destruct s as [|c s]; simpl; [discriminate|].
  destruct (Ascii.eqb c sep); [discriminate|]. destruct (split sep s); discriminate.
Qed.

Lemma split_last f : py_index (split "/"%char f) (-1) = Ok (basename f).
Proof.
  destruct (py_index_last (split "/"%char f) (split_nonempty _ f)) as (a & Ha & Hlast).
  unfold basename. rewrite Ha, Hlast. reflexivity.
Qed.

(** With a pool, the loop hands every file to it. *)
Lemma submit_loop oprefix fig_prefix overwrite : forall fs res w,
  exists lines,
    for_each fs (each_file path_exists procdesi (Some true) oprefix fig_prefix overwrite)
      res w
    = (Return (res ++ map (task_of oprefix fig_prefix) fs),
       {| stdout := stdout w ++ lines;
          submitted := submitted w ++ map (task_of oprefix fig_prefix) fs;
          called := called w; joined := joined w |}).
Proof.
  induction fs as [|f fs IH]; intros res w.
  - exists []. cbn. rewrite !app_nil_r. destruct w; reflexivity.
  - cbn [for_each]. rewrite IO_bind_run. unfold each_file at 1.
    rewrite IO_bind_run, split_last. cbn [of_result]. cbv zeta. rewrite IO_bind_run.
    fold (task_of oprefix fig_prefix f).
    destruct (negb overwrite && path_exists _).
    + unfold print at 1. rewrite IO_bind_run. unfold local at 1.
      rewrite IO_bind_run. unfold apply_async at 1. cbn [stdout submitted called joined].
      unfold mret at 1, IO_ret at 1.
      match goal with
      | |- context [for_each fs ?body ?r ?w1] => destruct (IH r w1) as (lines & ->)
      end.
      cbn [stdout submitted called joined].
      exists (String.append "skipping, products already exist " f :: lines).
      rewrite <- !app_assoc. reflexivity.
    + unfold mret at 1, IO_ret at 1. rewrite IO_bind_run. unfold local at 1.
      rewrite IO_bind_run. unfold apply_async at 1. cbn [stdout submitted called joined].
      unfold mret at 1, IO_ret at 1.
      match goal with
      | |- context [for_each fs ?body ?r ?w1] => destruct (IH r w1) as (lines & ->)
      end.
      cbn [stdout submitted called joined].
      exists lines. rewrite <- !app_assoc. reflexivity.
Qed.

(** Collecting the results changes nothing, and stops at the first task
    that raised. *)
Lemma get_loop : forall res w,
  (for_each res (fun _ r => get procdesi r) tt w = (Return tt, w) /\
   Forall (fun t => procdesi t = Return tt) res)
  \/ exists e t, t ∈ res /\ procdesi t = Throw e /\
                 for_each res (fun _ r => get procdesi r) tt w = (Throw e, w).
Proof.
  induction res as [|t res IH]; intros w.
  - left. split; [reflexivity | constructor].
  - assert (for_each (t :: res) (fun _ r => get procdesi r) tt w
            = match procdesi t with
              | Return _ => for_each res (fun _ r => get procdesi r) tt w
              | Throw e => (Throw e, w)
              end) as ->.
    { cbn [for_each]. rewrite IO_bind_run. unfold get at 1.
      destruct (procdesi t) as [[]|]; reflexivity. }
    destruct (procdesi t) as [[]|e] eqn:Et.
    + destruct (IH w) as [[Hrun Hall]|(e & t' & Hin & Ht' & Hrun)].
      * left. split; [exact Hrun | constructor; assumption].
      * right. exists e, t'. split; [right; exact Hin|]. split; [exact Ht' | exact Hrun].
    + right. exists e, t. split; [left|]. split; [exact Et | reflexivity].
Qed.

(** X22.  [domany] never skips a file.  With one thread or fewer it raises
    [UnboundLocalError] before it does anything; with more threads it hands
    every file of the mask to the pool, once and in order, with the output
    name [oprefix + 'outtab_' + basename], whatever [overwrite] is and
    whether the output exists (only a message is printed), and calls
    [procdesi] never itself; it returns and closes the pool when every task
    returned, and otherwise raises what a task raised and leaves the pool
    open. *)
Theorem domany_never_skips mask oprefix fig_prefix nthreads overwrite w :
  ((nthreads <= 1)%Z ->
   domany glob path_exists procdesi mask oprefix fig_prefix nthreads overwrite w
   = (Throw (UnboundLocalError "parallel"), w)) /\
  ((1 < nthreads)%Z ->
   let tasks := map (task_of oprefix fig_prefix) (glob mask) in
   exists r lines j,
     domany glob path_exists procdesi mask oprefix fig_prefix nthreads overwrite w
     = (r, {| stdout := stdout w ++ lines; submitted := submitted w ++ tasks;
              called := called w; joined := j |}) /\
     ((r = Return tt /\ j = true /\ Forall (fun t => procdesi t = Return tt) tasks)
      \/ exists e t, r = Throw e /\ j = joined w /\ t ∈ tasks /\ procdesi t = Throw e)).
Proof.
  unfold domany. cbv zeta. split; intros Hn.
  - destruct (Z.ltb_spec 1 nthreads); [lia|]. reflexivity.
  - destruct (Z.ltb_spec 1 nthreads); [|lia].
    rewrite IO_bind_run. unfold local at 1. rewrite IO_bind_run.
    destruct (submit_loop oprefix fig_prefix overwrite (glob mask) [] w) as (lines & ->).
    cbn [app]. rewrite IO_bind_run. unfold local at 1. rewrite IO_bind_run.
    match goal with
    | |- context [for_each ?res _ tt ?w1] =>
        destruct (get_loop res w1) as [[-> Hall]|(e & t & Hin & Ht & ->)]
    end.
    + exists (Return tt), lines, true. split; [reflexivity|]. left. auto.
    + exists (Throw e), lines, (joined w). split; [reflexivity|]. right. eauto 6.
Qed.

End domany_properties.

(** ** Freezing a configuration *)

Section freeze.

Import utils.

(** Induction over the dictionaries nested in a value. *)
Lemma yaml_nested_ind (P : yaml -> Prop) :
  (forall s, P (scalar s)) -> (forall l, P (sequence l)) ->
  (forall items, Forall (fun kv => P kv.2) items -> P (mapping items)) ->
  forall y, P y.
Proof.
  intros Hs Hq Hm. fix IH 1. intros [s|l|items]; [apply Hs | apply Hq |].
  apply Hm. induction items as [|kv items IHitems]; constructor; [apply IH | exact IHitems].
Qed.

Lemma getitem_app_fresh {V} (d1 : list (string * V)) k v k' :
  getitem (d1 ++ [(k, v)]) k'
  = match getitem d1 k' with
    | Some v' => Some v'
    | None => if String.eqb k k' then Some v else None
    end.
Proof.
  induction d1 as [|[k0 v0] d1 IH]; simpl; [reflexivity|].
  destruct (String.eqb k0 k'); [reflexivity | exact IH].
Qed.

Lemma setitem_fresh {V} (d1 : list (string * V)) k v :
  k ∉ map fst d1 -> setitem d1 k v = d1 ++ [(k, v)].
Proof.
  induction d1 as [|[k0 v0] d1 IH]; simpl; intros Hk; [reflexivity|].
  apply not_elem_of_cons in Hk as [Hne Hk].
  destruct (String.eqb_spec k0 k) as [->|_]; [congruence|]. rewrite IH by exact Hk.
  reflexivity.
Qed.

(** Without repeated keys the assignments build the items one by one. *)
Lemma freeze_items (g : yaml -> frozen) items : forall d1,
  NoDup (map fst d1 ++ map fst items) ->
  foldl (fun d1 kv => setitem d1 kv.1 (g kv.2)) d1 items
  = d1 ++ map (fun kv => (kv.1, g kv.2)) items.
Proof.
  induction items as [|[k y] items IH]; intros d1 Hnd; simpl.
  - rewrite app_nil_r. reflexivity.
  - simpl in Hnd. rewrite setitem_fresh.
    + rewrite IH; [rewrite <- app_assoc; reflexivity|].
      rewrite map_app. simpl. rewrite <- app_assoc. exact Hnd.
    + apply NoDup_app in Hnd as (_ & Hdisj & _). intros Hin.
      apply (Hdisj k Hin). left.
Qed.

Lemma getitem_map {V W} (g : V -> W) (items : list (string * V)) k :
  getitem (map (fun kv => (kv.1, g kv.2)) items) k = g <$> getitem items k.
Proof.
  induction items as [|[k0 v0] items IH]; simpl; [reflexivity|].
  destruct (String.eqb k0 k); [reflexivity | exact IH].
Qed.

Lemma getitem_elem {V} (items : list (string * V)) k v :
  getitem items k = Some v -> (k, v) ∈ items.
Proof.
  induction items as [|[k0 v0] items IH]; simpl; [discriminate|].
  destruct (String.eqb_spec k0 k) as [->|_].
  - intros [= ->]. left.
  - intros Hk. right. apply IH, Hk.
Qed.

Lemma well_keyed_items items :
  well_keyed (mapping items) ->
  NoDup (map fst items) /\ Forall (fun kv => well_keyed kv.2) items.
Proof.
  intros [Hnd Hall]. split; [exact Hnd|]. clear Hnd.
  induction items as [|kv items IH]; [constructor|].
  destruct Hall as [Hkv Hall]. constructor; [exact Hkv | apply IH, Hall].
Qed.

Lemma freezeDict_mapping items :
  NoDup (map fst items) ->
  freezeDict (mapping items)
  = frozendict (map (fun kv => (kv.1, freezeDict kv.2)) items).
Proof.
  intros Hnd. cbn [freezeDict]. rewrite (freeze_items freezeDict items []); [reflexivity|].
  exact Hnd.
Qed.

(** X23.  [freezeDict] freezes the dictionaries nested in a dictionary and
    changes nothing else: following keys through the frozen value leads to
    the frozen form of what the same keys lead to in the original, and to
    nothing where the original has nothing; what is reached is a
    [frozendict] exactly when the original value is a dictionary, so that no
    dictionary reached by keys stays mutable, and every other value, a list
    of dictionaries included, is the object it was. *)
Theorem freezeDict_deep (y : yaml) (ks : list string) :
  well_keyed y ->
  frozen_at_path ks (freezeDict y) = freezeDict <$> at_path ks y /\
  forall y', at_path ks y = Some y' ->
    match y' with
    | mapping items =>
        exists items', freezeDict y' = frozendict items' /\
                       map fst items' = map fst items
    | _ => freezeDict y' = same y'
    end.
Proof.
  revert ks. induction y as [s|l|items IH] using yaml_nested_ind; intros ks Hwk.
  - destruct ks as [|k ks]; simpl; (split; [reflexivity|]); [|discriminate].
    intros y' [= <-]. reflexivity.
  - destruct ks as [|k ks]; simpl; (split; [reflexivity|]); [|discriminate].
    intros y' [= <-]. reflexivity.
  - apply well_keyed_items in Hwk as [Hnd Hall].
    destruct ks as [|k ks].
    + split; [reflexivity|].
      intros y' [= <-]. rewrite (freezeDict_mapping items Hnd).
      eexists. split; [reflexivity|]. rewrite map_map. reflexivity.
    + rewrite (freezeDict_mapping items Hnd).
      cbn [frozen_at_path at_path]. rewrite getitem_map.
      destruct (getitem items k) as [y1|] eqn:Ek; [|split; [reflexivity | discriminate]].
      cbn [fmap option_fmap option_map mbind option_bind].
      apply getitem_elem in Ek.
      rewrite Forall_forall in IH, Hall.
      apply (IH (k, y1) Ek ks), (Hall (k, y1) Ek).
Qed.

End freeze.

Lemma freezeDict_deep_witness :
  frozen_at_path ["grid"; "step"]
    (utils.freezeDict
       (utils.mapping
          [("template_lib", utils.scalar "lib/");
           ("grid", utils.mapping [("step", utils.scalar "10");
                                   ("axes", utils.sequence [utils.mapping []])])]))
  = Some (utils.same (utils.scalar "10")).
Proof.
  destruct (freezeDict_deep
              (utils.mapping
                 [("template_lib", utils.scalar "lib/");
                  ("grid", utils.mapping [("step", utils.scalar "10");
                                          ("axes", utils.sequence [utils.mapping []])])])
              ["grid"; "step"]) as [Hpath _].
  - simpl. repeat split; compute_done.
  - rewrite Hpath. reflexivity.
Defined.

Lemma domany_never_skips_witness :
  desi_fit.domany fixtures.two_files fixtures.all_exist fixtures.fits_fine
    "d/*.fits" "out/" "fig/" 1 true fixtures.quiet
  = (Throw (UnboundLocalError "parallel"), fixtures.quiet)
  /\ exists r lines j,
       desi_fit.domany fixtures.two_files fixtures.all_exist fixtures.fits_fine
         "d/*.fits" "out/" "fig/" 4 false fixtures.quiet
       = (r, {| desi_fit.stdout := lines;
                desi_fit.submitted := [("d/a.fits", "out/outtab_a.fits", "fig/");
                                       ("b.fits", "out/outtab_b.fits", "fig/")];
                desi_fit.called := []; desi_fit.joined := j |}).
Proof.
  split.
  - apply (domany_never_skips fixtures.two_files fixtures.all_exist fixtures.fits_fine
             "d/*.fits" "out/" "fig/" 1 true fixtures.quiet). lia.
  - destruct (domany_never_skips fixtures.two_files fixtures.all_exist fixtures.fits_fine
                "d/*.fits" "out/" "fig/" 4 false fixtures.quiet) as [_ Hpool].
    destruct Hpool as (r & lines & j & Hrun & _); [lia|].
    exists r, lines, j. exact Hrun.
Defined.

(** ** The model of the continuum *)

Section continuum_model.

Local Open Scope Q_scope.
Context `{np.Ufuncs}.
Import make_ccf.

Variable UnivariateSpline : list Q -> list Q -> list Q -> result (list Q).

Lemma clip_range (a : list Q) (lo hi : Q) :
  lo <= hi -> Forall (fun v => lo <= v <= hi) (clip a lo hi).
Proof.
  intros Hlh. unfold clip. apply Forall_forall. intros v Hv.
  apply list_elem_of_In, in_map_iff in Hv as (x & <- & _). cbv zeta.
  destruct (Qle_bool lo x) eqn:E1.
  - apply Qle_bool_iff in E1. destruct (Qle_bool x hi) eqn:E2.
    + apply Qle_bool_iff in E2. split; assumption.
    + split; [exact Hlh | apply Qle_refl].
  - destruct (Qle_bool lo hi) eqn:E2.
    + split; [apply Qle_refl | exact Hlh].
    + apply Qle_bool_iff in Hlh. congruence.
Qed.

Lemma clip_length (a : list Q) (lo hi : Q) : length (clip a lo hi) = length a.
Proof. apply length_map. Qed.

(** X24.  The model that [fit_resid] returns is clipped: wherever the spline
    can be evaluated, the call with [getModel=True] returns one value per
    wavelength, each between [exp(-100)] and [exp(100)], for an exponential
    that grows with its argument; the continuum never vanishes or
    overflows, whatever the spline coefficients are. *)
Theorem fit_resid_clipped p nodes lam spec espec s :
  (forall a b, a <= b -> np.exp a <= np.exp b) ->
  UnivariateSpline nodes p lam = Ok s ->
  exists model,
    fit_resid UnivariateSpline p (nodes, lam, spec, espec) true = Ok model /\
    length model = length s /\
    Forall (fun v => np.exp (-100) <= v <= np.exp 100) model.
Proof.
  intros exp_mono Hs. unfold fit_resid. rewrite Hs. cbn [mbind result_bind]. cbv zeta.
  eexists. split; [reflexivity|]. split; [rewrite length_map; apply clip_length|].
  apply Forall_forall. intros v Hv.
  apply list_elem_of_In, in_map_iff in Hv as (x & <- & Hx).
  pose proof (clip_range s (-100) 100) as Hrange.
  rewrite Forall_forall in Hrange.
  destruct (Hrange ltac:(lra) x (proj2 (list_elem_of_In _ _) Hx)) as [Hlo Hhi].
  split; apply exp_mono; assumption.
Qed.

End continuum_model.

Lemma fit_resid_clipped_witness :
  exists model,
    @make_ccf.fit_resid fixtures.bounded fixtures.line [0; 1000]%Q
      ([1; 2]%Q, [-1; 0; 1]%Q, [1; 1; 1]%Q, [1; 1; 1]%Q) true = Ok model /\
    length model = 3%nat /\
    Forall (fun v => (@np.exp fixtures.bounded (-100) <= v
                      <= @np.exp fixtures.bounded 100)%Q) model.
Proof.
  apply (@fit_resid_clipped fixtures.bounded fixtures.line [0; 1000]%Q [1; 2]%Q
           [-1; 0; 1]%Q [1; 1; 1]%Q [1; 1; 1]%Q
           (map (fun x => 0 + (1000 - 0) * x)%Q [-1; 0; 1]%Q)).
  - intros a b Hab. simpl. lra.
  - reflexivity.
Defined.

(** ** The outside check inside the grid *)

Section outside_inside.

Local Open Scope Q_scope.
Import spec_inter.

Lemma count_positive {A} (f : A -> bool) (l : list A) x :
  x ∈ l -> f x = true -> (0 < np.count f l)%nat.
Proof.
  induction l as [|a l IH]; intros Hx Hf; [inversion Hx|]. simpl.
  apply elem_of_cons in Hx as [<-|Hx]; [rewrite Hf; lia|].
  destruct (f a); [lia | apply IH; assumption].
Qed.

Lemma count_short {A} (f : A -> bool) (l : list A) x :
  x ∈ l -> f x = false -> (np.count f l < length l)%nat.
Proof.
  induction l as [|a l IH]; intros Hx Hf; [inversion Hx|]. simpl.
  apply elem_of_cons in Hx as [<-|Hx].
  - rewrite Hf. pose proof (count_length f l). lia.
  - specialize (IH Hx Hf). destruct (f a); lia.
Qed.

(** Between the first and the last value of an axis the bin has a right
    neighbour. *)
Lemma bin_inside u x a b :
  head u = Some a -> last u = Some b -> a <= x -> x < b ->
  (0 <= bin u x < Z.of_nat (length u) - 1)%Z.
Proof.
  intros Ha Hb Hax Hxb. unfold bin, np.searchsorted_right.
  assert (0 < np.count (fun e => Qle_bool e x) u)%nat.
  { apply (count_positive _ u a).
    - destruct u; [discriminate|]. injection Ha as ->. left.
    - apply Qle_bool_iff, Hax. }
  assert (np.count (fun e => Qle_bool e x) u < length u)%nat.
  { apply (count_short _ u b).
    - rewrite last_lookup in Hb. eapply list_elem_of_lookup_2, Hb.
    - destruct (Qle_bool b x) eqn:E; [|reflexivity].
      apply Qle_bool_iff in E. exfalso. apply (Qlt_irrefl x). eapply Qlt_le_trans; eauto. }
  lia.
Qed.

Lemma in_bounds_on_grid uvecs : forall p,
  in_bounds uvecs p ->
  off_grid (zip_with bin uvecs p) (map length uvecs) = false.
Proof.
  unfold in_bounds, off_grid.
  induction uvecs as [|u us IH]; intros p Hin; [reflexivity|].
  destruct p as [|x xs]; [reflexivity|].
  cbn [zip zip_with] in Hin. apply Forall_cons in Hin as [(a & b & Ha & Hb & Hax & Hxb) Hin].
  cbn [zip_with map zip existsb fst snd].
  rewrite (IH xs Hin), orb_false_r.
  pose proof (bin_inside u x a b Ha Hb Hax Hxb) as Hbin.
  apply orb_false_intro; [apply Z.ltb_ge; lia | rewrite Z.geb_leb; apply Z.leb_gt; lia].
Qed.

Lemma any_missing_true idgrid edges :
  GridOutsideCheck.any_missing idgrid edges = Ok true ->
  exists curp, curp ∈ edges /\ np.getitem idgrid curp = Ok (-1)%Z.
Proof.
  induction edges as [|curp edges IH]; simpl; [discriminate|].
  destruct (np.getitem idgrid curp) as [v|e] eqn:Ev; [|discriminate]. simpl.
  destruct (Z.eqb_spec v (-1)) as [->|_].
  - intros _. exists curp. split; [left | exact Ev].
  - intros Hrest. destruct (IH Hrest) as (c & Hc & Hv).
    exists c. split; [right; exact Hc | exact Hv].
Qed.

(** X25.  Inside the bounds of the grid the outside check does not look at
    the point: it gives the same answer for any two points that lie in
    [[first, last)] along every axis, and when it answers [True] there, the
    entry [-1] it found is one of the [2^N] entries of the index grid whose
    indices are all [0] or [1], whichever bin the point is in. *)
Theorem outside_ignores_point uvecs idgrid p q :
  sorted_axes uvecs ->
  (length uvecs <= length p)%nat -> (length uvecs <= length q)%nat ->
  in_bounds uvecs p -> in_bounds uvecs q ->
  GridOutsideCheck.__call__ (GridOutsideCheck.__init__ uvecs idgrid) p
  = GridOutsideCheck.__call__ (GridOutsideCheck.__init__ uvecs idgrid) q /\
  (GridOutsideCheck.__call__ (GridOutsideCheck.__init__ uvecs idgrid) p = Ok true ->
   exists curp, curp ∈ product01 (length uvecs) /\
                np.getitem idgrid curp = Ok (-1)%Z).
Proof.
  intros Hs Hp Hq Hinp Hinq. unfold GridOutsideCheck.__call__.
  cbn [GridOutsideCheck.uvecs GridOutsideCheck.lens GridOutsideCheck.edges
       GridOutsideCheck.idgrid GridOutsideCheck.__init__].
  rewrite (gridlocs_sorted uvecs p Hs Hp), (gridlocs_sorted uvecs q Hs Hq).
  cbn [mbind result_bind].
  rewrite (in_bounds_on_grid uvecs p Hinp), (in_bounds_on_grid uvecs q Hinq).
  split; [reflexivity | apply any_missing_true].
Qed.

End outside_inside.

Lemma outside_ignores_point_witness :
  spec_inter.GridOutsideCheck.__call__
    (spec_inter.GridOutsideCheck.__init__ sample.uvecs sample.idgrid_hole) [5 # 2; 25]%Q
  = spec_inter.GridOutsideCheck.__call__
      (spec_inter.GridOutsideCheck.__init__ sample.uvecs sample.idgrid_hole) [1; 10]%Q.
Proof.
  apply (outside_ignores_point sample.uvecs sample.idgrid_hole [5 # 2; 25]%Q [1; 10]%Q).
  - exact sample_sorted.
  - simpl. lia.
  - simpl. lia.
  - constructor; [|constructor; [|constructor]].
    + exists 1%Q, 3%Q. simpl. repeat split; try reflexivity; lra.
    + exists 10%Q, 30%Q. simpl. repeat split; try reflexivity; lra.
  - constructor; [|constructor; [|constructor]].
    + exists 1%Q, 3%Q. simpl. repeat split; try reflexivity; lra.
    + exists 10%Q, 30%Q. simpl. repeat split; try reflexivity; lra.
Defined.
